(** * The term simplifier of [src/library/simplifier/simplifier.cpp]

    A shallow embedding of the class [simplifier_fn]: the driver [simplify],
    the application, abstraction and constant simplifiers, the rewrite engine
    and the scoped guards on the context, the rule sets and the cache.

    Conventions of the embedding.
    - Expressions are trees; [expr]'s [operator==] is structural equality
      ([expr_eqb]).  Pointer equality [is_eqp] is not a function of the tree
      and is taken from the kernel interface.
    - Everything the file calls but does not define (type checker, free
      variable utilities, matcher, theorem builders, environment) is a field
      of the record [kernel]; the functions below are parametric in it.
    - The members of [simplifier_fn] written only by its constructor form the
      record [config]; the members written during a run form [state].
    - A member function returning [result] is a computation in the monad [M]:
      it takes a [state] and gives back the final [state] together with a
      value or the exception that left the function.  Destructors of the
      scoped guards run on both kinds of exit.
    - The mutual recursion of the C++ functions all goes through [simplify];
      the functions take the driver as a parameter [simp] and the driver is
      closed by recursion on a fuel argument.
    - [check_system] reads a flag set from outside; the flag is a field of
      the kernel interface, indexed by the step counter.
    - The type checker is taken to be total: its kernel exceptions are not
      modelled. *)

From Stdlib Require Import ZArith List Bool String Lia FunctionalExtensionality.
Import ListNotations.
Open Scope Z_scope.
Open Scope list_scope.
Set Warnings "-register-all".

(* ================================================================= *)
(** ** Names and expressions *)

(** Hierarchical names: [name(prefix, "s")] and [name(prefix, k)]. *)
Inductive name : Type :=
| anonymous
| name_string (prefix : name) (s : string)
| name_numeral (prefix : name) (k : Z).

Fixpoint name_eqb (a b : name) : bool :=
  match a, b with
  | anonymous, anonymous => true
  | name_string p s, name_string q t => String.eqb s t && name_eqb p q
  | name_numeral p k, name_numeral q j => Z.eqb k j && name_eqb p q
  | _, _ => false
  end.

(** The expression kinds of [expr_kind]. *)
Inductive expr : Type :=
| Var (idx : nat)
| Constant (n : name)
| TypeK
| MetaVar (n : name)
| Value (v : Z)
| App (args : list expr)
| Lambda (n : name) (d b : expr)
| Pi (n : name) (d b : expr)
| Let (n : name) (t : option expr) (v b : expr).

Fixpoint expr_eqb (a b : expr) : bool :=
  match a, b with
  | Var i, Var j => Nat.eqb i j
  | Constant n, Constant m => name_eqb n m
  | TypeK, TypeK => true
  | MetaVar n, MetaVar m => name_eqb n m
  | Value v, Value w => Z.eqb v w
  | App xs, App ys =>
      (fix all2 (l1 l2 : list expr) : bool :=
         match l1, l2 with
         | [], [] => true
         | x :: l1', y :: l2' => expr_eqb x y && all2 l1' l2'
         | _, _ => false
         end) xs ys
  | Lambda _ d1 b1, Lambda _ d2 b2 => expr_eqb d1 d2 && expr_eqb b1 b2
  | Pi _ d1 b1, Pi _ d2 b2 => expr_eqb d1 d2 && expr_eqb b1 b2
  | Let _ t1 v1 b1, Let _ t2 v2 b2 =>
      match t1, t2 with
      | None, None => true
      | Some x, Some y => expr_eqb x y
      | _, _ => false
      end && expr_eqb v1 v2 && expr_eqb b1 b2
  | _, _ => false
  end.

(** A default constructed [expr()] (a null reference).  It is only ever
    stored, never inspected, on the paths where the source leaves an [expr]
    uninitialised. *)
Definition null_expr : expr := Constant anonymous.

(** Destructors.  The source asserts the kind of the argument; outside that
    precondition the embedding returns [null_expr]. *)
Definition is_app (e : expr) : bool := match e with App _ => true | _ => false end.
Definition is_lambda (e : expr) : bool := match e with Lambda _ _ _ => true | _ => false end.
Definition is_pi (e : expr) : bool := match e with Pi _ _ _ => true | _ => false end.
Definition is_value (e : expr) : bool := match e with Value _ => true | _ => false end.
Definition is_var (e : expr) (i : nat) : bool :=
  match e with Var j => Nat.eqb j i | _ => false end.

Definition args (e : expr) : list expr := match e with App l => l | _ => [] end.
Definition num_args (e : expr) : nat := List.length (args e).
Definition arg (e : expr) (i : nat) : expr := nth i (args e) null_expr.

Definition abst_name (e : expr) : name :=
  match e with Lambda n _ _ | Pi n _ _ => n | _ => anonymous end.
Definition abst_domain (e : expr) : expr :=
  match e with Lambda _ d _ | Pi _ d _ => d | _ => null_expr end.
Definition abst_body (e : expr) : expr :=
  match e with Lambda _ _ b | Pi _ _ b => b | _ => null_expr end.
Definition const_name (e : expr) : name :=
  match e with Constant n => n | _ => anonymous end.
Definition let_value (e : expr) : expr :=
  match e with Let _ _ v _ => v | _ => null_expr end.
Definition let_body (e : expr) : expr :=
  match e with Let _ _ _ b => b | _ => null_expr end.

(** [update_app(e, i, v)]: the application [e] with argument [i] replaced. *)
Fixpoint buffer_set {A : Type} (b : list A) (i : nat) (x : A) : list A :=
  match b, i with
  | [], _ => []
  | _ :: t, O => x :: t
  | h :: t, S j => h :: buffer_set t j x
  end.

Definition update_app (e : expr) (i : nat) (v : expr) : expr :=
  App (buffer_set (args e) i v).

(** [mk_lambda(abst, new_body)] of the source: name and domain from [abst]. *)
Definition mk_lambda2 (abst new_body : expr) : expr :=
  Lambda (abst_name abst) (abst_domain abst) new_body.

(** Typing contexts: a stack of entries, [extend] pushes one. *)
Definition context : Type := list (name * expr).
Definition extend (c : context) (n : name) (d : expr) : context := (n, d) :: c.

(* ================================================================= *)
(** ** Results, rules, congruence theorems *)

Record result : Type := mk_result {
  m_out : expr;
  m_proof : option expr;
  m_heq_proof : bool
}.

(** The three constructors of [struct result]. *)
Definition result_out (out : expr) : result := mk_result out None false.
Definition result_pr (out pr : expr) (heq : bool) : result := mk_result out (Some pr) heq.

Record rewrite_rule : Type := mk_rewrite_rule {
  get_lhs : expr;
  get_rhs : expr;
  get_ceq : expr;
  get_proof : expr;
  get_num_args : nat;
  is_permutation : bool
}.

(** [congr_theorem_info] and its per-argument records (library/simplifier/congr.h). *)
Record congr_context : Type := mk_congr_context {
  ctx_arg_pos : nat;
  use_new_val : bool;
  is_pos_dep : bool
}.

Record app_arg_info : Type := mk_app_arg_info {
  get_arg_pos : nat;
  should_simplify : bool;
  get_context : option congr_context;
  get_pos_at_proof : nat;
  get_new_pos_at_proof : option nat;
  get_proof_pos_at_proof : option nat
}.

Record congr_theorem_info : Type := mk_congr_theorem_info {
  get_fun : expr;
  cg_proof : expr;
  get_num_proof_args : nat;
  get_arg_info : list app_arg_info
}.

(** Modelled from the spec: [rewrite_rule_set] (rewrite_rule_set.h is not part
    of the sources).  A collection of rules in iteration order together with
    the congruence theorems it enumerates; [find_match] visits the rules in
    order and stops at the first one the visitor accepts. *)
Record rewrite_rule_set : Type := mk_rewrite_rule_set {
  rs_rules : list rewrite_rule;
  rs_congr : list congr_theorem_info
}.

(** An environment object as far as [simplify_constant] looks at it. *)
Record object : Type := mk_object {
  get_value : expr;
  is_builtin : bool
}.

(* ================================================================= *)
(** ** The kernel and library interface *)

(** Everything the simplifier calls and does not define. *)
Record kernel : Type := mk_kernel {
  (* type checker *)
  infer_type : context -> expr -> expr;
  ensure_pi : context -> expr -> expr;
  is_proposition : context -> expr -> bool;
  is_convertible : context -> expr -> expr -> bool;
  is_definitionally_equal : context -> expr -> expr -> bool;
  normalize : context -> expr -> expr;
  (* expressions and free variables *)
  mk_app : list expr -> expr;
  is_eqp : expr -> expr -> bool;
  is_arrow : expr -> bool;
  instantiate : expr -> list expr -> expr;
  lower_free_vars : expr -> nat -> nat -> expr;
  abstract : expr -> expr -> expr;
  has_free_var : expr -> nat -> bool;
  head_beta_reduce : expr -> expr;
  pi_body_at : expr -> expr -> expr;
  (* matcher and term order *)
  hop_match : expr -> expr -> nat -> option (list (option expr));
  is_lt : expr -> expr -> bool -> bool;
  (* environment *)
  find_object : name -> option object;
  should_unfold : option object -> bool;
  imported : string -> bool;
  empty_rule_set : rewrite_rule_set;
  to_rules : name -> expr -> expr -> list rewrite_rule;
  (* interruption flag, as read by the [k]-th step of a run *)
  interrupt_requested : Z -> bool;
  (* kernel constants and recognisers *)
  True_ : expr;
  mk_trivial : expr;
  mk_cast_heq_fn : expr;
  mk_not : expr -> expr;
  mk_eq : expr -> expr -> expr -> expr;
  is_eq : expr -> bool;
  is_neq : expr -> bool;
  is_heq : expr -> bool;
  is_cast : expr -> bool;
  (* theorem builders *)
  mk_refl_th : expr -> expr -> expr;
  mk_hrefl_th : expr -> expr -> expr;
  mk_trans_th : expr -> expr -> expr -> expr -> expr -> expr -> expr;
  mk_htrans_th : expr -> expr -> expr -> expr -> expr -> expr -> expr -> expr -> expr;
  mk_subst_th : expr -> expr -> expr -> expr -> expr -> expr -> expr;
  mk_congr1_th : expr -> expr -> expr -> expr -> expr -> expr -> expr;
  mk_congr2_th : expr -> expr -> expr -> expr -> expr -> expr -> expr;
  mk_congr_th : expr -> expr -> expr -> expr -> expr -> expr -> expr -> expr -> expr;
  mk_hcongr_th : expr -> expr -> expr -> expr -> expr -> expr -> expr -> expr -> expr -> expr -> expr;
  mk_to_eq_th : expr -> expr -> expr -> expr -> expr;
  mk_to_heq_th : expr -> expr -> expr -> expr -> expr;
  mk_eqt_elim_th : expr -> expr -> expr;
  mk_eta_th : expr -> expr -> expr -> expr;
  mk_funext_th : expr -> expr -> expr -> expr -> expr -> expr;
  mk_allext_th : expr -> expr -> expr -> expr -> expr
}.

(** Modelled from the spec: [rewrite_rule_set::insert(ns, fact, proof)] adds
    the rules obtained from the fact in front of the existing ones. *)
Definition rs_insert (K : kernel) (rs : rewrite_rule_set) (ns : name) (fact proof : expr)
  : rewrite_rule_set :=
  mk_rewrite_rule_set (to_rules K ns fact proof ++ rs_rules rs) (rs_congr rs).

(* ================================================================= *)
(** ** Options *)

Inductive option_value : Type :=
| BoolVal (b : bool)
| UnsignedVal (u : Z).

Definition options : Type := list (name * option_value).

Fixpoint options_find (o : options) (n : name) : option option_value :=
  match o with
  | [] => None
  | (m, v) :: o' => if name_eqb m n then Some v else options_find o' n
  end.

Definition get_bool (o : options) (n : name) (default : bool) : bool :=
  match options_find o n with Some (BoolVal b) => b | _ => default end.

Definition get_unsigned (o : options) (n : name) (default : Z) : Z :=
  match options_find o n with Some (UnsignedVal u) => u | _ => default end.

Definition UINT_MAX : Z := 4294967295.

(** Unsigned 32-bit increment wraps around. *)
Definition wrap32 (z : Z) : Z := z mod 4294967296.

Definition simplifier_opt (s : string) : name := name_string (name_string anonymous "simplifier") s.

Definition g_simplifier_proofs : name := simplifier_opt "proofs".
Definition g_simplifier_contextual : name := simplifier_opt "contextual".
Definition g_simplifier_single_pass : name := simplifier_opt "single_pass".
Definition g_simplifier_beta : name := simplifier_opt "beta".
Definition g_simplifier_eta : name := simplifier_opt "eta".
Definition g_simplifier_eval : name := simplifier_opt "eval".
Definition g_simplifier_unfold : name := simplifier_opt "unfold".
Definition g_simplifier_conditional : name := simplifier_opt "conditional".
Definition g_simplifier_memoize : name := simplifier_opt "memoize".
Definition g_simplifier_max_steps : name := simplifier_opt "max_steps".

Definition get_simplifier_proofs (o : options) : bool := get_bool o g_simplifier_proofs true.
Definition get_simplifier_contextual (o : options) : bool := get_bool o g_simplifier_contextual true.
Definition get_simplifier_single_pass (o : options) : bool := get_bool o g_simplifier_single_pass false.
Definition get_simplifier_beta (o : options) : bool := get_bool o g_simplifier_beta true.
Definition get_simplifier_eta (o : options) : bool := get_bool o g_simplifier_eta true.
Definition get_simplifier_eval (o : options) : bool := get_bool o g_simplifier_eval true.
Definition get_simplifier_unfold (o : options) : bool := get_bool o g_simplifier_unfold false.
Definition get_simplifier_conditional (o : options) : bool := get_bool o g_simplifier_conditional true.
Definition get_simplifier_memoize (o : options) : bool := get_bool o g_simplifier_memoize true.
Definition get_simplifier_max_steps (o : options) : Z := get_unsigned o g_simplifier_max_steps UINT_MAX.

Definition g_local : name := name_string anonymous "local".
Definition g_C : name := name_string anonymous "C".
Definition g_x : name := name_string anonymous "x".
(** [name::mk_internal_unique_name()]: a name no user constant carries. *)
Definition g_unique : name := name_numeral anonymous 0.

(* ================================================================= *)
(** ** The simplifier object *)

(** Members fixed by the constructor. *)
Record config : Type := mk_config {
  m_has_heq : bool;
  m_has_cast : bool;
  m_congr_thms : list congr_theorem_info;
  m_proofs_enabled : bool;
  m_contextual : bool;
  m_single_pass : bool;
  m_beta : bool;
  m_eta : bool;
  m_eval : bool;
  m_unfold : bool;
  m_conditional : bool;
  m_memoize : bool;
  m_max_steps : Z
}.

(** [expr_map<result>]: a map keyed by structural equality;
    [insert] keeps an existing binding. *)
Definition cache : Type := list (expr * result).

Fixpoint cache_find (c : cache) (e : expr) : option result :=
  match c with
  | [] => None
  | (k, r) :: c' => if expr_eqb k e then Some r else cache_find c' e
  end.

Definition cache_insert (c : cache) (e : expr) (r : result) : cache :=
  match cache_find c e with
  | Some _ => c
  | None => (e, r) :: c
  end.

(** Members written during a run. *)
Record state : Type := mk_state {
  m_ctx : context;
  m_rule_sets : list rewrite_rule_set;
  m_cache : cache;
  m_contextual_depth : Z;
  m_num_steps : Z
}.

Definition set_ctx (c : context) (s : state) : state :=
  mk_state c (m_rule_sets s) (m_cache s) (m_contextual_depth s) (m_num_steps s).
Definition set_rule_sets (r : list rewrite_rule_set) (s : state) : state :=
  mk_state (m_ctx s) r (m_cache s) (m_contextual_depth s) (m_num_steps s).
Definition set_cache (c : cache) (s : state) : state :=
  mk_state (m_ctx s) (m_rule_sets s) c (m_contextual_depth s) (m_num_steps s).
Definition set_contextual_depth (d : Z) (s : state) : state :=
  mk_state (m_ctx s) (m_rule_sets s) (m_cache s) d (m_num_steps s).
Definition set_num_steps (n : Z) (s : state) : state :=
  mk_state (m_ctx s) (m_rule_sets s) (m_cache s) (m_contextual_depth s) n.

(* ================================================================= *)
(** ** The monad of member functions *)

(** Ways a member function is left other than by [return].  [Exhausted] is the
    exception of the step bound, [Interrupted] the one of [check_system],
    [NullDeref] the dereference of an empty [optional<object>]; [OutOfFuel]
    belongs to the embedding: the recursion was cut off. *)
Inductive exn : Type :=
| Exhausted
| Interrupted
| NullDeref
| OutOfFuel.

Inductive outcome (A : Type) : Type :=
| Ret (a : A)
| Err (x : exn).
Arguments Ret {A} a.
Arguments Err {A} x.

Definition M (A : Type) : Type := state -> state * outcome A.

Definition ret {A : Type} (a : A) : M A := fun s => (s, Ret a).
Definition throw {A : Type} (x : exn) : M A := fun s => (s, Err x).
Definition bind {A B : Type} (m : M A) (k : A -> M B) : M B :=
  fun s =>
    match m s with
    | (s', Ret a) => k a s'
    | (s', Err x) => (s', Err x)
    end.

Notation "x <- m ;; k" := (bind m (fun x => k))
  (at level 61, m at next level, right associativity).
Notation "' pat <- m ;; k" := (bind m (fun x => match x with pat => k end))
  (at level 61, pat pattern, m at next level, right associativity).

Definition get_ctx : M context := fun s => (s, Ret (m_ctx s)).
Definition get_rule_sets : M (list rewrite_rule_set) := fun s => (s, Ret (m_rule_sets s)).
Definition get_contextual_depth : M Z := fun s => (s, Ret (m_contextual_depth s)).
Definition lookup_cache (e : expr) : M (option result) := fun s => (s, Ret (cache_find (m_cache s) e)).

(** [flet<context>]: install a value, put the old one back at scope exit. *)
Definition flet_ctx {A : Type} (new_ctx : context) (m : M A) : M A :=
  fun s =>
    let old := m_ctx s in
    let '(s', o) := m (set_ctx new_ctx s) in
    (set_ctx old s', o).

(** [flet<unsigned>] on [m_contextual_depth]. *)
Definition flet_depth {A : Type} (new_depth : Z) (m : M A) : M A :=
  fun s =>
    let old := m_contextual_depth s in
    let '(s', o) := m (set_contextual_depth new_depth s) in
    (set_contextual_depth old s', o).

(** Modelled from the spec: [freset<cache>] (util/freset.h is not part of the
    sources) empties the cache for the scope and restores the previous
    binding at scope exit. *)
Definition freset_cache {A : Type} (m : M A) : M A :=
  fun s =>
    let old := m_cache s in
    let '(s', o) := m (set_cache [] s) in
    (set_cache old s', o).

(** [struct set_context]: member [m_set] is constructed first and destroyed last. *)
Definition set_context {A : Type} (new_ctx : context) (m : M A) : M A :=
  flet_ctx new_ctx (freset_cache m).

(** [struct updt_rule_set] on [m_rule_sets[0]]: copy the rule set, insert the
    fact, and assign the copy back in the destructor.  The source indexes the
    vector unchecked; rule set 0 exists whenever the guard is reached (see
    [mk_simplifier_fn]) and the embedding leaves an empty vector alone. *)
Definition updt_rule_set {A : Type} (K : kernel) (fact proof : expr) (m : M A) : M A :=
  fun s =>
    match m_rule_sets s with
    | [] => m s
    | m_old :: _ =>
        let '(s', o) := m (set_rule_sets (buffer_set (m_rule_sets s) 0
                                            (rs_insert K m_old g_local fact proof)) s) in
        (set_rule_sets (buffer_set (m_rule_sets s') 0 m_old) s', o)
    end.

(* ================================================================= *)
(** ** The member functions of [simplifier_fn] *)

Section Simplifier.

Variable K : kernel.
Variable cfg : config.

(** *** Proof builders of the class *)

Definition translate_eq_proof (A a b H B : expr) : expr :=
  mk_subst_th K A a b (Lambda g_x A (mk_eq K B a (Var 0))) (mk_refl_th K B a) H.

Definition mk_congr1_th' (f_type f new_f a Heq_f : expr) : expr :=
  let A := abst_domain f_type in
  let B := lower_free_vars K (abst_body f_type) 1 1 in
  mk_congr1_th K A B f new_f a Heq_f.

Definition mk_congr2_th' (ctx : context) (f_type a new_a f Heq_a : expr) : expr :=
  let A := abst_domain f_type in
  let B := lower_free_vars K (abst_body f_type) 1 1 in
  let a_type := infer_type K ctx a in
  let Heq_a := if negb (is_definitionally_equal K ctx A a_type)
               then translate_eq_proof a_type a new_a Heq_a A else Heq_a in
  mk_congr2_th K A B a new_a f Heq_a.

Definition mk_congr_th' (ctx : context) (f_type f new_f a new_a Heq_f Heq_a : expr) : expr :=
  let A := abst_domain f_type in
  let B := lower_free_vars K (abst_body f_type) 1 1 in
  let a_type := infer_type K ctx a in
  let Heq_a := if negb (is_definitionally_equal K ctx A a_type)
               then translate_eq_proof a_type a new_a Heq_a A else Heq_a in
  mk_congr_th K A B f new_f a new_a Heq_f Heq_a.

(** [mk_hcongr_th] of the class: [None] is the source's [none_expr()]. *)
Definition mk_hcongr_th' (ctx : context) (f_type new_f_type f new_f a new_a Heq_f Heq_a : expr)
           (Heq_a_is_heq : bool) : option expr :=
  let A := abst_domain f_type in
  let new_A := abst_domain new_f_type in
  let a_type := infer_type K ctx a in
  let new_a_type := infer_type K ctx new_a in
  if negb (is_convertible K ctx new_a_type new_A) then None
  else
    let finish (Heq_a : expr) (Heq_a_is_heq : bool) : option expr :=
      let Heq_a := if negb Heq_a_is_heq then mk_to_heq_th K A a new_a Heq_a else Heq_a in
      Some (mk_hcongr_th K A new_A
              (mk_lambda2 f_type (abst_body f_type))
              (mk_lambda2 new_f_type (abst_body new_f_type))
              f new_f a new_a Heq_f Heq_a) in
    if negb (is_definitionally_equal K ctx A a_type)
       || negb (is_definitionally_equal K ctx new_A new_a_type) then
      if Heq_a_is_heq then
        if is_definitionally_equal K ctx a_type new_a_type
           && is_definitionally_equal K ctx A new_A then
          finish (translate_eq_proof a_type a new_a (mk_to_eq_th K a_type a new_a Heq_a) A) false
        else None
      else finish (translate_eq_proof a_type a new_a Heq_a A) Heq_a_is_heq
    else finish Heq_a Heq_a_is_heq.

(** [mk_trans_result(a, b_res, c, H_bc)]. *)
Definition mk_trans_result (ctx : context) (a : expr) (b_res : result) (c H_bc : expr) : result :=
  if m_proofs_enabled cfg then
    match m_proof b_res with
    | None => result_pr c H_bc false
    | Some H_ab =>
        let b := m_out b_res in
        if m_heq_proof b_res then
          let b_type := infer_type K ctx b in
          result_pr c (mk_htrans_th K (infer_type K ctx a) b_type b_type a b c H_ab
                         (mk_to_heq_th K b_type b c H_bc)) true
        else
          result_pr c (mk_trans_th K (infer_type K ctx a) a b c H_ab H_bc) false
    end
  else result_out c.

(** [mk_trans_result(a, b_res, c_res)]. *)
Definition mk_trans_result_res (ctx : context) (a : expr) (b_res c_res : result) : result :=
  if m_proofs_enabled cfg then
    match m_proof b_res with
    | None => c_res
    | Some pr_b =>
        match m_proof c_res with
        | None => mk_result (m_out c_res) (Some pr_b) (m_heq_proof b_res)
        | Some pr_c =>
            let heq_proof := m_heq_proof b_res || m_heq_proof c_res in
            let b := m_out b_res in
            let c := m_out c_res in
            if heq_proof then
              let a_type := infer_type K ctx a in
              let b_type := infer_type K ctx b in
              let c_type := infer_type K ctx c in
              let H_ab := if negb (m_heq_proof b_res)
                          then mk_to_heq_th K a_type a b pr_b else pr_b in
              let H_bc := if negb (m_heq_proof c_res)
                          then mk_to_heq_th K b_type b c pr_c else pr_c in
              result_pr c (mk_htrans_th K a_type b_type c_type a b c H_ab H_bc) heq_proof
            else
              result_pr c (mk_trans_th K (infer_type K ctx a) a b c pr_b pr_c) heq_proof
        end
    end
  else c_res.

(** [mk_app_prefix(i, args)]: the application of the first [i] entries. *)
Definition mk_app_prefix (i : nat) (l : list expr) : expr :=
  if Nat.eqb i 1 then nth 0 l null_expr else mk_app K (firstn i l).

(** [ensure_homogeneous]: [None] is [false]; otherwise the updated [rhs].
    The flag [m_heq_proof] is left as it was, as in the source. *)
Definition ensure_homogeneous (ctx : context) (lhs : expr) (rhs : result) : option result :=
  if m_heq_proof rhs then
    let lhs_type := infer_type K ctx lhs in
    let rhs_type := infer_type K ctx (m_out rhs) in
    if is_definitionally_equal K ctx lhs_type rhs_type then
      Some (mk_result (m_out rhs)
              (Some (mk_to_eq_th K lhs_type lhs (m_out rhs)
                       (match m_proof rhs with Some p => p | None => null_expr end)))
              (m_heq_proof rhs))
    else None
  else Some rhs.

Definition get_proof_of (ctx : context) (rhs : result) : expr :=
  match m_proof rhs with
  | Some p => p
  | None => mk_refl_th K (infer_type K ctx (m_out rhs)) (m_out rhs)
  end.

Definition evaluate_app (e : expr) : bool :=
  if negb (m_eval cfg) then false
  else if forallb is_value (tl (args e)) then true
  else
    let num := num_args e in
    (is_eq K e || is_neq K e || is_heq K e)
    && is_value (arg e (num - 2)) && is_value (arg e (num - 1)).

Definition is_eta_target (e : expr) : bool :=
  if is_lambda e then
    let b := abst_body e in
    is_app b && is_var (arg b (num_args b - 1)) 0
    && forallb (fun a => negb (has_free_var K a 0)) (removelast (args b))
  else false.

(** [save]: [m_max_sharing] returns a structurally equal expression, the
    identity on trees. *)
Definition m_max_sharing (e : expr) : expr := e.

Definition save (e : expr) (r : result) : M result :=
  if m_memoize cfg then
    let new_r := mk_result (m_max_sharing (m_out r)) (m_proof r) (m_heq_proof r) in
    fun s => (set_cache (cache_insert (m_cache s) e new_r) s, Ret new_r)
  else ret r.

(** The head of [simplify]: [check_system], the step counter and its bound. *)
Definition count_step : M unit :=
  fun s =>
    if interrupt_requested K (m_num_steps s) then (s, Err Interrupted)
    else
      let s' := set_num_steps (wrap32 (m_num_steps s + 1)) s in
      if m_max_steps cfg <? m_num_steps s' then (s', Err Exhausted)
      else (s', Ret tt).

(** *** The functions that call the driver

    [simp] stands for the recursive calls of [simplify]. *)

Section Driver.

Variable simp : expr -> M result.

Definition deref (o : option expr) : expr :=
  match o with Some e => e | None => null_expr end.
Definition deref_pos (o : option nat) : nat :=
  match o with Some p => p | None => O end.
Definition has_proof (r : result) : bool :=
  match m_proof r with Some _ => true | None => false end.

(** The substitution buffer after [subst.resize(num)] and [hop_match]. *)
Definition subst_resize (num : nat) (l : list (option expr)) : list (option expr) :=
  firstn num (l ++ repeat None num).

(** [found_all_args]: the values of the buffer when every entry is assigned. *)
Fixpoint found_all_args (subst : list (option expr)) : option (list expr) :=
  match subst with
  | [] => Some []
  | None :: _ => None
  | Some v :: rest =>
      match found_all_args rest with
      | Some vs => Some (v :: vs)
      | None => None
      end
  end.

(** The loop of the conditional branch of [check_rule_fn] over the
    substitution buffer; [None] is [return false]. *)
Fixpoint conditional_args (subst : list (option expr)) (ceq : expr) (proof_args : list expr)
  : M (option (expr * list expr)) :=
  match subst with
  | [] => ret (Some (ceq, proof_args))
  | Some v :: rest =>
      conditional_args rest (instantiate K (abst_body ceq) [v])
        (if m_proofs_enabled cfg then proof_args ++ [v] else proof_args)
  | None :: rest =>
      let d := abst_domain ceq in
      ctx <- get_ctx ;;
      if is_proposition K ctx d then
        d_res <- simp d ;;
        if expr_eqb (m_out d_res) (True_ K) then
          if m_proofs_enabled cfg then
            let d_proof := match m_proof d_res with
                           | None => mk_trivial K
                           | Some p => mk_eqt_elim_th K d p
                           end in
            conditional_args rest (instantiate K (abst_body ceq) [d_proof])
              (proof_args ++ [d_proof])
          else if is_arrow K ceq then
            conditional_args rest (lower_free_vars K (abst_body ceq) 1 1) proof_args
          else ret None
        else ret None
      else ret None
  end.

(** The visitor of [rewrite]: on acceptance the pair [(new_rhs, new_proof)]
    the source leaves in the captured variables.  [new_proof] is not assigned
    on the first branch when proofs are off; it is not read then either. *)
Definition check_rule_fn (target : expr) (rule : rewrite_rule) : M (option (expr * expr)) :=
  let num := get_num_args rule in
  match hop_match K (get_lhs rule) target num with
  | Some subst0 =>
      let subst := subst_resize num subst0 in
      match found_all_args subst with
      | Some vals =>
          let new_rhs := instantiate K (get_rhs rule) vals in
          if is_permutation rule && negb (is_lt K new_rhs target false) then ret None
          else
            let new_proof :=
              if m_proofs_enabled cfg then
                if Nat.ltb 0 num then mk_app K (get_proof rule :: vals) else get_proof rule
              else null_expr in
            ret (Some (new_rhs, new_proof))
      | None =>
          r <- conditional_args subst (get_ceq rule)
                 (if m_proofs_enabled cfg then [get_proof rule] else []) ;;
          match r with
          | None => ret None
          | Some (ceq, proof_args) =>
              let new_proof := mk_app K proof_args in
              let new_rhs := arg ceq (num_args ceq - 1) in
              if is_permutation rule && negb (is_lt K new_rhs target false) then ret None
              else ret (Some (new_rhs, new_proof))
          end
      end
  | None => ret None
  end.

(** [rewrite_rule_set::find_match]: first rule accepted by the visitor. *)
Fixpoint find_match {X : Type} (rules : list rewrite_rule) (fn : rewrite_rule -> M (option X))
  : M (option X) :=
  match rules with
  | [] => ret None
  | rule :: rest =>
      x <- fn rule ;;
      match x with
      | Some v => ret (Some v)
      | None => find_match rest fn
      end
  end.

(** The traversal of all rule sets in [rewrite]. *)
Fixpoint rewrite_rule_sets (rss : list rewrite_rule_set) (target : expr)
  : M (option (expr * expr)) :=
  match rss with
  | [] => ret None
  | rs :: rest =>
      x <- find_match (rs_rules rs) (check_rule_fn target) ;;
      match x with
      | Some v => ret (Some v)
      | None => rewrite_rule_sets rest target
      end
  end.

Definition rewrite (lhs : expr) (rhs : result) : M result :=
  let target := m_out rhs in
  rss <- get_rule_sets ;;
  fired <- rewrite_rule_sets rss target ;;
  match fired with
  | Some (new_rhs, new_proof) =>
      ctx <- get_ctx ;;
      let new_r1 := mk_trans_result ctx lhs rhs new_rhs new_proof in
      if m_single_pass cfg then ret new_r1
      else
        new_r2 <- simp (m_out new_r1) ;;
        ctx <- get_ctx ;;
        ret (mk_trans_result_res ctx lhs new_r1 new_r2)
  | None =>
      if negb (m_single_pass cfg) && negb (expr_eqb lhs (m_out rhs)) then
        new_rhs <- simp (m_out rhs) ;;
        ctx <- get_ctx ;;
        ret (mk_trans_result_res ctx lhs rhs new_rhs)
      else ret rhs
  end.

Definition rewrite_app (lhs : expr) (rhs : result) : M result :=
  ctx <- get_ctx ;;
  let new_rhs := normalize K ctx (m_out rhs) in
  if evaluate_app (m_out rhs) && is_value new_rhs then
    rewrite lhs (mk_result new_rhs (m_proof rhs) (m_heq_proof rhs))
  else
    let f := arg (m_out rhs) 0 in
    if m_beta cfg && is_lambda f then
      rewrite lhs (mk_result (head_beta_reduce K (m_out rhs)) (m_proof rhs) (m_heq_proof rhs))
    else rewrite lhs rhs.

(** **** [simplify_app_default] *)

(** The local buffers and variables of [simplify_app_default]. *)
Record app_buffers : Type := mk_app_buffers {
  ab_new_args : list expr;
  ab_proofs : list (option expr);
  ab_f_types : list expr;
  ab_new_f_types : list expr;
  ab_heq_proofs : list bool;
  ab_changed : bool;
  ab_f_type : expr;
  ab_new_f_type : expr
}.

(** One iteration of the loop over the arguments [a = arg(e, i)], [i >= 1]. *)
Definition simplify_app_default_arg (a : expr) (b : app_buffers) : M app_buffers :=
  ctx <- get_ctx ;;
  let f_type := ensure_pi K ctx (ab_f_type b) in
  let f_arrow := is_arrow K f_type in
  '(res_a, changed) <-
     (if m_has_heq cfg || f_arrow then
        res_a <- simp a ;;
        ret (res_a, if negb (expr_eqb (m_out res_a) a) then true else ab_changed b)
      else ret (result_out a, ab_changed b)) ;;
  let new_a := m_out res_a in
  let new_args := ab_new_args b ++ [new_a] in
  if m_proofs_enabled cfg then
    let proofs := ab_proofs b ++ [m_proof res_a] in
    let heq_proofs := if m_has_heq cfg then ab_heq_proofs b ++ [m_heq_proof res_a]
                      else ab_heq_proofs b in
    let changed_f_type := negb (is_eqp K f_type (ab_new_f_type b)) in
    let '(f_type', new_f_type') :=
      if f_arrow then
        let ft := lower_free_vars K (abst_body f_type) 1 1 in
        (ft, if changed_f_type then lower_free_vars K (abst_body (ab_new_f_type b)) 1 1 else ft)
      else if is_eqp K a new_a then
        let ft := pi_body_at K f_type a in
        (ft, if changed_f_type then pi_body_at K (ab_new_f_type b) a else ft)
      else (pi_body_at K f_type a, pi_body_at K (ab_new_f_type b) new_a) in
    ret (mk_app_buffers new_args proofs (ab_f_types b ++ [f_type'])
           (ab_new_f_types b ++ [new_f_type']) heq_proofs changed f_type' new_f_type')
  else
    ret (mk_app_buffers new_args (ab_proofs b) (ab_f_types b) (ab_new_f_types b)
           (ab_heq_proofs b) changed f_type (ab_new_f_type b)).

Fixpoint simplify_app_default_args (l : list expr) (b : app_buffers) : M app_buffers :=
  match l with
  | [] => ret b
  | a :: rest =>
      b' <- simplify_app_default_arg a b ;;
      simplify_app_default_args rest b'
  end.

(** The construction of the cumulative congruence proof. *)
Inductive congr_proof : Type :=
| AllRefl
| Failed
| Built (pr : expr) (heq_proof : bool).

Fixpoint skip_refl (proofs : list (option expr)) (i : nat) : nat :=
  match proofs with
  | None :: rest => skip_refl rest (S i)
  | _ => i
  end.

Definition seed_proof (ctx : context) (e : expr) (b : app_buffers) (i : nat)
  : option (expr * bool) :=
  let f_types_prev := nth (i - 1) (ab_f_types b) null_expr in
  let new_args_i := nth i (ab_new_args b) null_expr in
  if Nat.eqb i 0 then
    Some (deref (nth 0 (ab_proofs b) None), m_has_heq cfg && nth 0 (ab_heq_proofs b) false)
  else if m_has_heq cfg && (nth i (ab_heq_proofs b) false || negb (is_arrow K f_types_prev)) then
    let f := mk_app_prefix i (ab_new_args b) in
    let pr_i := deref (nth i (ab_proofs b) None) in
    match mk_hcongr_th' ctx f_types_prev f_types_prev f f (arg e i) new_args_i
            (mk_hrefl_th K f_types_prev f) pr_i (nth i (ab_heq_proofs b) false) with
    | None => None
    | Some pr => Some (pr, true)
    end
  else
    let f := mk_app_prefix i (ab_new_args b) in
    Some (mk_congr2_th' ctx f_types_prev (arg e i) new_args_i f
            (deref (nth i (ab_proofs b) None)), false).

Definition extend_proof (ctx : context) (e : expr) (b : app_buffers) (i : nat)
           (acc : expr * bool) : option (expr * bool) :=
  let '(pr, heq_proof) := acc in
  let f := mk_app_prefix i (args e) in
  let new_f := mk_app_prefix i (ab_new_args b) in
  let f_types_prev := nth (i - 1) (ab_f_types b) null_expr in
  let new_f_types_prev := nth (i - 1) (ab_new_f_types b) null_expr in
  let new_args_i := nth i (ab_new_args b) null_expr in
  match nth i (ab_proofs b) None with
  | Some pr_i =>
      if m_has_heq cfg && nth i (ab_heq_proofs b) false then
        let pr := if negb heq_proof
                  then mk_to_heq_th K (nth i (ab_f_types b) null_expr) f new_f pr else pr in
        match mk_hcongr_th' ctx f_types_prev new_f_types_prev f new_f (arg e i) new_args_i
                pr pr_i true with
        | None => None
        | Some pr' => Some (pr', true)
        end
      else if heq_proof then
        match mk_hcongr_th' ctx f_types_prev new_f_types_prev f new_f (arg e i) new_args_i
                pr pr_i (nth i (ab_heq_proofs b) false) with
        | None => None
        | Some pr' => Some (pr', heq_proof)
        end
      else
        Some (mk_congr_th' ctx f_types_prev f new_f (arg e i) new_args_i pr pr_i, heq_proof)
  | None =>
      if heq_proof then
        match mk_hcongr_th' ctx f_types_prev new_f_types_prev f new_f (arg e i) (arg e i)
                pr (mk_refl_th K (infer_type K ctx (arg e i)) (arg e i)) false with
        | None => None
        | Some pr' => Some (pr', heq_proof)
        end
      else Some (mk_congr1_th' f_types_prev f new_f (arg e i) pr, heq_proof)
  end.

Fixpoint extend_proofs (ctx : context) (e : expr) (b : app_buffers) (idx : list nat)
         (acc : expr * bool) : option (expr * bool) :=
  match idx with
  | [] => Some acc
  | i :: rest =>
      match extend_proof ctx e b i acc with
      | None => None
      | Some acc' => extend_proofs ctx e b rest acc'
      end
  end.

Definition build_congr_proof (ctx : context) (e : expr) (b : app_buffers) : congr_proof :=
  let num := num_args e in
  let i := skip_refl (ab_proofs b) 0 in
  if Nat.eqb i num then AllRefl
  else
    match seed_proof ctx e b i with
    | None => Failed
    | Some acc =>
        match extend_proofs ctx e b (seq (S i) (num - S i)) acc with
        | None => Failed
        | Some (pr, heq_proof) => Built pr heq_proof
        end
    end.

Definition simplify_app_default (e : expr) : M result :=
  ctx <- get_ctx ;;
  let f := arg e 0 in
  let f_type := infer_type K ctx f in
  res_f <- simp f ;;
  ctx <- get_ctx ;;
  let new_f := m_out res_f in
  let changed := negb (expr_eqb new_f f) in
  let b0 :=
    if m_proofs_enabled cfg then
      let new_f_type := if m_heq_proof res_f then infer_type K ctx new_f else f_type in
      mk_app_buffers [new_f] [m_proof res_f] [f_type] [new_f_type]
        (if m_has_heq cfg then [m_heq_proof res_f] else []) changed f_type new_f_type
    else mk_app_buffers [new_f] [] [] [] [] changed f_type null_expr in
  b <- simplify_app_default_args (tl (args e)) b0 ;;
  if negb (ab_changed b) then rewrite_app e (result_out e)
  else if negb (m_proofs_enabled cfg) then rewrite_app e (result_out (mk_app K (ab_new_args b)))
  else
    ctx <- get_ctx ;;
    let out := mk_app K (ab_new_args b) in
    match build_congr_proof ctx e b with
    | AllRefl => rewrite_app e (result_out out)
    | Failed => rewrite_app e (result_out e)
    | Built pr heq_proof => rewrite_app e (result_pr out pr heq_proof)
    end.

(** **** [simplify_app_congr] *)

(** [new_args], [proof_args_buf] and [changed]; [proof_args] is the buffer
    from its second entry on. *)
Record congr_buffers : Type := mk_congr_buffers {
  cb_new_args : list expr;
  cb_proof_args_buf : list expr;
  cb_changed : bool
}.

Definition record_proof_args (info : app_arg_info) (buf : list expr) (a new_a pr : expr)
  : list expr :=
  buffer_set
    (buffer_set
       (buffer_set buf (S (get_pos_at_proof info)) a)
       (S (deref_pos (get_new_pos_at_proof info))) new_a)
    (S (deref_pos (get_proof_pos_at_proof info))) pr.

Definition mark_changed (pos : nat) (a : expr) (b : congr_buffers) : congr_buffers :=
  mk_congr_buffers (cb_new_args b) (cb_proof_args_buf b)
    (if negb (expr_eqb (nth pos (cb_new_args b) null_expr) a) then true else cb_changed b).

(** One iteration of the loop over [cg_thm.get_arg_info()].  [inl r] is an
    early [return r] (the fallback to [simplify_app_default], evaluated while
    the guards of the enclosing block are still alive). *)
Definition simplify_app_congr_arg (e : expr) (info : app_arg_info) (b : congr_buffers)
  : M (result + congr_buffers) :=
  let pos := get_arg_pos info in
  let a := arg e pos in
  if should_simplify info then
    r <-
      match get_context info with
      | None =>
          res_a <- simp a ;;
          let new_args := buffer_set (cb_new_args b) pos (m_out res_a) in
          if m_proofs_enabled cfg then
            ctx <- get_ctx ;;
            match ensure_homogeneous ctx a res_a with
            | None => r <- simplify_app_default e ;; ret (inl r)
            | Some res_a =>
                ret (inr (mk_congr_buffers new_args
                            (record_proof_args info (cb_proof_args_buf b) a
                               (nth pos new_args null_expr) (get_proof_of ctx res_a))
                            (cb_changed b)))
            end
          else ret (inr (mk_congr_buffers new_args (cb_proof_args_buf b) (cb_changed b)))
      | Some c =>
          let dep_pos := ctx_arg_pos c in
          let H := if use_new_val c then nth dep_pos (cb_new_args b) null_expr
                   else arg e dep_pos in
          let H := if negb (is_pos_dep c) then mk_not K H else H in
          if negb (m_proofs_enabled cfg) then
            res_a <- updt_rule_set K H null_expr (simp a) ;;
            ret (inr (mk_congr_buffers (buffer_set (cb_new_args b) pos (m_out res_a))
                        (cb_proof_args_buf b) (cb_changed b)))
          else
            depth0 <- get_contextual_depth ;;
            flet_depth (wrap32 (depth0 + 1))
              (depth <- get_contextual_depth ;;
               let H_proof := Constant (name_numeral g_unique depth) in
               updt_rule_set K H H_proof
                 (freset_cache
                    (res_a <- simp a ;;
                     ctx <- get_ctx ;;
                     match ensure_homogeneous ctx a res_a with
                     | None => r <- simplify_app_default e ;; ret (inl r)
                     | Some res_a =>
                         let new_args := buffer_set (cb_new_args b) pos (m_out res_a) in
                         let C_name := name_numeral g_C depth in
                         ret (inr (mk_congr_buffers new_args
                                     (record_proof_args info (cb_proof_args_buf b) a
                                        (nth pos new_args null_expr)
                                        (Lambda C_name H
                                           (abstract K (get_proof_of ctx res_a) H_proof)))
                                     (cb_changed b)))
                     end)))
      end ;;
    match r with
    | inl res => ret (inl res)
    | inr b' => ret (inr (mark_changed pos a b'))
    end
  else
    ret (inr (mk_congr_buffers
                (buffer_set (cb_new_args b) pos (arg e pos))
                (if m_proofs_enabled cfg
                 then buffer_set (cb_proof_args_buf b) (S (get_pos_at_proof info)) (arg e pos)
                 else cb_proof_args_buf b)
                (cb_changed b))).

Fixpoint simplify_app_congr_args (e : expr) (infos : list app_arg_info) (b : congr_buffers)
  : M (result + congr_buffers) :=
  match infos with
  | [] => ret (inr b)
  | info :: rest =>
      r <- simplify_app_congr_arg e info b ;;
      match r with
      | inl res => ret (inl res)
      | inr b' => simplify_app_congr_args e rest b'
      end
  end.

Definition simplify_app_congr (e : expr) (cg_thm : congr_theorem_info) : M result :=
  let new_args := buffer_set (repeat null_expr (num_args e)) 0 (arg e 0) in
  let proof_args_buf :=
    if m_proofs_enabled cfg
    then buffer_set (repeat null_expr (get_num_proof_args cg_thm + 1)) 0 (cg_proof cg_thm)
    else [] in
  r <- simplify_app_congr_args e (get_arg_info cg_thm)
         (mk_congr_buffers new_args proof_args_buf false) ;;
  match r with
  | inl res => ret res
  | inr b =>
      if negb (cb_changed b) then rewrite_app e (result_out e)
      else if negb (m_proofs_enabled cfg)
      then rewrite_app e (result_out (mk_app K (cb_new_args b)))
      else rewrite_app e (result_pr (mk_app K (cb_new_args b))
                            (mk_app K (cb_proof_args_buf b)) false)
  end.

(** **** [simplify_app] *)

Definition find_congr_thm (f : expr) : option congr_theorem_info :=
  find (fun congr_th => expr_eqb (get_fun congr_th) f) (m_congr_thms cfg).

Definition simplify_app (e : expr) : M result :=
  if m_has_cast cfg && is_cast K e then
    let A := arg e 1 in
    let B := arg e 2 in
    let a := arg e 4 in
    if m_proofs_enabled cfg then
      res_a <- simp a ;;
      let c := m_out res_a in
      match m_proof res_a with
      | Some Hac =>
          ctx <- get_ctx ;;
          let Hec :=
            if negb (m_heq_proof res_a) then
              mk_htrans_th K B A A e a c (update_app e 0 (mk_cast_heq_fn K))
                (mk_to_heq_th K B a c Hac)
            else
              mk_htrans_th K B A (infer_type K ctx c) e a c
                (update_app e 0 (mk_cast_heq_fn K)) Hac in
          ret (result_pr c Hec true)
      | None => ret (result_pr c (update_app e 0 (mk_cast_heq_fn K)) true)
      end
    else simp (arg e 4)
  else
    match (if m_contextual cfg then find_congr_thm (arg e 0) else None) with
    | Some congr_th => simplify_app_congr e congr_th
    | None => simplify_app_default e
    end.

(** **** Variables, constants, abstractions *)

Definition simplify_var (e : expr) : M result :=
  if m_has_heq cfg then ret (result_out e) else ret (result_out e).

(** [obj->...] on an empty [optional<object>] is [NullDeref]. *)
Definition simplify_constant (e : expr) : M result :=
  if m_unfold cfg || m_eval cfg then
    let obj := find_object K (const_name e) in
    if m_unfold cfg && should_unfold K obj then
      match obj with
      | None => throw NullDeref
      | Some o =>
          let e := get_value o in
          if m_single_pass cfg then ret (result_out e) else simp e
      end
    else if m_eval cfg then
      match obj with
      | None => throw NullDeref
      | Some o =>
          if is_builtin o then ret (result_out (get_value o))
          else rewrite e (result_out e)
      end
    else rewrite e (result_out e)
  else rewrite e (result_out e).

Definition rewrite_lambda (lhs : expr) (rhs : result) : M result :=
  ctx <- get_ctx ;;
  if m_eta cfg && is_eta_target (m_out rhs) then
    let b := abst_body (m_out rhs) in
    let new_rhs := if Nat.ltb 2 (num_args b) then mk_app K (removelast (args b))
                   else arg b 0 in
    let new_rhs := lower_free_vars K new_rhs 1 1 in
    let new_rhs_type := ensure_pi K ctx (infer_type K ctx new_rhs) in
    if is_definitionally_equal K ctx (abst_domain new_rhs_type) (abst_domain (m_out rhs)) then
      if m_proofs_enabled cfg then
        let new_proof := mk_eta_th K (abst_domain (m_out rhs))
                           (mk_lambda2 (m_out rhs) (abst_body new_rhs_type)) new_rhs in
        rewrite lhs (mk_trans_result ctx lhs rhs new_rhs new_proof)
      else rewrite lhs (result_out new_rhs)
    else rewrite lhs rhs
  else rewrite lhs rhs.

Definition simplify_lambda (e : expr) : M result :=
  if m_has_heq cfg then ret (result_out e)
  else
    ctx <- get_ctx ;;
    set_context (extend ctx (abst_name e) (abst_domain e))
      (res_body <- simp (abst_body e) ;;
       let new_body := m_out res_body in
       if is_eqp K new_body (abst_body e) then rewrite_lambda e (result_out e)
       else
         let out := mk_lambda2 e new_body in
         if negb (m_proofs_enabled cfg) || negb (has_proof res_body)
         then rewrite_lambda e (result_out out)
         else
           ctx <- get_ctx ;;
           let body_type := infer_type K ctx (abst_body e) in
           let pr := mk_funext_th K (abst_domain e) (mk_lambda2 e body_type) e out
                       (mk_lambda2 e (deref (m_proof res_body))) in
           rewrite_lambda e (result_pr out pr false)).

Definition simplify_pi (e : expr) : M result :=
  ctx <- get_ctx ;;
  if m_has_heq cfg then ret (result_out e)
  else if is_proposition K ctx e then
    set_context (extend ctx (abst_name e) (abst_domain e))
      (res_body <- simp (abst_body e) ;;
       let new_body := m_out res_body in
       if is_eqp K new_body (abst_body e) then rewrite e (result_out e)
       else
         let out := Pi (abst_name e) (abst_domain e) new_body in
         if negb (m_proofs_enabled cfg) || negb (has_proof res_body)
         then rewrite e (result_out out)
         else
           let pr := mk_allext_th K (abst_domain e)
                       (mk_lambda2 e (abst_body e))
                       (mk_lambda2 e (abst_body out))
                       (mk_lambda2 e (deref (m_proof res_body))) in
           rewrite e (result_pr out pr false))
  else ret (result_out e).

(** **** The driver *)

(** The [switch] of [simplify]. *)
Definition simplify_kind (e : expr) : M result :=
  match e with
  | Var _ => r <- simplify_var e ;; save e r
  | Constant _ => r <- simplify_constant e ;; save e r
  | TypeK | MetaVar _ | Value _ => save e (result_out e)
  | App _ => r <- simplify_app e ;; save e r
  | Lambda _ _ _ => r <- simplify_lambda e ;; save e r
  | Pi _ _ _ => r <- simplify_pi e ;; save e r
  | Let _ _ _ _ => r <- simp (instantiate K (let_body e) [let_value e]) ;; save e r
  end.

(** [simplify] after the step count: the cache, then the [switch]. *)
Definition simplify_lookup (e : expr) : M result :=
  if m_memoize cfg then
    let e := m_max_sharing e in
    cached <- lookup_cache e ;;
    match cached with
    | Some r => ret r
    | None => simplify_kind e
    end
  else simplify_kind e.

(** The body of [simplify] with the recursive calls left open. *)
Definition simplify_step (e : expr) : M result :=
  _ <- count_step ;;
  simplify_lookup e.

End Driver.

(** [simplify]: the recursion is cut after [fuel] nested calls. *)
Fixpoint simplify (fuel : nat) (e : expr) : M result :=
  match fuel with
  | O => throw OutOfFuel
  | S fuel' => simplify_step (simplify fuel') e
  end.

Definition reset_num_steps : M unit := fun s => (set_num_steps 0 s, Ret tt).

(** [simplifier_fn::operator()]. *)
Definition simplifier_call (fuel : nat) (e : expr) (ctx : context) : M (expr * expr) :=
  set_context ctx
    (_ <- reset_num_steps ;;
     r <- simplify fuel e ;;
     ctx <- get_ctx ;;
     ret (m_out r, get_proof_of ctx r)).

End Simplifier.

(** *** Construction *)

(** [collect_congr_thms]: the first congruence theorem of each head symbol. *)
Definition collect_congr_thms (contextual : bool) (rule_sets : list rewrite_rule_set)
  : list congr_theorem_info :=
  if contextual then
    fold_left
      (fun thms info =>
         if forallb (fun info2 => negb (expr_eqb (get_fun info2) (get_fun info))) thms
         then thms ++ [info] else thms)
      (List.concat (map rs_congr rule_sets)) []
  else [].

(** The rule sets of a fresh simplifier: a set of its own for contextual
    rewriting, when enabled, followed by copies of the caller's sets. *)
Definition initial_rule_sets (K : kernel) (contextual : bool) (rs : list rewrite_rule_set)
  : list rewrite_rule_set :=
  (if contextual then [empty_rule_set K] else []) ++ rs.

(** The constructor of [simplifier_fn], with [set_options]. *)
Definition mk_simplifier_fn (K : kernel) (o : options) (rs : list rewrite_rule_set)
  : config * state :=
  let contextual := get_simplifier_contextual o in
  let rule_sets := initial_rule_sets K contextual rs in
  (mk_config (imported K "heq") (imported K "cast")
     (collect_congr_thms contextual rule_sets)
     (get_simplifier_proofs o) contextual (get_simplifier_single_pass o)
     (get_simplifier_beta o) (get_simplifier_eta o) (get_simplifier_eval o)
     (get_simplifier_unfold o) (get_simplifier_conditional o)
     (get_simplifier_memoize o) (get_simplifier_max_steps o),
   mk_state [] rule_sets [] 0 0).

(** The public [simplify(e, env, ctx, opts, num_rs, rs)]. *)
Definition simplify_public (K : kernel) (fuel : nat) (e : expr) (ctx : context)
           (opts : options) (rs : list rewrite_rule_set) : state * outcome (expr * expr) :=
  let '(cfg, s) := mk_simplifier_fn K opts rs in
  simplifier_call K cfg fuel e ctx s.

(* ================================================================= *)
(** ** A small kernel

    An instance of the interface on which the simplifier can be run: terms
    substituted for variables are closed, types are not tracked, matching is
    first order.  It serves the concrete runs further down. *)

Module Toy.

Definition cst (s : string) : expr := Constant (name_string anonymous s).
Definition th (s : string) (l : list expr) : expr := App (cst s :: l).

(** [app_flat] merges an application in head position into the new node. *)
Definition app_flat (l : list expr) : expr :=
  match l with
  | App fs :: rest => App (fs ++ rest)
  | _ => App l
  end.

Fixpoint free_in (e : expr) (i : nat) : bool :=
  match e with
  | Var j => Nat.eqb j i
  | App l => existsb (fun a => free_in a i) l
  | Lambda _ d b | Pi _ d b => free_in d i || free_in b (S i)
  | Let _ t v b =>
      match t with Some t' => free_in t' i | None => false end
      || free_in v i || free_in b (S i)
  | _ => false
  end.

(** [Var j] with [s <= j] (counted from outside [k] binders) becomes [Var (j - d)]. *)
Fixpoint lower_at (k : nat) (e : expr) (s d : nat) : expr :=
  match e with
  | Var j => if Nat.leb (s + k) j then Var (j - d) else Var j
  | App l => App (map (fun a => lower_at k a s d) l)
  | Lambda n t b => Lambda n (lower_at k t s d) (lower_at (S k) b s d)
  | Pi n t b => Pi n (lower_at k t s d) (lower_at (S k) b s d)
  | Let n t v b =>
      Let n (match t with Some t' => Some (lower_at k t' s d) | None => None end)
        (lower_at k v s d) (lower_at (S k) b s d)
  | _ => e
  end.

(** The free variables [0 .. n-1] are replaced by [vals], variable [i] by
    entry [n - 1 - i]; the others are lowered by [n]. *)
Fixpoint instantiate_at (k : nat) (e : expr) (vals : list expr) : expr :=
  let n := List.length vals in
  match e with
  | Var j =>
      if Nat.ltb j k then Var j
      else if Nat.ltb (j - k) n then nth (n - 1 - (j - k)) vals null_expr
      else Var (j - n)
  | App l => app_flat (map (fun a => instantiate_at k a vals) l)
  | Lambda x t b => Lambda x (instantiate_at k t vals) (instantiate_at (S k) b vals)
  | Pi x t b => Pi x (instantiate_at k t vals) (instantiate_at (S k) b vals)
  | Let x t v b =>
      Let x (match t with Some t' => Some (instantiate_at k t' vals) | None => None end)
        (instantiate_at k v vals) (instantiate_at (S k) b vals)
  | _ => e
  end.

(** Occurrences of the closed term [s] become the variable bound outside. *)
Fixpoint abstract_at (k : nat) (e s : expr) : expr :=
  if expr_eqb e s then Var k
  else
    match e with
    | App l => App (map (fun a => abstract_at k a s) l)
    | Lambda x t b => Lambda x (abstract_at k t s) (abstract_at (S k) b s)
    | Pi x t b => Pi x (abstract_at k t s) (abstract_at (S k) b s)
    | Let x t v b =>
        Let x (match t with Some t' => Some (abstract_at k t' s) | None => None end)
          (abstract_at k v s) (abstract_at (S k) b s)
    | _ => e
    end.

Definition beta_head (e : expr) : expr :=
  match e with
  | App (Lambda _ _ b :: a :: rest) =>
      match rest with
      | [] => instantiate_at 0 b [a]
      | _ => app_flat (instantiate_at 0 b [a] :: rest)
      end
  | _ => e
  end.

Definition arrow (e : expr) : bool :=
  match e with
  | Pi _ _ b => negb (free_in b 0)
  | _ => false
  end.

(** First-order matching; the pattern variable [Var i], [i < num], is entry
    [num - 1 - i] of the substitution. *)
Fixpoint fo_match (num : nat) (p t : expr) (subst : list (option expr))
  : option (list (option expr)) :=
  match p with
  | Var i =>
      if Nat.ltb i num then
        match nth (num - 1 - i) subst None with
        | None => Some (buffer_set subst (num - 1 - i) (Some t))
        | Some t' => if expr_eqb t' t then Some subst else None
        end
      else if expr_eqb p t then Some subst else None
  | App ps =>
      match t with
      | App ts =>
          (fix go (ps ts : list expr) (subst : list (option expr)) :=
             match ps, ts with
             | [], [] => Some subst
             | p' :: ps', t' :: ts' =>
                 match fo_match num p' t' subst with
                 | Some subst' => go ps' ts' subst'
                 | None => None
                 end
             | _, _ => None
             end) ps ts subst
      | _ => None
      end
  | _ => if expr_eqb p t then Some subst else None
  end.

Definition match_rule (p t : expr) (num : nat) : option (list (option expr)) :=
  fo_match num p t (repeat None num).

(** A term order: constructor rank first, then the components. *)
Fixpoint name_cmp (a b : name) : comparison :=
  match a, b with
  | anonymous, anonymous => Eq
  | anonymous, _ => Lt
  | _, anonymous => Gt
  | name_string p s, name_string q t =>
      match name_cmp p q with Eq => String.compare s t | c => c end
  | name_string _ _, name_numeral _ _ => Lt
  | name_numeral _ _, name_string _ _ => Gt
  | name_numeral p k, name_numeral q j =>
      match name_cmp p q with Eq => Z.compare k j | c => c end
  end.

Definition kind_rank (e : expr) : nat :=
  match e with
  | Var _ => 0 | Constant _ => 1 | TypeK => 2 | MetaVar _ => 3 | Value _ => 4
  | App _ => 5 | Lambda _ _ _ => 6 | Pi _ _ _ => 7 | Let _ _ _ _ => 8
  end%nat.

Fixpoint expr_cmp (a b : expr) : comparison :=
  match a, b with
  | Var i, Var j => Nat.compare i j
  | Constant n, Constant m => name_cmp n m
  | MetaVar n, MetaVar m => name_cmp n m
  | Value v, Value w => Z.compare v w
  | App xs, App ys =>
      (fix go (l1 l2 : list expr) : comparison :=
         match l1, l2 with
         | [], [] => Eq
         | [], _ => Lt
         | _, [] => Gt
         | x :: l1', y :: l2' =>
             match expr_cmp x y with Eq => go l1' l2' | c => c end
         end) xs ys
  | Lambda _ d1 b1, Lambda _ d2 b2 =>
      match expr_cmp d1 d2 with Eq => expr_cmp b1 b2 | c => c end
  | Pi _ d1 b1, Pi _ d2 b2 =>
      match expr_cmp d1 d2 with Eq => expr_cmp b1 b2 | c => c end
  | Let _ _ v1 b1, Let _ _ v2 b2 =>
      match expr_cmp v1 v2 with Eq => expr_cmp b1 b2 | c => c end
  | _, _ => Nat.compare (kind_rank a) (kind_rank b)
  end.

Definition term_lt (a b : expr) (use_hash : bool) : bool :=
  match expr_cmp a b with Lt => true | _ => false end.

Definition is_head (s : string) (n : nat) (e : expr) : bool :=
  match e with
  | App (f :: rest) => expr_eqb f (cst s) && Nat.eqb (List.length rest) n
  | _ => false
  end.

Definition prop_in (props : list expr) (e : expr) : bool :=
  existsb (expr_eqb e) props || is_head "eq" 3 e || is_head "not" 1 e.

(** The evaluator knows addition of values. *)
Definition eval_add (e : expr) : expr :=
  match e with
  | App [f; Value a; Value b] => if expr_eqb f (cst "add") then Value (a + b) else e
  | _ => e
  end.

(** The rules a fact gives: an equation is oriented left to right, a negation
    rewrites its body to [false], anything else rewrites to [true]. *)
Definition rules_of_fact (ns : name) (fact proof : expr) : list rewrite_rule :=
  match fact with
  | App [f; A; l; r] =>
      if expr_eqb f (cst "eq") then [mk_rewrite_rule l r fact proof 0 false]
      else [mk_rewrite_rule fact (cst "true") (th "eq" [cst "Bool"; fact; cst "true"])
              (th "eqt_intro" [fact; proof]) 0 false]
  | App [f; P] =>
      if expr_eqb f (cst "not")
      then [mk_rewrite_rule P (cst "false") (th "eq" [cst "Bool"; P; cst "false"])
              (th "eqf_intro" [P; proof]) 0 false]
      else [mk_rewrite_rule fact (cst "true") (th "eq" [cst "Bool"; fact; cst "true"])
              (th "eqt_intro" [fact; proof]) 0 false]
  | _ => [mk_rewrite_rule fact (cst "true") (th "eq" [cst "Bool"; fact; cst "true"])
            (th "eqt_intro" [fact; proof]) 0 false]
  end.

Definition unfoldable (o : option object) : bool :=
  match o with Some ob => negb (is_builtin ob) | None => false end.

(** The kernel over an environment given by its imports, its objects, the
    types of its constants and its propositions. *)
Definition kernel_of (imports : string -> bool) (objs : name -> option object)
           (types : expr -> expr) (props : list expr) : kernel :=
  {| infer_type := fun _ e => types e;
     ensure_pi := fun _ e => e;
     is_proposition := fun _ e => prop_in props e;
     is_convertible := fun _ a b => expr_eqb a b;
     is_definitionally_equal := fun _ a b => expr_eqb a b;
     normalize := fun _ e => eval_add e;
     mk_app := app_flat;
     is_eqp := expr_eqb;
     is_arrow := arrow;
     instantiate := fun e vals => instantiate_at 0 e vals;
     lower_free_vars := fun e s d => lower_at 0 e s d;
     abstract := fun e s => abstract_at 0 e s;
     has_free_var := free_in;
     head_beta_reduce := beta_head;
     pi_body_at := fun f_type a => instantiate_at 0 (abst_body f_type) [a];
     hop_match := match_rule;
     is_lt := term_lt;
     find_object := objs;
     should_unfold := unfoldable;
     imported := imports;
     empty_rule_set := mk_rewrite_rule_set [] [];
     to_rules := rules_of_fact;
     interrupt_requested := fun _ => false;
     True_ := cst "true";
     mk_trivial := cst "trivial";
     mk_cast_heq_fn := cst "cast_heq";
     mk_not := fun a => th "not" [a];
     mk_eq := fun A a b => th "eq" [A; a; b];
     is_eq := is_head "eq" 3;
     is_neq := is_head "neq" 3;
     is_heq := is_head "heq" 4;
     is_cast := is_head "cast" 4;
     mk_refl_th := fun A a => th "refl" [A; a];
     mk_hrefl_th := fun A a => th "hrefl" [A; a];
     mk_trans_th := fun A a b c H1 H2 => th "trans" [A; a; b; c; H1; H2];
     mk_htrans_th := fun A B C a b c H1 H2 => th "htrans" [A; B; C; a; b; c; H1; H2];
     mk_subst_th := fun A a b P H1 H2 => th "subst" [A; a; b; P; H1; H2];
     mk_congr1_th := fun A B f g a H => th "congr1" [A; B; f; g; a; H];
     mk_congr2_th := fun A B a b f H => th "congr2" [A; B; a; b; f; H];
     mk_congr_th := fun A B f g a b H1 H2 => th "congr" [A; B; f; g; a; b; H1; H2];
     mk_hcongr_th := fun A A' B B' f f' a a' H1 H2 =>
                       th "hcongr" [A; A'; B; B'; f; f'; a; a'; H1; H2];
     mk_to_eq_th := fun A a b H => th "to_eq" [A; a; b; H];
     mk_to_heq_th := fun A a b H => th "to_heq" [A; a; b; H];
     mk_eqt_elim_th := fun a H => th "eqt_elim" [a; H];
     mk_eta_th := fun A B f => th "eta" [A; B; f];
     mk_funext_th := fun A B f g H => th "funext" [A; B; f; g; H];
     mk_allext_th := fun A P Q H => th "allext" [A; P; Q; H] |}.

End Toy.

(* ================================================================= *)
(** ** Specifications of computations *)

(** [hoare I phi IE m]: started in a state satisfying [I], the computation
    [m] either returns a value satisfying [phi] in a state satisfying [I], or
    leaves by an exception [x] in a state [s'] with [IE s' x]. *)
Definition post {A : Type} (I : state -> Prop) (phi : A -> Prop)
           (IE : state -> exn -> Prop) (r : state * outcome A) : Prop :=
  match snd r with
  | Ret a => I (fst r) /\ phi a
  | Err x => IE (fst r) x
  end.

Definition hoare {A : Type} (I : state -> Prop) (phi : A -> Prop)
           (IE : state -> exn -> Prop) (m : M A) : Prop :=
  forall s, I s -> post I phi IE (m s).

(** A result without proof term and without heterogeneous flag. *)
Definition proofless (r : result) : Prop :=
  m_proof r = None /\ m_heq_proof r = false.

Definition cache_proofless (s : state) : Prop :=
  Forall (fun kv => proofless (snd kv)) (m_cache s).

(** An early return of the congruence loop carries a proofless result. *)
Definition early_proofless (r : result + congr_buffers) : Prop :=
  match r with inl res => proofless res | inr _ => True end.

(** No constraint on the exception that leaves a computation. *)
Definition any_exn : state -> exn -> Prop := fun _ _ => True.



(** The step counter lies between [k] and the bound. *)
Definition steps_within (cfg : config) (k : Z) (s : state) : Prop :=
  0 <= m_num_steps s /\ k <= m_num_steps s /\ m_num_steps s <= m_max_steps cfg.

(** The members a scoped guard puts back. *)
Definition same_frame (s s' : state) : Prop :=
  m_rule_sets s' = m_rule_sets s /\
  m_ctx s' = m_ctx s /\
  m_contextual_depth s' = m_contextual_depth s.

Definition frames {A : Type} (m : M A) : Prop :=
  forall s, same_frame s (fst (m s)).

(** [m_conditional] replaced in a configuration. *)
Definition set_conditional (b : bool) (cfg : config) : config :=
  mk_config (m_has_heq cfg) (m_has_cast cfg) (m_congr_thms cfg) (m_proofs_enabled cfg)
    (m_contextual cfg) (m_single_pass cfg) (m_beta cfg) (m_eta cfg) (m_eval cfg)
    (m_unfold cfg) b (m_memoize cfg) (m_max_steps cfg).

(** A heterogeneous flag is backed by a proof term, and it is only raised
    when [heq] or [cast] is imported. *)
Definition flag_ok (cfg : config) (r : result) : Prop :=
  m_heq_proof r = true ->
  m_proof r <> None /\ (m_has_heq cfg || m_has_cast cfg = true).

Definition cache_flag_ok (cfg : config) (s : state) : Prop :=
  Forall (fun kv => flag_ok cfg (snd kv)) (m_cache s).

Definition early_flag_ok (cfg : config) (r : result + congr_buffers) : Prop :=
  match r with inl res => flag_ok cfg res | inr _ => True end.

(** The kinds the [switch] of [simplify] hands to [save] as they are, and
    variables. *)
Definition is_atom (e : expr) : bool :=
  match e with
  | Var _ | TypeK | MetaVar _ | Value _ => true
  | _ => false
  end.

(** No rule of the rule sets has a left-hand side that matches the target. *)
Definition no_match (K : kernel) (rss : list rewrite_rule_set) (target : expr) : Prop :=
  forall rs rule,
    In rs rss -> In rule (rs_rules rs) ->
    hop_match K (get_lhs rule) target (get_num_args rule) = None.

Definition no_matchb (K : kernel) (rss : list rewrite_rule_set) (target : expr) : bool :=
  forallb (fun rs =>
             forallb (fun rule =>
                        match hop_match K (get_lhs rule) target (get_num_args rule) with
                        | None => true
                        | Some _ => false
                        end) (rs_rules rs)) rss.

(** [m] hands the cache back as it found it. *)
Definition keeps_cache {A : Type} (m : M A) : Prop :=
  forall s, m_cache (fst (m s)) = m_cache s.

(** The outcome of [m] does not depend on the cache it is started with. *)
Definition cache_blind {A : Type} (m : M A) : Prop :=
  forall s outer, snd (m (set_cache outer s)) = snd (m s).

(** The test of the loop over [m_congr_thms] in [simplify_app], and the
    visitor of [collect_congr_thms]. *)
Definition same_head (f : expr) (c : congr_theorem_info) : bool := expr_eqb (get_fun c) f.

Definition collect_step (thms : list congr_theorem_info) (info : congr_theorem_info)
  : list congr_theorem_info :=
  if forallb (fun info2 => negb (expr_eqb (get_fun info2) (get_fun info))) thms
  then thms ++ [info] else thms.

(** A new argument paired with the argument it replaces. *)
Definition differs (p : expr * expr) : bool := negb (expr_eqb (fst p) (snd p)).

(** An entry of [proofs] that stands for reflexivity. *)
Definition is_refl (p : option expr) : bool :=
  match p with None => true | Some _ => false end.

(** No [Let] among the subterms the driver visits: the arguments of an
    application and the body of an abstraction. *)
Fixpoint let_free (e : expr) : bool :=
  match e with
  | App l =>
      (fix all (l : list expr) : bool :=
         match l with
         | [] => true
         | x :: l' => let_free x && all l'
         end) l
  | Lambda _ _ b | Pi _ _ b => let_free b
  | Let _ _ _ _ => false
  | _ => true
  end.

(** A measure of the subterms the driver visits. *)
Fixpoint visit_size (e : expr) : nat :=
  match e with
  | App l =>
      S (S ((fix sum (l : list expr) : nat :=
               match l with
               | [] => O
               | x :: l' => (visit_size x + sum l')%nat
               end) l))
  | Lambda _ _ b | Pi _ _ b => S (visit_size b)
  | _ => 1%nat
  end.

(** A result that is its input again, without a proof. *)
Definition idle_result (e : expr) (r : result) : Prop :=
  m_proof r = None /\ m_heq_proof r = false /\ expr_eqb (m_out r) e = true.

(** Rule sets without rules, and a cache of such results. *)
Definition idle_state (s : state) : Prop :=
  Forall (fun rs => rs_rules rs = []) (m_rule_sets s) /\
  Forall (fun kv => idle_result (fst kv) (snd kv)) (m_cache s).

(** No exception leaves the computation. *)
Definition never : state -> exn -> Prop := fun _ _ => False.

(* ================================================================= *)
(** ** Inputs of the concrete runs *)

Module Examples.

Import Toy.
Open Scope string_scope.

Definition nm (s : string) : name := name_string anonymous s.

(** Every constant is declared, as an object that is not a builtin. *)
Definition declared : name -> option object :=
  fun n => Some (mk_object (Constant n) false).

(** An environment without [heq] and [cast]; [q] and [true] are propositions. *)
Definition K_plain : kernel :=
  kernel_of (fun _ => false) declared (fun _ => cst "T") [cst "q"; cst "true"].

(** The same environment with [cast] imported. *)
Definition K_cast : kernel :=
  kernel_of (fun s => String.eqb s "cast") declared (fun _ => cst "T") [cst "q"; cst "true"].

(** An environment in which no constant is declared. *)
Definition K_empty : kernel :=
  kernel_of (fun _ => false) (fun _ => None) (fun _ => cst "T") [].

(** The rule [q = true] and the conditional rule [q -> a = b]. *)
Definition rule_q : rewrite_rule :=
  mk_rewrite_rule (cst "q") (cst "true") (th "eq" [cst "Bool"; cst "q"; cst "true"])
    (cst "Hq") 0 false.

Definition rule_cond : rewrite_rule :=
  mk_rewrite_rule (cst "a") (cst "b")
    (Pi (nm "h") (cst "q") (th "eq" [cst "T"; cst "a"; cst "b"])) (cst "Hab") 1 false.

Definition rs_cond : rewrite_rule_set := mk_rewrite_rule_set [rule_q; rule_cond] [].

Definition opts_conditional_off : options := [(g_simplifier_conditional, BoolVal false)].
Definition opts_proofs_off : options := [(g_simplifier_proofs, BoolVal false)].
Definition opts_proofs_memoize_off : options :=
  [(g_simplifier_proofs, BoolVal false); (g_simplifier_memoize, BoolVal false)].
Definition opts_max_steps_10 : options := [(g_simplifier_max_steps, UnsignedVal 10)].

(** A congruence theorem for [F]: the first argument is simplified as it
    is, the second one under the hypothesis that the first argument holds. *)
Definition cg_F : congr_theorem_info :=
  mk_congr_theorem_info (cst "F") (cst "F_congr") 6
    [ mk_app_arg_info 1 true None 0 (Some 1%nat) (Some 2%nat);
      mk_app_arg_info 2 true (Some (mk_congr_context 1 false true)) 3
        (Some 4%nat) (Some 5%nat) ].

Definition rs_F : rewrite_rule_set := mk_rewrite_rule_set [] [cg_F].

Definition F_p_p : expr := App [cst "F"; cst "p"; cst "p"].
Definition F_p_true : expr := App [cst "F"; cst "p"; cst "true"].

(** Commutativity of [add], a permutation rule. *)
Definition rule_comm : rewrite_rule :=
  mk_rewrite_rule (App [cst "add"; Var 1; Var 0]) (App [cst "add"; Var 0; Var 1])
    (Pi (nm "x") (cst "Nat") (Pi (nm "y") (cst "Nat")
       (th "eq" [cst "Nat"; App [cst "add"; Var 1; Var 0]; App [cst "add"; Var 0; Var 1]])))
    (cst "add_comm") 2 true.

Definition add_a_b : expr := App [cst "add"; cst "a"; cst "b"].
Definition add_b_a : expr := App [cst "add"; cst "b"; cst "a"].

(** A rule that rewrites [a] to itself. *)
Definition rule_loop : rewrite_rule :=
  mk_rewrite_rule (cst "a") (cst "a") (th "eq" [cst "T"; cst "a"; cst "a"]) (cst "Haa") 0 false.

Definition rs_loop : rewrite_rule_set := mk_rewrite_rule_set [rule_loop] [].

Definition add_1_2 : expr := App [cst "add"; Value 1; Value 2].
Definition let_x_1 : expr := Let (nm "x") None (Value 1) (App [cst "add"; Var 0; Value 2]).

(** [cast A B H (add 1 2)] and a rule whose left-hand side is that term. *)
Definition cast_term : expr := App [cst "cast"; cst "A"; cst "B"; cst "H"; add_1_2].

Definition rule_cast : rewrite_rule :=
  mk_rewrite_rule cast_term (cst "zero") (th "eq" [cst "B"; cast_term; cst "zero"])
    (cst "Hcast") 0 false.

Definition rs_cast : rewrite_rule_set := mk_rewrite_rule_set [rule_cast] [].

(** A function type [A -> B -> C] and a dependent one. *)
Definition arrow_type : expr := Pi (nm "x") (cst "A") (cst "B").
Definition dependent_type : expr := Pi (nm "x") (cst "A") (App [cst "B"; Var 0]).

(** An environment in which [f : A -> forall y : B, C y]. *)
Definition f_dependent_type : expr :=
  Pi (nm "x") (cst "A") (Pi (nm "y") (cst "B") (App [cst "C"; Var 0])).

Definition K_dependent : kernel :=
  kernel_of (fun _ => false) declared
    (fun e => if expr_eqb e (cst "f") then f_dependent_type else cst "T")
    [cst "q"; cst "true"].

Definition rule_b : rewrite_rule :=
  mk_rewrite_rule (cst "b") (cst "b2") (th "eq" [cst "B"; cst "b"; cst "b2"]) (cst "Hb") 0 false.

Definition rs_b : rewrite_rule_set := mk_rewrite_rule_set [rule_b] [].

Definition f_a_b : expr := App [cst "f"; cst "a"; cst "b"].
Definition f_a_b2 : expr := App [cst "f"; cst "a"; cst "b2"].

Definition empty_buffers (f_type : expr) : app_buffers :=
  mk_app_buffers [cst "f"] [] [] [] [] false f_type null_expr.

Definition state0 (K : kernel) (o : options) (rs : list rewrite_rule_set) : state :=
  snd (mk_simplifier_fn K o rs).
Definition config0 (K : kernel) (o : options) (rs : list rewrite_rule_set) : config :=
  fst (mk_simplifier_fn K o rs).

End Examples.

(** Further inputs: the second argument of [cg_F] with the buffers
    [simplify_app_congr] starts from, the buffers of [simplify_app_default]
    for a binary [f], and results of the runs. *)
Module Runs.

Import Toy.
Import Examples.
Open Scope string_scope.

Definition opts_eval_off : options := [(g_simplifier_eval, BoolVal false)].

Definition info_F2 : app_arg_info :=
  mk_app_arg_info 2 true (Some (mk_congr_context 1 false true)) 3 (Some 4%nat) (Some 5%nat).

Definition buffers_F : congr_buffers :=
  mk_congr_buffers [cst "F"; cst "p"; null_expr] (repeat null_expr 7) false.

Definition outer_cache : cache := [(cst "p", result_out (cst "p"))].

Definition binary_type : expr := Pi (nm "x") (cst "A") arrow_type.

Definition buffers_f : app_buffers :=
  mk_app_buffers [cst "f"] [None] [binary_type] [binary_type] [] false binary_type binary_type.

Definition buffers_f_a_b2 : app_buffers :=
  mk_app_buffers [cst "f"; cst "a"; cst "b2"] [None; None; Some (cst "Hb")]
    [binary_type; arrow_type; cst "B"] [binary_type; arrow_type; cst "B"] [] true
    (cst "B") (cst "B").

Definition Hab_proof : expr := App [cst "Hab"; App [cst "eqt_elim"; cst "q"; cst "Hq"]].

Definition b_from_a : result := result_pr (cst "b") Hab_proof false.

Definition three_from_cast : result :=
  result_pr (Value 3) (App [cst "cast_heq"; cst "A"; cst "B"; cst "H"; add_1_2]) true.

Definition opts_idle : options :=
  [(g_simplifier_eval, BoolVal false); (g_simplifier_beta, BoolVal false);
   (g_simplifier_eta, BoolVal false)].

Definition fun_f_x_a : expr := Lambda (nm "x") (cst "A") (App [cst "f"; Var 0; cst "a"]).

(** An environment in which [g : forall x : A, B x -> C]: the first position
    is dependent, the second one an arrow. *)
Definition g_dependent_type : expr :=
  Pi (nm "x") (cst "A") (Pi (nm "y") (App [cst "B"; Var 0]) (cst "C")).

Definition K_dependent_first : kernel :=
  kernel_of (fun _ => false) declared
    (fun e => if expr_eqb e (cst "g") then g_dependent_type else cst "T")
    [cst "q"; cst "true"].

Definition g_a_b : expr := App [cst "g"; cst "a"; cst "b"].
Definition g_a_b2 : expr := App [cst "g"; cst "a"; cst "b2"].

End Runs.

(* ================================================================= *)
(** ** Rules for [hoare] *)

Section HoareRules.

Context {A B : Type}.
Variable I : state -> Prop.
Variable IE : state -> exn -> Prop.

Lemma hoare_ret (phi : A -> Prop) (a : A) : phi a -> hoare I phi IE (ret a).
Proof. intros Ha s Hs. unfold post, ret. simpl. auto. Qed.

Lemma hoare_throw (phi : A -> Prop) (x : exn) :
  (forall s, I s -> IE s x) -> hoare I phi IE (throw x).
Proof. intros Hx s Hs. unfold post, throw. simpl. auto. Qed.

Lemma hoare_bind (phi : B -> Prop) (m : M A) (k : A -> M B) :
  hoare I (fun a => hoare I phi IE (k a)) IE m -> hoare I phi IE (bind m k).
Proof.
  intros Hm s Hs. specialize (Hm s Hs). unfold post, bind in *.
  destruct (m s) as [s' [a | x]]; simpl in *.
  - destruct Hm as [Hs' Hk]. apply Hk. exact Hs'.
  - exact Hm.
Qed.

Lemma hoare_conseq (phi psi : A -> Prop) (m : M A) :
  hoare I phi IE m -> (forall a, phi a -> psi a) -> hoare I psi IE m.
Proof.
  intros Hm Himp s Hs. specialize (Hm s Hs). unfold post in *.
  destruct (m s) as [s' [a | x]]; simpl in *; intuition.
Qed.

(** A computation that reads the state. *)
Lemma hoare_read (phi : A -> Prop) (f : state -> A) :
  (forall s, I s -> phi (f s)) -> hoare I phi IE (fun s => (s, Ret (f s))).
Proof. intros Hf s Hs. unfold post. simpl. auto. Qed.

End HoareRules.

(** Guards, for an invariant that does not look at the guarded member. *)
Section HoareGuards.

Context {A : Type}.
Variable I : state -> Prop.
Variable IE : state -> exn -> Prop.
Variable phi : A -> Prop.

Hypothesis I_ctx : forall c s, I s -> I (set_ctx c s).
Hypothesis I_depth : forall d s, I s -> I (set_contextual_depth d s).
Hypothesis I_rule_sets : forall r s, I s -> I (set_rule_sets r s).
Hypothesis I_cache_reset : forall s, I s -> I (set_cache [] s).
Hypothesis I_cache_restore : forall s0 s, I s0 -> I s -> I (set_cache (m_cache s0) s).
Hypothesis IE_ctx : forall c s x, IE s x -> IE (set_ctx c s) x.
Hypothesis IE_depth : forall d s x, IE s x -> IE (set_contextual_depth d s) x.
Hypothesis IE_rule_sets : forall r s x, IE s x -> IE (set_rule_sets r s) x.
Hypothesis IE_cache : forall c s x, IE s x -> IE (set_cache c s) x.

Lemma hoare_flet_ctx (c : context) (m : M A) :
  hoare I phi IE m -> hoare I phi IE (flet_ctx c m).
Proof.
  intros Hm s Hs. unfold flet_ctx. specialize (Hm (set_ctx c s) (I_ctx c s Hs)).
  unfold post in *. destruct (m (set_ctx c s)) as [s' [a | x]]; simpl in *.
  - destruct Hm; split; auto.
  - auto.
Qed.

Lemma hoare_flet_depth (d : Z) (m : M A) :
  hoare I phi IE m -> hoare I phi IE (flet_depth d m).
Proof.
  intros Hm s Hs. unfold flet_depth.
  specialize (Hm (set_contextual_depth d s) (I_depth d s Hs)).
  unfold post in *. destruct (m (set_contextual_depth d s)) as [s' [a | x]]; simpl in *.
  - destruct Hm; split; auto.
  - auto.
Qed.

Lemma hoare_freset_cache (m : M A) :
  hoare I phi IE m -> hoare I phi IE (freset_cache m).
Proof.
  intros Hm s Hs. unfold freset_cache.
  specialize (Hm (set_cache [] s) (I_cache_reset s Hs)).
  unfold post in *. destruct (m (set_cache [] s)) as [s' [a | x]]; simpl in *.
  - destruct Hm; split; auto.
  - auto.
Qed.

Lemma hoare_set_context (c : context) (m : M A) :
  hoare I phi IE m -> hoare I phi IE (set_context c m).
Proof. intros Hm. unfold set_context. apply hoare_flet_ctx, hoare_freset_cache, Hm. Qed.

Lemma hoare_updt_rule_set (K : kernel) (fact proof : expr) (m : M A) :
  hoare I phi IE m -> hoare I phi IE (updt_rule_set K fact proof m).
Proof.
  intros Hm s Hs. unfold updt_rule_set.
  destruct (m_rule_sets s) as [| m_old rest] eqn:Hrs.
  - apply Hm, Hs.
  - match goal with |- context [m ?s1] =>
      specialize (Hm s1 (I_rule_sets _ s Hs)); destruct (m s1) as [s' [a | x]]
    end; unfold post in *; simpl in *.
    + destruct Hm; split; auto.
    + auto.
Qed.

End HoareGuards.

(** One step through the structure of a computation; [leaf] proves the
    specification of a call. *)
Ltac hoare_step leaf :=
  cbn [negb andb orb]; cbv beta iota zeta;
  lazymatch goal with
  | |- hoare _ _ _ (bind _ _) => apply hoare_bind
  | |- hoare _ _ _ (ret _) => apply hoare_ret
  | |- hoare _ _ _ (match ?x with _ => _ end) => destruct x eqn:?
  | |- hoare _ _ _ _ => eapply hoare_conseq; [ solve [leaf] | intros ]
  end.

Create HintDb p3.
Create HintDb ex.
Create HintDb fl.

Ltac hoare_steps scoped leaf :=
  repeat first [ scoped | hoare_step leaf ].

(* ================================================================= *)
(** ** Proof elision: with proofs off no result carries a proof *)

Section Proofless.

Variable K : kernel.
Variable cfg : config.
Hypothesis Hoff : m_proofs_enabled cfg = false.

Lemma proofless_result_out (e : expr) : proofless (result_out e).
Proof. split; reflexivity. Qed.

Lemma proofless_retarget (r : result) (e : expr) :
  proofless r -> proofless (mk_result e (m_proof r) (m_heq_proof r)).
Proof. intros [H1 H2]. split; assumption. Qed.

Lemma mk_trans_result_off (ctx : context) (a : expr) (b : result) (c H : expr) :
  mk_trans_result K cfg ctx a b c H = result_out c.
Proof. unfold mk_trans_result. rewrite Hoff. reflexivity. Qed.

Lemma mk_trans_result_res_off (ctx : context) (a : expr) (b c : result) :
  mk_trans_result_res K cfg ctx a b c = c.
Proof. unfold mk_trans_result_res. rewrite Hoff. reflexivity. Qed.

Lemma p3_set_context {A : Type} (phi : A -> Prop) (c : context) (m : M A) :
  hoare cache_proofless phi any_exn m -> hoare cache_proofless phi any_exn (set_context c m).
Proof.
  apply hoare_set_context; unfold cache_proofless, any_exn; simpl; auto.
Qed.

Lemma p3_updt_rule_set {A : Type} (phi : A -> Prop) (fact proof : expr) (m : M A) :
  hoare cache_proofless phi any_exn m ->
  hoare cache_proofless phi any_exn (updt_rule_set K fact proof m).
Proof.
  apply hoare_updt_rule_set; unfold cache_proofless, any_exn; simpl; auto.
Qed.

Lemma p3_get_ctx : hoare cache_proofless (fun _ => True) any_exn get_ctx.
Proof. apply hoare_read. auto. Qed.

Lemma p3_get_rule_sets : hoare cache_proofless (fun _ => True) any_exn get_rule_sets.
Proof. apply hoare_read. auto. Qed.

Lemma cache_find_proofless (c : cache) (e : expr) :
  Forall (fun kv => proofless (snd kv)) c ->
  match cache_find c e with Some r => proofless r | None => True end.
Proof.
  induction c as [| [k r] c IH]; simpl; intros Hc; [exact Logic.I |].
  inversion Hc; subst. simpl in *.
  destruct (expr_eqb k e); [assumption | apply IH; assumption].
Qed.

Lemma p3_lookup_cache (e : expr) :
  hoare cache_proofless
    (fun o => match o with Some r => proofless r | None => True end) any_exn (lookup_cache e).
Proof.
  apply hoare_read. intros s Hs. apply cache_find_proofless, Hs.
Qed.

Lemma p3_save (e : expr) (r : result) :
  proofless r -> hoare cache_proofless proofless any_exn (save cfg e r).
Proof.
  intros Hr. unfold save. destruct (m_memoize cfg).
  - intros s Hs. unfold post, cache_proofless in *. simpl. split.
    + unfold cache_insert. destruct (cache_find (m_cache s) e); auto.
    + apply proofless_retarget, Hr.
  - apply hoare_ret, Hr.
Qed.

Lemma p3_count_step : hoare cache_proofless (fun _ => True) any_exn (count_step K cfg).
Proof.
  intros s Hs. unfold count_step, post.
  destruct (interrupt_requested K (m_num_steps s)); simpl; [exact Logic.I |].
  match goal with |- context [if ?b then _ else _] => destruct b end; simpl; auto.
  exact Logic.I.
Qed.

#[local] Hint Resolve proofless_result_out proofless_retarget p3_get_ctx p3_get_rule_sets
  p3_lookup_cache p3_save p3_count_step : p3.

Ltac p3_guard :=
  first [ apply p3_set_context | apply p3_updt_rule_set ].

Ltac p3_leaf := eauto with p3.

Ltac p3 := rewrite ?Hoff; hoare_steps p3_guard p3_leaf; auto with p3.

Section Driver.

Variable simp : expr -> M result.
Hypothesis Hsimp : forall e, hoare cache_proofless proofless any_exn (simp e).

#[local] Hint Resolve Hsimp : p3.

Lemma p3_conditional_args (subst : list (option expr)) :
  forall ceq proof_args,
    hoare cache_proofless (fun _ => True) any_exn
      (conditional_args K cfg simp subst ceq proof_args).
Proof.
  induction subst as [| [v |] rest IH]; intros ceq proof_args; simpl.
  - apply hoare_ret. exact Logic.I.
  - apply IH.
  - p3.
Qed.

#[local] Hint Resolve p3_conditional_args : p3.

Lemma p3_check_rule_fn (target : expr) (rule : rewrite_rule) :
  hoare cache_proofless (fun _ => True) any_exn (check_rule_fn K cfg simp target rule).
Proof. unfold check_rule_fn. p3. Qed.

#[local] Hint Resolve p3_check_rule_fn : p3.

Lemma p3_find_match {X : Type} (fn : rewrite_rule -> M (option X)) (rules : list rewrite_rule) :
  (forall rule, hoare cache_proofless (fun _ => True) any_exn (fn rule)) ->
  hoare cache_proofless (fun _ => True) any_exn (find_match rules fn).
Proof.
  intros Hfn. induction rules as [| rule rest IH]; simpl.
  - apply hoare_ret. exact Logic.I.
  - p3.
Qed.

Lemma p3_rewrite_rule_sets (target : expr) (rss : list rewrite_rule_set) :
  hoare cache_proofless (fun _ => True) any_exn (rewrite_rule_sets K cfg simp rss target).
Proof.
  induction rss as [| rs rest IH]; simpl.
  - apply hoare_ret. exact Logic.I.
  - apply hoare_bind. eapply hoare_conseq.
    + apply p3_find_match. intros rule. apply p3_check_rule_fn.
    + intros [v |] _; [apply hoare_ret; exact Logic.I | apply IH].
Qed.

#[local] Hint Resolve p3_rewrite_rule_sets : p3.

Lemma p3_rewrite (lhs : expr) (rhs : result) :
  proofless rhs -> hoare cache_proofless proofless any_exn (rewrite K cfg simp lhs rhs).
Proof.
  intros Hrhs. unfold rewrite. p3.
  all: rewrite ?mk_trans_result_off, ?mk_trans_result_res_off; auto with p3.
Qed.

#[local] Hint Resolve p3_rewrite : p3.

Lemma p3_rewrite_app (lhs : expr) (rhs : result) :
  proofless rhs -> hoare cache_proofless proofless any_exn (rewrite_app K cfg simp lhs rhs).
Proof. intros Hrhs. unfold rewrite_app. p3. Qed.

#[local] Hint Resolve p3_rewrite_app : p3.

Lemma p3_simplify_app_default_arg (a : expr) (b : app_buffers) :
  hoare cache_proofless (fun _ => True) any_exn (simplify_app_default_arg K cfg simp a b).
Proof. unfold simplify_app_default_arg. p3. Qed.

#[local] Hint Resolve p3_simplify_app_default_arg : p3.

Lemma p3_simplify_app_default_args (l : list expr) :
  forall b,
    hoare cache_proofless (fun _ => True) any_exn (simplify_app_default_args K cfg simp l b).
Proof.
  induction l as [| a rest IH]; intros b; simpl.
  - apply hoare_ret. exact Logic.I.
  - p3.
Qed.

#[local] Hint Resolve p3_simplify_app_default_args : p3.

Lemma p3_simplify_app_default (e : expr) :
  hoare cache_proofless proofless any_exn (simplify_app_default K cfg simp e).
Proof. unfold simplify_app_default. p3. Qed.

#[local] Hint Resolve p3_simplify_app_default : p3.

Lemma p3_simplify_app_congr_arg (e : expr) (info : app_arg_info) (b : congr_buffers) :
  hoare cache_proofless early_proofless any_exn (simplify_app_congr_arg K cfg simp e info b).
Proof. unfold simplify_app_congr_arg. p3; simpl; auto. Qed.

#[local] Hint Resolve p3_simplify_app_congr_arg : p3.

Lemma p3_simplify_app_congr_args (e : expr) (infos : list app_arg_info) :
  forall b,
    hoare cache_proofless early_proofless any_exn
      (simplify_app_congr_args K cfg simp e infos b).
Proof.
  induction infos as [| info rest IH]; intros b; simpl.
  - apply hoare_ret. exact Logic.I.
  - p3; simpl; auto.
Qed.

#[local] Hint Resolve p3_simplify_app_congr_args : p3.

Lemma p3_simplify_app_congr (e : expr) (cg_thm : congr_theorem_info) :
  hoare cache_proofless proofless any_exn (simplify_app_congr K cfg simp e cg_thm).
Proof. unfold simplify_app_congr. p3. Qed.

#[local] Hint Resolve p3_simplify_app_congr : p3.

Lemma p3_simplify_app (e : expr) :
  hoare cache_proofless proofless any_exn (simplify_app K cfg simp e).
Proof. unfold simplify_app. p3. Qed.

Lemma p3_simplify_var (e : expr) :
  hoare cache_proofless proofless any_exn (simplify_var cfg e).
Proof. unfold simplify_var. p3. Qed.

Lemma p3_simplify_constant (e : expr) :
  hoare cache_proofless proofless any_exn (simplify_constant K cfg simp e).
Proof. unfold simplify_constant. p3; apply hoare_throw; intros; exact Logic.I. Qed.

Lemma p3_rewrite_lambda (lhs : expr) (rhs : result) :
  proofless rhs -> hoare cache_proofless proofless any_exn (rewrite_lambda K cfg simp lhs rhs).
Proof. intros Hrhs. unfold rewrite_lambda. p3. Qed.

#[local] Hint Resolve p3_rewrite_lambda : p3.

Lemma p3_simplify_lambda (e : expr) :
  hoare cache_proofless proofless any_exn (simplify_lambda K cfg simp e).
Proof. unfold simplify_lambda. p3. Qed.

Lemma p3_simplify_pi (e : expr) :
  hoare cache_proofless proofless any_exn (simplify_pi K cfg simp e).
Proof. unfold simplify_pi. p3. Qed.

#[local] Hint Resolve p3_simplify_app p3_simplify_var p3_simplify_constant
  p3_simplify_lambda p3_simplify_pi : p3.

Lemma p3_simplify_kind (e : expr) :
  hoare cache_proofless proofless any_exn (simplify_kind K cfg simp e).
Proof. unfold simplify_kind. p3. Qed.

#[local] Hint Resolve p3_simplify_kind : p3.

Lemma p3_simplify_step (e : expr) :
  hoare cache_proofless proofless any_exn (simplify_step K cfg simp e).
Proof. unfold simplify_step, simplify_lookup, m_max_sharing. p3. Qed.

End Driver.

Lemma p3_simplify (fuel : nat) :
  forall e, hoare cache_proofless proofless any_exn (simplify K cfg fuel e).
Proof.
  induction fuel as [| fuel IH]; intros e; simpl.
  - apply hoare_throw. intros; exact Logic.I.
  - apply p3_simplify_step, IH.
Qed.

End Proofless.

(* ================================================================= *)
(** ** Exceptions of the functions *)

(** All functions at once, for an invariant [I] that does not look at the
    guarded members and a set [E] of exceptions with the dereference of a
    missing object in it: if the recursive calls keep [I] and raise in [E],
    so does every function. *)
Section Exceptions.

Variable K : kernel.
Variable cfg : config.
Variable I : state -> Prop.
Variable E : exn -> Prop.

Hypothesis I_ctx : forall c s, I s -> I (set_ctx c s).
Hypothesis I_depth : forall d s, I s -> I (set_contextual_depth d s).
Hypothesis I_rule_sets : forall r s, I s -> I (set_rule_sets r s).
Hypothesis I_cache : forall c s, I s -> I (set_cache c s).
Hypothesis E_null : forall n, find_object K n = None -> E NullDeref.

Lemma ex_set_context {A : Type} (phi : A -> Prop) (c : context) (m : M A) :
  hoare I phi (fun _ => E) m -> hoare I phi (fun _ => E) (set_context c m).
Proof. apply hoare_set_context; auto. Qed.

Lemma ex_updt_rule_set {A : Type} (phi : A -> Prop) (fact proof : expr) (m : M A) :
  hoare I phi (fun _ => E) m -> hoare I phi (fun _ => E) (updt_rule_set K fact proof m).
Proof. apply hoare_updt_rule_set; auto. Qed.

Lemma ex_flet_depth {A : Type} (phi : A -> Prop) (d : Z) (m : M A) :
  hoare I phi (fun _ => E) m -> hoare I phi (fun _ => E) (flet_depth d m).
Proof. apply hoare_flet_depth; auto. Qed.

Lemma ex_freset_cache {A : Type} (phi : A -> Prop) (m : M A) :
  hoare I phi (fun _ => E) m -> hoare I phi (fun _ => E) (freset_cache m).
Proof. apply hoare_freset_cache; auto. Qed.

Lemma ex_read {A : Type} (f : state -> A) :
  hoare I (fun _ => True) (fun _ => E) (fun s => (s, Ret (f s))).
Proof. apply hoare_read. auto. Qed.

Lemma ex_get_ctx : hoare I (fun _ => True) (fun _ => E) get_ctx.
Proof. apply ex_read. Qed.

Lemma ex_get_rule_sets : hoare I (fun _ => True) (fun _ => E) get_rule_sets.
Proof. apply ex_read. Qed.

Lemma ex_get_contextual_depth : hoare I (fun _ => True) (fun _ => E) get_contextual_depth.
Proof. apply ex_read. Qed.

Lemma ex_lookup_cache (e : expr) : hoare I (fun _ => True) (fun _ => E) (lookup_cache e).
Proof. apply ex_read. Qed.

Lemma ex_save (e : expr) (r : result) : hoare I (fun _ => True) (fun _ => E) (save cfg e r).
Proof.
  unfold save. destruct (m_memoize cfg).
  - intros s Hs. unfold post. simpl. auto.
  - apply hoare_ret. exact Logic.I.
Qed.

#[local] Hint Resolve ex_get_ctx ex_get_rule_sets ex_get_contextual_depth ex_lookup_cache
  ex_save : ex.

Ltac ex_guard :=
  first [ apply ex_set_context | apply ex_updt_rule_set
        | apply ex_flet_depth | apply ex_freset_cache ].

Ltac ex_leaf := eauto with ex.

Ltac ex := hoare_steps ex_guard ex_leaf; auto with ex.

Section Driver.

Variable simp : expr -> M result.
Hypothesis Hsimp : forall e, hoare I (fun _ => True) (fun _ => E) (simp e).

#[local] Hint Resolve Hsimp : ex.

Lemma ex_conditional_args (subst : list (option expr)) :
  forall ceq proof_args,
  hoare I (fun _ => True) (fun _ => E) (conditional_args K cfg simp subst ceq proof_args).
Proof.
  induction subst as [| [v |] rest IH]; intros ceq proof_args; simpl.
  - apply hoare_ret. exact Logic.I.
  - apply IH.
  - ex.
Qed.

#[local] Hint Resolve ex_conditional_args : ex.

Lemma ex_check_rule_fn (target : expr) (rule : rewrite_rule) :
  hoare I (fun _ => True) (fun _ => E) (check_rule_fn K cfg simp target rule).
Proof. unfold check_rule_fn. ex. Qed.

#[local] Hint Resolve ex_check_rule_fn : ex.

Lemma ex_find_match {X : Type} (fn : rewrite_rule -> M (option X)) (rules : list rewrite_rule) :
  (forall rule, hoare I (fun _ => True) (fun _ => E) (fn rule)) ->
  hoare I (fun _ => True) (fun _ => E) (find_match rules fn).
Proof.
  intros Hfn. induction rules as [| rule rest IH]; simpl.
  - apply hoare_ret. exact Logic.I.
  - ex.
Qed.

Lemma ex_rewrite_rule_sets (target : expr) (rss : list rewrite_rule_set) :
  hoare I (fun _ => True) (fun _ => E) (rewrite_rule_sets K cfg simp rss target).
Proof.
  induction rss as [| rs rest IH]; simpl.
  - apply hoare_ret. exact Logic.I.
  - apply hoare_bind. eapply hoare_conseq.
    + apply ex_find_match. intros rule. apply ex_check_rule_fn.
    + intros [v |] _; [apply hoare_ret; exact Logic.I | apply IH].
Qed.

#[local] Hint Resolve ex_rewrite_rule_sets : ex.

Lemma ex_rewrite (lhs : expr) (rhs : result) :
  hoare I (fun _ => True) (fun _ => E) (rewrite K cfg simp lhs rhs).
Proof. unfold rewrite. ex. Qed.

#[local] Hint Resolve ex_rewrite : ex.

Lemma ex_rewrite_app (lhs : expr) (rhs : result) :
  hoare I (fun _ => True) (fun _ => E) (rewrite_app K cfg simp lhs rhs).
Proof. unfold rewrite_app. ex. Qed.

#[local] Hint Resolve ex_rewrite_app : ex.

Lemma ex_simplify_app_default_arg (a : expr) (b : app_buffers) :
  hoare I (fun _ => True) (fun _ => E) (simplify_app_default_arg K cfg simp a b).
Proof. unfold simplify_app_default_arg. ex. Qed.

#[local] Hint Resolve ex_simplify_app_default_arg : ex.

Lemma ex_simplify_app_default_args (l : list expr) :
  forall b, hoare I (fun _ => True) (fun _ => E) (simplify_app_default_args K cfg simp l b).
Proof.
  induction l as [| a rest IH]; intros b; simpl.
  - apply hoare_ret. exact Logic.I.
  - ex.
Qed.

#[local] Hint Resolve ex_simplify_app_default_args : ex.

Lemma ex_simplify_app_default (e : expr) :
  hoare I (fun _ => True) (fun _ => E) (simplify_app_default K cfg simp e).
Proof. unfold simplify_app_default. ex. Qed.

#[local] Hint Resolve ex_simplify_app_default : ex.

Lemma ex_simplify_app_congr_arg (e : expr) (info : app_arg_info) (b : congr_buffers) :
  hoare I (fun _ => True) (fun _ => E) (simplify_app_congr_arg K cfg simp e info b).
Proof. unfold simplify_app_congr_arg. ex. Qed.

#[local] Hint Resolve ex_simplify_app_congr_arg : ex.

Lemma ex_simplify_app_congr_args (e : expr) (infos : list app_arg_info) :
  forall b, hoare I (fun _ => True) (fun _ => E) (simplify_app_congr_args K cfg simp e infos b).
Proof.
  induction infos as [| info rest IH]; intros b; simpl.
  - apply hoare_ret. exact Logic.I.
  - ex.
Qed.

#[local] Hint Resolve ex_simplify_app_congr_args : ex.

Lemma ex_simplify_app_congr (e : expr) (cg_thm : congr_theorem_info) :
  hoare I (fun _ => True) (fun _ => E) (simplify_app_congr K cfg simp e cg_thm).
Proof. unfold simplify_app_congr. ex. Qed.

#[local] Hint Resolve ex_simplify_app_congr : ex.

Lemma ex_simplify_app (e : expr) : hoare I (fun _ => True) (fun _ => E) (simplify_app K cfg simp e).
Proof. unfold simplify_app. ex. Qed.

Lemma ex_simplify_var (e : expr) : hoare I (fun _ => True) (fun _ => E) (simplify_var cfg e).
Proof. unfold simplify_var. ex. Qed.

Lemma ex_simplify_constant (e : expr) :
  hoare I (fun _ => True) (fun _ => E) (simplify_constant K cfg simp e).
Proof.
  unfold simplify_constant. ex.
  all: apply hoare_throw; intros; eapply E_null; eassumption.
Qed.

Lemma ex_rewrite_lambda (lhs : expr) (rhs : result) :
  hoare I (fun _ => True) (fun _ => E) (rewrite_lambda K cfg simp lhs rhs).
Proof. unfold rewrite_lambda. ex. Qed.

#[local] Hint Resolve ex_rewrite_lambda : ex.

Lemma ex_simplify_lambda (e : expr) :
  hoare I (fun _ => True) (fun _ => E) (simplify_lambda K cfg simp e).
Proof. unfold simplify_lambda. ex. Qed.

Lemma ex_simplify_pi (e : expr) : hoare I (fun _ => True) (fun _ => E) (simplify_pi K cfg simp e).
Proof. unfold simplify_pi. ex. Qed.

#[local] Hint Resolve ex_simplify_app ex_simplify_var ex_simplify_constant
  ex_simplify_lambda ex_simplify_pi : ex.

Lemma ex_simplify_kind (e : expr) :
  hoare I (fun _ => True) (fun _ => E) (simplify_kind K cfg simp e).
Proof. unfold simplify_kind. ex. Qed.

Lemma ex_simplify_lookup (e : expr) :
  hoare I (fun _ => True) (fun _ => E) (simplify_lookup K cfg simp e).
Proof. pose proof ex_simplify_kind. unfold simplify_lookup. ex. Qed.

End Driver.

End Exceptions.

(* ================================================================= *)
(** ** Step bound: the nesting of driver calls is bounded *)

Section Steps.

Variable K : kernel.
Variable cfg : config.
Hypothesis Hmax : m_max_steps cfg < UINT_MAX.





End Steps.

(* ================================================================= *)
(** ** Declared constants: no dereference of a missing object *)

Section Declared.

Variable K : kernel.
Variable cfg : config.
Hypothesis Hdecl : forall n, find_object K n <> None.

Lemma declared_simplify (fuel : nat) :
  forall e, hoare (fun _ => True) (fun _ => True) (fun _ x => x <> NullDeref)
              (simplify K cfg fuel e).
Proof.
  induction fuel as [| fuel IH]; intros e; simpl.
  - apply hoare_throw. intros; discriminate.
  - unfold simplify_step. apply hoare_bind.
    intros s _. unfold post, count_step.
    destruct (interrupt_requested K (m_num_steps s)); simpl; [discriminate |].
    match goal with |- context [if ?c then _ else _] => destruct c end; simpl;
      [discriminate |].
    split; [exact Logic.I |].
    apply ex_simplify_lookup; auto.
    intros n Hn. exfalso. exact (Hdecl n Hn).
Qed.

End Declared.

(* ================================================================= *)
(** ** Frame: rule sets, context and depth are put back on every exit *)

Section FrameRules.

Context {A B : Type}.

Lemma same_frame_refl (s : state) : same_frame s s.
Proof. repeat split. Qed.

Lemma same_frame_trans (s1 s2 s3 : state) :
  same_frame s1 s2 -> same_frame s2 s3 -> same_frame s1 s3.
Proof.
  unfold same_frame. intros (H1 & H2 & H3) (H4 & H5 & H6).
  repeat split; congruence.
Qed.

Lemma frames_ret (a : A) : frames (ret a).
Proof. intros s. apply same_frame_refl. Qed.

Lemma frames_throw (x : exn) : frames (@throw A x).
Proof. intros s. apply same_frame_refl. Qed.

Lemma frames_read (f : state -> A) : frames (fun s => (s, Ret (f s))).
Proof. intros s. apply same_frame_refl. Qed.

Lemma frames_bind (m : M A) (k : A -> M B) :
  frames m -> (forall a, frames (k a)) -> frames (bind m k).
Proof.
  intros Hm Hk s. specialize (Hm s). unfold bind.
  destruct (m s) as [s' [a | x]]; simpl in *.
  - eapply same_frame_trans; [exact Hm | apply Hk].
  - exact Hm.
Qed.

Lemma frames_flet_ctx (c : context) (m : M A) : frames m -> frames (flet_ctx c m).
Proof.
  intros Hm s. unfold flet_ctx. specialize (Hm (set_ctx c s)).
  destruct (m (set_ctx c s)) as [s' o]. unfold same_frame in *. simpl in *. tauto.
Qed.

Lemma frames_flet_depth (d : Z) (m : M A) : frames m -> frames (flet_depth d m).
Proof.
  intros Hm s. unfold flet_depth. specialize (Hm (set_contextual_depth d s)).
  destruct (m (set_contextual_depth d s)) as [s' o]. unfold same_frame in *. simpl in *. tauto.
Qed.

Lemma frames_freset_cache (m : M A) : frames m -> frames (freset_cache m).
Proof.
  intros Hm s. unfold freset_cache. specialize (Hm (set_cache [] s)).
  destruct (m (set_cache [] s)) as [s' o]. unfold same_frame in *. simpl in *. tauto.
Qed.

Lemma frames_set_context (c : context) (m : M A) : frames m -> frames (set_context c m).
Proof. intros Hm. apply frames_flet_ctx, frames_freset_cache, Hm. Qed.

(** The destructor of [updt_rule_set] undoes the insertion. *)
Lemma frames_updt_rule_set (K : kernel) (fact proof : expr) (m : M A) :
  frames m -> frames (updt_rule_set K fact proof m).
Proof.
  intros Hm s. unfold updt_rule_set.
  destruct (m_rule_sets s) as [| m_old rest] eqn:Hrs.
  - apply Hm.
  - match goal with |- context [m ?s1] => specialize (Hm s1); destruct (m s1) as [s' o] end.
    unfold same_frame in *. simpl in *. destruct Hm as (H1 & H2 & H3).
    rewrite H1, Hrs. simpl. auto.
Qed.

End FrameRules.

Ltac frames_step leaf :=
  cbn [negb andb orb]; cbv beta iota zeta;
  lazymatch goal with
  | |- frames (bind _ _) => apply frames_bind; [ | intros ]
  | |- frames (ret _) => apply frames_ret
  | |- frames (throw _) => apply frames_throw
  | |- frames (set_context _ _) => apply frames_set_context
  | |- frames (updt_rule_set _ _ _ _) => apply frames_updt_rule_set
  | |- frames (flet_depth _ _) => apply frames_flet_depth
  | |- frames (freset_cache _) => apply frames_freset_cache
  | |- frames (match ?x with _ => _ end) => destruct x eqn:?
  | |- frames _ => solve [leaf]
  end.

Create HintDb fr.

Section Frames.

Variable K : kernel.
Variable cfg : config.

Lemma frames_get_ctx : frames get_ctx.
Proof. apply frames_read. Qed.

Lemma frames_get_rule_sets : frames get_rule_sets.
Proof. apply frames_read. Qed.

Lemma frames_get_contextual_depth : frames get_contextual_depth.
Proof. apply frames_read. Qed.

Lemma frames_lookup_cache (e : expr) : frames (lookup_cache e).
Proof. apply frames_read. Qed.

Lemma frames_save (e : expr) (r : result) : frames (save cfg e r).
Proof.
  unfold save. destruct (m_memoize cfg); [| apply frames_ret].
  intros s. unfold same_frame. simpl. auto.
Qed.

Lemma frames_count_step : frames (count_step K cfg).
Proof.
  intros s. unfold count_step.
  destruct (interrupt_requested K (m_num_steps s)); [apply same_frame_refl |].
  match goal with |- context [if ?b then _ else _] => destruct b end;
    unfold same_frame; simpl; auto.
Qed.

Lemma frames_reset_num_steps : frames reset_num_steps.
Proof. intros s. unfold same_frame. simpl. auto. Qed.

#[local] Hint Resolve frames_get_ctx frames_get_rule_sets frames_get_contextual_depth
  frames_lookup_cache frames_save frames_count_step frames_reset_num_steps : fr.

Ltac fr := repeat frames_step ltac:(eauto with fr).

Section Driver.

Variable simp : expr -> M result.
Hypothesis Hsimp : forall e, frames (simp e).

#[local] Hint Resolve Hsimp : fr.

Lemma frames_conditional_args (subst : list (option expr)) :
  forall ceq proof_args, frames (conditional_args K cfg simp subst ceq proof_args).
Proof.
  induction subst as [| [v |] rest IH]; intros ceq proof_args; simpl.
  - apply frames_ret.
  - apply IH.
  - fr.
Qed.

#[local] Hint Resolve frames_conditional_args : fr.

Lemma frames_check_rule_fn (target : expr) (rule : rewrite_rule) :
  frames (check_rule_fn K cfg simp target rule).
Proof. unfold check_rule_fn. fr. Qed.

#[local] Hint Resolve frames_check_rule_fn : fr.

Lemma frames_find_match {X : Type} (fn : rewrite_rule -> M (option X))
      (rules : list rewrite_rule) :
  (forall rule, frames (fn rule)) -> frames (find_match rules fn).
Proof.
  intros Hfn. induction rules as [| rule rest IH]; simpl.
  - apply frames_ret.
  - fr.
Qed.

Lemma frames_rewrite_rule_sets (target : expr) (rss : list rewrite_rule_set) :
  frames (rewrite_rule_sets K cfg simp rss target).
Proof.
  induction rss as [| rs rest IH]; simpl.
  - apply frames_ret.
  - apply frames_bind.
    + apply frames_find_match. intros rule. apply frames_check_rule_fn.
    + intros [v |]; [apply frames_ret | apply IH].
Qed.

#[local] Hint Resolve frames_rewrite_rule_sets : fr.

Lemma frames_rewrite (lhs : expr) (rhs : result) : frames (rewrite K cfg simp lhs rhs).
Proof. unfold rewrite. fr. Qed.

#[local] Hint Resolve frames_rewrite : fr.

Lemma frames_rewrite_app (lhs : expr) (rhs : result) : frames (rewrite_app K cfg simp lhs rhs).
Proof. unfold rewrite_app. fr. Qed.

#[local] Hint Resolve frames_rewrite_app : fr.

Lemma frames_simplify_app_default_arg (a : expr) (b : app_buffers) :
  frames (simplify_app_default_arg K cfg simp a b).
Proof. unfold simplify_app_default_arg. fr. Qed.

#[local] Hint Resolve frames_simplify_app_default_arg : fr.

Lemma frames_simplify_app_default_args (l : list expr) :
  forall b, frames (simplify_app_default_args K cfg simp l b).
Proof.
  induction l as [| a rest IH]; intros b; simpl.
  - apply frames_ret.
  - fr.
Qed.

#[local] Hint Resolve frames_simplify_app_default_args : fr.

Lemma frames_simplify_app_default (e : expr) : frames (simplify_app_default K cfg simp e).
Proof. unfold simplify_app_default. fr. Qed.

#[local] Hint Resolve frames_simplify_app_default : fr.

Lemma frames_simplify_app_congr_arg (e : expr) (info : app_arg_info) (b : congr_buffers) :
  frames (simplify_app_congr_arg K cfg simp e info b).
Proof. unfold simplify_app_congr_arg. fr. Qed.

#[local] Hint Resolve frames_simplify_app_congr_arg : fr.

Lemma frames_simplify_app_congr_args (e : expr) (infos : list app_arg_info) :
  forall b, frames (simplify_app_congr_args K cfg simp e infos b).
Proof.
  induction infos as [| info rest IH]; intros b; simpl.
  - apply frames_ret.
  - fr.
Qed.

#[local] Hint Resolve frames_simplify_app_congr_args : fr.

Lemma frames_simplify_app_congr (e : expr) (cg_thm : congr_theorem_info) :
  frames (simplify_app_congr K cfg simp e cg_thm).
Proof. unfold simplify_app_congr. fr. Qed.

#[local] Hint Resolve frames_simplify_app_congr : fr.

Lemma frames_simplify_app (e : expr) : frames (simplify_app K cfg simp e).
Proof. unfold simplify_app. fr. Qed.

Lemma frames_simplify_var (e : expr) : frames (simplify_var cfg e).
Proof. unfold simplify_var. fr. Qed.

Lemma frames_simplify_constant (e : expr) : frames (simplify_constant K cfg simp e).
Proof. unfold simplify_constant. fr. Qed.

Lemma frames_rewrite_lambda (lhs : expr) (rhs : result) :
  frames (rewrite_lambda K cfg simp lhs rhs).
Proof. unfold rewrite_lambda. fr. Qed.

#[local] Hint Resolve frames_rewrite_lambda : fr.

Lemma frames_simplify_lambda (e : expr) : frames (simplify_lambda K cfg simp e).
Proof. unfold simplify_lambda. fr. Qed.

Lemma frames_simplify_pi (e : expr) : frames (simplify_pi K cfg simp e).
Proof. unfold simplify_pi. fr. Qed.

#[local] Hint Resolve frames_simplify_app frames_simplify_var frames_simplify_constant
  frames_simplify_lambda frames_simplify_pi : fr.

Lemma frames_simplify_kind (e : expr) : frames (simplify_kind K cfg simp e).
Proof. unfold simplify_kind. fr. Qed.

#[local] Hint Resolve frames_simplify_kind : fr.

Lemma frames_simplify_step (e : expr) : frames (simplify_step K cfg simp e).
Proof. unfold simplify_step, simplify_lookup. fr. Qed.

End Driver.

Lemma frames_simplify (fuel : nat) : forall e, frames (simplify K cfg fuel e).
Proof.
  induction fuel as [| fuel IH]; intros e; simpl.
  - apply frames_throw.
  - apply frames_simplify_step, IH.
Qed.

Lemma frames_simplifier_call (fuel : nat) (e : expr) (ctx : context) :
  frames (simplifier_call K cfg fuel e ctx).
Proof.
  pose proof (frames_simplify fuel). unfold simplifier_call. fr.
Qed.

End Frames.

(* ================================================================= *)
(** ** The option [simplifier.conditional] *)

(** The functions never read [m_conditional]. *)
Lemma conditional_flag_ignored (K : kernel) (cfg : config) (b : bool) (fuel : nat) :
  forall e, simplify K (set_conditional b cfg) fuel e = simplify K cfg fuel e.
Proof.
  induction fuel as [| fuel IH]; intros e; [reflexivity |].
  simpl. rewrite (functional_extensionality _ _ IH). reflexivity.
Qed.

(** C1 (the code departs from the option's documentation).  The option
    [simplifier.conditional] is registered as the switch of conditional
    rewriting and stored in [m_conditional], but nothing reads it: with the
    option set to false, the conditional rule [q -> a = b], whose match
    leaves the premise unassigned, still fires on [a] after the premise [q]
    has been simplified to [true]. *)
Theorem C1_conditional_rule_fires_when_disabled :
  m_conditional (Examples.config0 Examples.K_plain Examples.opts_conditional_off
                   [Examples.rs_cond]) = false /\
  snd (simplify_public Examples.K_plain 10 (Toy.cst "a") []
         Examples.opts_conditional_off [Examples.rs_cond]) =
  Ret (Toy.cst "b",
       App [Toy.cst "Hab"; Toy.th "eqt_elim" [Toy.cst "q"; Toy.cst "Hq"]]).
Proof. split; vm_compute; reflexivity. Qed.

(* ================================================================= *)
(** ** The cache under a contextual hypothesis *)

(** The guard on the rule set leaves the cache to the guarded computation. *)
Lemma updt_rule_set_keeps_cache {A : Type} (K : kernel) (fact proof : expr) (m : M A)
      (s : state) :
  exists s1, m_cache s1 = m_cache s /\
             snd (updt_rule_set K fact proof m s) = snd (m s1).
Proof.
  unfold updt_rule_set. destruct (m_rule_sets s) as [| m_old rest].
  - exists s. split; reflexivity.
  - match goal with |- context [m ?s1] => exists s1; destruct (m s1) end.
    split; reflexivity.
Qed.

(** Without proofs, the argument below a hypothesis is simplified on the
    cache of the enclosing call. *)
Lemma congr_arg_without_proofs_on_outer_cache (K : kernel) (cfg : config)
      (simp : expr -> M result) (e : expr) (info : app_arg_info) (c : congr_context)
      (b : congr_buffers) (s : state) :
  m_proofs_enabled cfg = false ->
  should_simplify info = true ->
  get_context info = Some c ->
  exists s1, m_cache s1 = m_cache s /\
    match snd (simp (arg e (get_arg_pos info)) s1) with
    | Ret res_a =>
        exists b', snd (simplify_app_congr_arg K cfg simp e info b s) = Ret (inr b') /\
                   nth (get_arg_pos info) (cb_new_args b') null_expr =
                   nth (get_arg_pos info)
                     (buffer_set (cb_new_args b) (get_arg_pos info) (m_out res_a)) null_expr
    | Err x => snd (simplify_app_congr_arg K cfg simp e info b s) = Err x
    end.
Proof.
  intros Hoff Hsimplify Hctx. unfold simplify_app_congr_arg.
  rewrite Hsimplify, Hctx, Hoff. cbn [negb]. cbv beta iota zeta.
  match goal with |- context [updt_rule_set K ?H ?p ?m] =>
    destruct (updt_rule_set_keeps_cache K H p m s) as (s1 & Hc & Hrun);
    set (U := updt_rule_set K H p m) in *
  end.
  exists s1. split; [exact Hc |]. rewrite <- Hrun. unfold bind.
  destruct (U s) as [s2 [res_a | x]]; unfold ret; simpl.
  - eexists. split; reflexivity.
  - reflexivity.
Qed.

(** C2 (the code departs from its sibling branch).  In [simplify_app_congr]
    the branch with proofs resets the cache around the recursive call, "because
    we updated the rule_sets"; the branch without proofs installs the
    hypothesis and does not.  On [F p p], where the second argument is
    simplified under the hypothesis [p], the entry [p |-> p] cached for the
    first argument answers for the second one: without proofs the term stays
    [F p p], while without proofs and without cache, or with proofs, it
    becomes [F p true]. *)
Theorem C2_cache_not_reset_without_proofs :
  snd (simplify_public Examples.K_plain 10 Examples.F_p_p []
         Examples.opts_proofs_off [Examples.rs_F]) =
    Ret (Examples.F_p_p, Toy.th "refl" [Toy.cst "T"; Examples.F_p_p]) /\
  snd (simplify_public Examples.K_plain 10 Examples.F_p_p []
         Examples.opts_proofs_memoize_off [Examples.rs_F]) =
    Ret (Examples.F_p_true, Toy.th "refl" [Toy.cst "T"; Examples.F_p_true]) /\
  match snd (simplify_public Examples.K_plain 10 Examples.F_p_p [] [] [Examples.rs_F]) with
  | Ret (e', _) => e' = Examples.F_p_true
  | Err _ => False
  end.
Proof.
  split; [vm_compute; reflexivity |].
  split; [vm_compute; reflexivity |].
  vm_compute. reflexivity.
Qed.

(* ================================================================= *)
(** ** Proof elision *)

(** C3.  With [simplifier.proofs] false, every result of the driver has no
    proof and no heterogeneous flag (started on a cache of such results, as
    [operator()] does), and the proof returned by the public operation is
    [refl (infer_type e') e']. *)
Theorem C3_proofs_off_returns_refl (K : kernel) (opts : options)
        (rs : list rewrite_rule_set) :
  get_simplifier_proofs opts = false ->
  (forall fuel e s s' r,
      cache_proofless s ->
      simplify K (fst (mk_simplifier_fn K opts rs)) fuel e s = (s', Ret r) ->
      proofless r /\ cache_proofless s') /\
  (forall fuel e ctx e' pi,
      snd (simplify_public K fuel e ctx opts rs) = Ret (e', pi) ->
      pi = mk_refl_th K (infer_type K ctx e') e').
Proof.
  intros Hoff.
  set (cfg := fst (mk_simplifier_fn K opts rs)).
  assert (Hcfg : m_proofs_enabled cfg = false) by exact Hoff.
  split.
  - intros fuel e s s' r Hs Hrun.
    pose proof (p3_simplify K cfg Hcfg fuel e s Hs) as Hp.
    unfold post in Hp. rewrite Hrun in Hp. simpl in Hp. tauto.
  - intros fuel e ctx e' pi.
    unfold simplify_public. change (mk_simplifier_fn K opts rs) with
      (cfg, snd (mk_simplifier_fn K opts rs)). cbv iota beta.
    set (s0 := snd (mk_simplifier_fn K opts rs)).
    unfold simplifier_call, set_context, flet_ctx, freset_cache, bind, reset_num_steps.
    set (s1 := set_num_steps 0 (set_cache [] (set_ctx ctx s0))).
    pose proof (p3_simplify K cfg Hcfg fuel e s1) as Hp.
    pose proof (frames_simplify K cfg fuel e s1) as Hf.
    unfold post in Hp.
    destruct (simplify K cfg fuel e s1) as [s2 [r | x]]; simpl in *.
    + destruct Hp as [_ [Hpr _]]; [constructor |].
      destruct Hf as (_ & Hctx & _).
      unfold get_ctx, ret. simpl. intros Heq. inversion Heq; subst.
      unfold get_proof_of. rewrite Hpr, Hctx. reflexivity.
    + discriminate.
Qed.

Lemma C3_witness :
  get_simplifier_proofs Examples.opts_proofs_off = false /\
  snd (simplify_public Examples.K_plain 10 (Toy.cst "a") [] Examples.opts_proofs_off
         [Examples.rs_cond]) =
    Ret (Toy.cst "b", Toy.th "refl" [Toy.cst "T"; Toy.cst "b"]) /\
  Toy.th "refl" [Toy.cst "T"; Toy.cst "b"] =
    mk_refl_th Examples.K_plain (infer_type Examples.K_plain [] (Toy.cst "b")) (Toy.cst "b").
Proof.
  split; [reflexivity |]. split; [vm_compute; reflexivity |].
  apply (proj2 (C3_proofs_off_returns_refl Examples.K_plain Examples.opts_proofs_off
                  [Examples.rs_cond] eq_refl) 10%nat (Toy.cst "a") []).
  vm_compute. reflexivity.
Defined.

(* ================================================================= *)
(** ** The permutation guard *)





(** The rule [x + y = y + x] turns [b + a] into [a + b] and leaves [a + b]. *)
Example permutation_rule_on_sums :
  match snd (simplify_public Examples.K_plain 10 Examples.add_b_a [] []
               [mk_rewrite_rule_set [Examples.rule_comm] []]) with
  | Ret (e', _) => e' = Examples.add_a_b
  | Err _ => False
  end /\
  match snd (simplify_public Examples.K_plain 10 Examples.add_a_b [] []
               [mk_rewrite_rule_set [Examples.rule_comm] []]) with
  | Ret (e', _) => e' = Examples.add_a_b
  | Err _ => False
  end.
Proof. split; vm_compute; reflexivity. Qed.


(* ================================================================= *)
(** ** Termination under the step bound *)

(** What one entry of the driver does to the counter. *)
Lemma simplify_entry (K : kernel) (cfg : config) (fuel : nat) (e : expr) (s : state) :
  interrupt_requested K (m_num_steps s) = false ->
  simplify K cfg (S fuel) e s =
  if m_max_steps cfg <? wrap32 (m_num_steps s + 1)
  then (set_num_steps (wrap32 (m_num_steps s + 1)) s, Err Exhausted)
  else simplify_lookup K cfg (simplify K cfg fuel) e
         (set_num_steps (wrap32 (m_num_steps s + 1)) s).
Proof.
  intros Hint. simpl. unfold simplify_step, bind, count_step. rewrite Hint.
  cbn [m_num_steps set_num_steps].
  destruct (m_max_steps cfg <? wrap32 (m_num_steps s + 1)); reflexivity.
Qed.

(** At the default bound the comparison of the counter never succeeds. *)
Remark unbounded_default_never_exhausts (K : kernel) (cfg : config) (s : state) :
  m_max_steps cfg = UINT_MAX ->
  snd (count_step K cfg s) <> Err Exhausted.
Proof.
  intros Hmax. unfold count_step.
  destruct (interrupt_requested K (m_num_steps s)); simpl; [discriminate |].
  cbn [m_num_steps set_num_steps].
  destruct (m_max_steps cfg <? wrap32 (m_num_steps s + 1)) eqn:Hlt; simpl; [| discriminate].
  exfalso. apply Z.ltb_lt in Hlt. rewrite Hmax in Hlt. unfold wrap32, UINT_MAX in Hlt.
  pose proof (Z.mod_pos_bound (m_num_steps s + 1) 4294967296). lia.
Qed.

(** At the default bound a rule set that keeps rewriting is followed without
    end: on the rule [a = a] every amount of fuel is used up. *)
Lemma default_bound_loop_step (fuel : nat) :
  forall s,
    cache_find (m_cache s) (Toy.cst "a") = None ->
    m_rule_sets s = [empty_rule_set Examples.K_plain; Examples.rs_loop] ->
    snd (simplify Examples.K_plain (Examples.config0 Examples.K_plain [] [Examples.rs_loop])
           fuel (Toy.cst "a") s) = Err OutOfFuel.
Proof.
  induction fuel as [| fuel IH]; intros s Hcache Hrules; [reflexivity |].
  rewrite simplify_entry by reflexivity.
  change (m_max_steps (Examples.config0 Examples.K_plain [] [Examples.rs_loop]))
    with UINT_MAX.
  assert (Hle : (UINT_MAX <? wrap32 (m_num_steps s + 1)) = false).
  { apply Z.ltb_ge. unfold wrap32, UINT_MAX.
    pose proof (Z.mod_pos_bound (m_num_steps s + 1) 4294967296). lia. }
  rewrite Hle.
  set (s1 := set_num_steps (wrap32 (m_num_steps s + 1)) s).
  specialize (IH s1 Hcache Hrules).
  unfold simplify_lookup, m_max_sharing.
  change (m_memoize (Examples.config0 Examples.K_plain [] [Examples.rs_loop])) with true.
  cbv iota. unfold bind at 1, lookup_cache.
  change (m_cache s1) with (m_cache s). rewrite Hcache.
  unfold simplify_kind, Toy.cst, bind at 1, simplify_constant.
  cbn -[simplify]. 
  unfold rewrite, bind at 1, get_rule_sets.
  change (m_rule_sets s1) with (m_rule_sets s). rewrite Hrules.
  cbn -[simplify]. unfold bind at 1.
  match goal with |- context [simplify ?K ?c fuel ?e s1] =>
    change (simplify K c fuel e s1) with
      (simplify Examples.K_plain (Examples.config0 Examples.K_plain [] [Examples.rs_loop])
         fuel (Toy.cst "a") s1)
  end.
  destruct (simplify Examples.K_plain
              (Examples.config0 Examples.K_plain [] [Examples.rs_loop])
              fuel (Toy.cst "a") s1) as [s2 [r | x]]; simpl in IH; [discriminate |].
  inversion IH; subst. reflexivity.
Qed.

Remark default_bound_may_loop (fuel : nat) :
  snd (simplify_public Examples.K_plain fuel (Toy.cst "a") [] [] [Examples.rs_loop]) =
  Err OutOfFuel.
Proof.
  unfold simplify_public.
  change (mk_simplifier_fn Examples.K_plain [] [Examples.rs_loop]) with
    (Examples.config0 Examples.K_plain [] [Examples.rs_loop],
     Examples.state0 Examples.K_plain [] [Examples.rs_loop]).
  cbv iota beta.
  unfold simplifier_call, set_context, flet_ctx, freset_cache, bind, reset_num_steps.
  match goal with |- context [simplify ?K ?c fuel ?e ?s1] =>
    pose proof (default_bound_loop_step fuel s1 eq_refl eq_refl) as H;
    destruct (simplify K c fuel e s1) as [s2 [r | x]]
  end; simpl in *; [discriminate |].
  inversion H; subst. reflexivity.
Qed.





(** The rule [a = a] drives the run into the bound of ten steps. *)
Example looping_rule_exhausts_the_bound :
  snd (simplify_public Examples.K_plain 11 (Toy.cst "a") [] Examples.opts_max_steps_10
         [Examples.rs_loop]) = Err Exhausted.
Proof. vm_compute. reflexivity. Qed.

(* ================================================================= *)
(** ** Arguments of an application on the default path *)

(** The function type of the loop is moved along the spine in the block
    guarded by [m_proofs_enabled]; without proofs it stays the type of the
    head, made a Pi. *)
Lemma f_type_without_proofs (K : kernel) (cfg : config) (simp : expr -> M result)
      (a : expr) (b b' : app_buffers) (s s' : state) :
  m_proofs_enabled cfg = false ->
  simplify_app_default_arg K cfg simp a b s = (s', Ret b') ->
  ab_f_type b' = ensure_pi K (m_ctx s) (ab_f_type b).
Proof.
  intros Hoff. unfold simplify_app_default_arg, bind, get_ctx, ret. cbv beta zeta.
  rewrite Hoff.
  destruct (m_has_heq cfg || is_arrow K (ensure_pi K (m_ctx s) (ab_f_type b))).
  - destruct (simp a s) as [s1 [res_a | x]]; [| discriminate].
    intros Heq. inversion Heq; subst. reflexivity.
  - intros Heq. inversion Heq; subst. reflexivity.
Qed.

(** With proofs it descends into the body of the Pi, by lowering for an arrow
    and by substituting the original argument otherwise. *)
Lemma f_type_with_proofs (K : kernel) (cfg : config) (simp : expr -> M result)
      (a : expr) (b b' : app_buffers) (s s' : state) :
  m_proofs_enabled cfg = true ->
  simplify_app_default_arg K cfg simp a b s = (s', Ret b') ->
  ab_f_type b' =
  let f_type := ensure_pi K (m_ctx s) (ab_f_type b) in
  if is_arrow K f_type then lower_free_vars K (abst_body f_type) 1 1
  else pi_body_at K f_type a.
Proof.
  intros Hon. unfold simplify_app_default_arg, bind, get_ctx, ret. cbv beta zeta.
  rewrite Hon.
  destruct (is_arrow K (ensure_pi K (m_ctx s) (ab_f_type b))) eqn:Harrow.
  - rewrite orb_true_r.
    destruct (simp a s) as [s1 [res_a | x]]; [| discriminate].
    cbv beta iota. intros Heq. inversion Heq; subst. reflexivity.
  - destruct (m_has_heq cfg); cbn [orb].
    + destruct (simp a s) as [s1 [res_a | x]]; [| discriminate].
      cbv beta iota. destruct (is_eqp K a (m_out res_a));
        intros Heq; inversion Heq; subst; reflexivity.
    + cbv beta iota. destruct (is_eqp K a (m_out (result_out a)));
        intros Heq; inversion Heq; subst; reflexivity.
Qed.

(** For [f : A -> forall y : B, C y] and the rule [b = b2], the second
    argument of [f a b] is below a dependent type: with proofs it is left
    alone, without proofs the test looks at the type of [f] again and the
    argument is simplified. *)
Example second_argument_under_dependent_type :
  match snd (simplify_public Examples.K_dependent 10 Examples.f_a_b [] []
               [Examples.rs_b]) with
  | Ret (e', _) => e' = Examples.f_a_b
  | Err _ => False
  end /\
  match snd (simplify_public Examples.K_dependent 10 Examples.f_a_b []
               Examples.opts_proofs_off [Examples.rs_b]) with
  | Ret (e', _) => e' = Examples.f_a_b2
  | Err _ => False
  end.
Proof. split; vm_compute; reflexivity. Qed.

(** One iteration of the loop, on the function type the loop variable holds:
    the argument is handed to the driver when heterogeneous equality is
    imported or that type is an arrow, and only then; otherwise the state is
    left as it is and the argument is recorded unchanged, without proof. *)
Lemma loop_body_simplifies_iff_heq_or_arrow (K : kernel) (cfg : config)
        (simp : expr -> M result) (a : expr) (b : app_buffers) (s : state) :
  let f_arrow := is_arrow K (ensure_pi K (m_ctx s) (ab_f_type b)) in
  (m_has_heq cfg || f_arrow = true ->
   match simp a s with
   | (s', Ret res_a) =>
       exists b',
         simplify_app_default_arg K cfg simp a b s = (s', Ret b') /\
         ab_new_args b' = ab_new_args b ++ [m_out res_a] /\
         (m_proofs_enabled cfg = true -> ab_proofs b' = ab_proofs b ++ [m_proof res_a])
   | (s', Err x) => simplify_app_default_arg K cfg simp a b s = (s', Err x)
   end) /\
  (m_has_heq cfg || f_arrow = false ->
   exists b',
     simplify_app_default_arg K cfg simp a b s = (s, Ret b') /\
     ab_new_args b' = ab_new_args b ++ [a] /\
     ab_changed b' = ab_changed b /\
     (m_proofs_enabled cfg = true -> ab_proofs b' = ab_proofs b ++ [None])).
Proof.
  intros f_arrow. subst f_arrow. split; intros Hcond.
  - unfold simplify_app_default_arg, bind, get_ctx, ret. cbv beta zeta.
    rewrite Hcond. cbv beta iota.
    destruct (simp a s) as [s' [res_a | x]]; [| reflexivity].
    destruct (m_proofs_enabled cfg) eqn:Hp.
    + repeat match goal with |- context [if ?c then _ else _] => destruct c end;
        eexists; (split; [reflexivity |]); simpl; auto.
    + eexists. split; [reflexivity |]. simpl. split; [reflexivity | discriminate].
  - unfold simplify_app_default_arg, bind, get_ctx, ret. cbv beta zeta.
    rewrite Hcond. cbv beta iota.
    destruct (m_proofs_enabled cfg) eqn:Hp.
    + repeat match goal with |- context [if ?c then _ else _] => destruct c end;
        eexists; (split; [reflexivity |]); simpl; auto.
    + eexists. split; [reflexivity |]. simpl. repeat split. discriminate.
Qed.

(** The loop body under an arrow and under a dependent type. *)
Example loop_body_on_arrow_and_dependent_type :
  (m_has_heq (Examples.config0 Examples.K_plain [] [])
   || is_arrow Examples.K_plain
        (ensure_pi Examples.K_plain [] (ab_f_type (Examples.empty_buffers Examples.arrow_type)))
   = true) /\
  (m_has_heq (Examples.config0 Examples.K_plain [] [])
   || is_arrow Examples.K_plain
        (ensure_pi Examples.K_plain []
           (ab_f_type (Examples.empty_buffers Examples.dependent_type)))
   = false) /\
  (exists b',
      snd (simplify_app_default_arg Examples.K_plain (Examples.config0 Examples.K_plain [] [])
             (simplify Examples.K_plain (Examples.config0 Examples.K_plain [] []) 5)
             Examples.add_1_2 (Examples.empty_buffers Examples.arrow_type)
             (Examples.state0 Examples.K_plain [] [])) = Ret b' /\
      ab_new_args b' = [Toy.cst "f"; Value 3]) /\
  (exists b',
      simplify_app_default_arg Examples.K_plain (Examples.config0 Examples.K_plain [] [])
        (simplify Examples.K_plain (Examples.config0 Examples.K_plain [] []) 5)
        Examples.add_1_2 (Examples.empty_buffers Examples.dependent_type)
        (Examples.state0 Examples.K_plain [] []) =
      (Examples.state0 Examples.K_plain [] [], Ret b') /\
      ab_new_args b' = [Toy.cst "f"; Examples.add_1_2]).
Proof.
  split; [reflexivity |]. split; [reflexivity |]. split.
  - pose proof (proj1 (loop_body_simplifies_iff_heq_or_arrow Examples.K_plain
                         (Examples.config0 Examples.K_plain [] [])
                         (simplify Examples.K_plain (Examples.config0 Examples.K_plain [] []) 5)
                         Examples.add_1_2 (Examples.empty_buffers Examples.arrow_type)
                         (Examples.state0 Examples.K_plain [] [])) eq_refl) as H.
    vm_compute in H. destruct H as (b' & Hrun & Hargs & _).
    exists b'. split; [| exact Hargs].
    vm_compute. apply (f_equal snd) in Hrun. exact Hrun.
  - destruct (proj2 (loop_body_simplifies_iff_heq_or_arrow Examples.K_plain
                       (Examples.config0 Examples.K_plain [] [])
                       (simplify Examples.K_plain (Examples.config0 Examples.K_plain [] []) 5)
                       Examples.add_1_2 (Examples.empty_buffers Examples.dependent_type)
                       (Examples.state0 Examples.K_plain [] [])) eq_refl)
      as (b' & Hrun & Hargs & _).
    exists b'. split; [exact Hrun | exact Hargs].
Qed.

(** C6 (the code departs from its sibling branch).  The test of the loop
    reads the loop variable [f_type], and the statements that move [f_type]
    to the type at the next position stand inside [if (m_proofs_enabled)],
    next to the buffers that are only used with proofs: without proofs every
    position is tested against the type of the head.  Heterogeneous equality
    is not imported in either environment.  For [f : A -> forall y : B, C y]
    the second position is dependent, and with the rule [b = b2] the run on
    [f a b] without proofs simplifies the second argument all the same
    ([f a b2]); with proofs it is kept ([f a b]).  For
    [g : forall x : A, B x -> C] the second position is an arrow, and the
    run on [g a b] without proofs keeps the second argument ([g a b]); with
    proofs it is simplified ([g a b2]). *)
Theorem C6_argument_test_reads_head_type_without_proofs :
  (imported Examples.K_dependent "heq" = false /\
   is_arrow Examples.K_dependent Examples.f_dependent_type = true /\
   is_arrow Examples.K_dependent
     (lower_free_vars Examples.K_dependent (abst_body Examples.f_dependent_type) 1 1) = false /\
   snd (simplify_public Examples.K_dependent 10 Examples.f_a_b []
          Examples.opts_proofs_off [Examples.rs_b]) =
     Ret (Examples.f_a_b2, Toy.th "refl" [Toy.cst "T"; Examples.f_a_b2]) /\
   match snd (simplify_public Examples.K_dependent 10 Examples.f_a_b [] []
                [Examples.rs_b]) with
   | Ret (e', _) => e' = Examples.f_a_b
   | Err _ => False
   end) /\
  (imported Runs.K_dependent_first "heq" = false /\
   is_arrow Runs.K_dependent_first Runs.g_dependent_type = false /\
   is_arrow Runs.K_dependent_first
     (pi_body_at Runs.K_dependent_first Runs.g_dependent_type (Toy.cst "a")) = true /\
   snd (simplify_public Runs.K_dependent_first 10 Runs.g_a_b []
          Examples.opts_proofs_off [Examples.rs_b]) =
     Ret (Runs.g_a_b, Toy.th "refl" [Toy.cst "T"; Runs.g_a_b]) /\
   match snd (simplify_public Runs.K_dependent_first 10 Runs.g_a_b [] []
                [Examples.rs_b]) with
   | Ret (e', _) => e' = Runs.g_a_b2
   | Err _ => False
   end).
Proof.
  split.
  - split; [reflexivity |]. split; [reflexivity |]. split; [reflexivity |].
    split; [vm_compute; reflexivity |]. vm_compute. reflexivity.
  - split; [reflexivity |]. split; [reflexivity |]. split; [reflexivity |].
    split; [vm_compute; reflexivity |]. vm_compute. reflexivity.
Qed.

(* ================================================================= *)
(** ** Rule sets *)

Lemma initial_rule_sets_of_constructor (K : kernel) (opts : options)
      (rs : list rewrite_rule_set) :
  m_rule_sets (snd (mk_simplifier_fn K opts rs)) =
  initial_rule_sets K (get_simplifier_contextual opts) rs.
Proof. reflexivity. Qed.

(** The guard in detail: the body sees the fact in rule set 0 and the other
    sets as they were; afterwards rule set 0 is the saved copy again. *)
Lemma updt_rule_set_scoped {A : Type} (K : kernel) (fact proof : expr) (m : M A)
      (s : state) (m_old : rewrite_rule_set) (rest : list rewrite_rule_set) :
  m_rule_sets s = m_old :: rest ->
  frames m ->
  exists s1,
    m_rule_sets s1 = rs_insert K m_old g_local fact proof :: rest /\
    snd (updt_rule_set K fact proof m s) = snd (m s1) /\
    m_rule_sets (fst (updt_rule_set K fact proof m s)) = m_old :: rest.
Proof.
  intros Hrs Hm. unfold updt_rule_set. rewrite Hrs.
  match goal with |- context [m ?s1] =>
    exists s1; specialize (Hm s1); destruct (m s1) as [s' o]
  end.
  destruct Hm as (H1 & _). simpl in *. rewrite H1.
  repeat split; reflexivity.
Qed.

(** C7.  The simplifier works on its own vector of rule sets: a fresh set at
    index 0 when contextual mode is on, then the caller's sets.  Local facts
    go into rule set 0 through [updt_rule_set] only, on the congruence path
    that is taken only in contextual mode; the guard puts the saved rule set
    back on every exit, also when the guarded call raises.  After a run,
    whatever its outcome, the vector is the initial one, and so are the
    caller's sets in it. *)
Theorem C7_rule_sets_restored (K : kernel) (opts : options) (rs : list rewrite_rule_set) :
  m_rule_sets (snd (mk_simplifier_fn K opts rs)) =
    (if get_simplifier_contextual opts then [empty_rule_set K] else []) ++ rs /\
  (forall fuel e ctx,
      m_rule_sets (fst (simplify_public K fuel e ctx opts rs)) =
      (if get_simplifier_contextual opts then [empty_rule_set K] else []) ++ rs) /\
  (forall cfg fuel e s,
      m_rule_sets (fst (simplify K cfg fuel e s)) = m_rule_sets s) /\
  (forall cfg fuel a fact proof s m_old rest,
      m_rule_sets s = m_old :: rest ->
      exists s1,
        m_rule_sets s1 = rs_insert K m_old g_local fact proof :: rest /\
        snd (updt_rule_set K fact proof (simplify K cfg fuel a) s) =
          snd (simplify K cfg fuel a s1) /\
        m_rule_sets (fst (updt_rule_set K fact proof (simplify K cfg fuel a) s)) =
          m_old :: rest) /\
  (forall cfg simp e,
      m_contextual cfg = false ->
      m_has_cast cfg && is_cast K e = false ->
      simplify_app K cfg simp e = simplify_app_default K cfg simp e).
Proof.
  split; [reflexivity |]. split; [| split; [| split]].
  - intros fuel e ctx. unfold simplify_public.
    change (mk_simplifier_fn K opts rs) with
      (fst (mk_simplifier_fn K opts rs), snd (mk_simplifier_fn K opts rs)).
    cbv iota beta.
    destruct (frames_simplifier_call K (fst (mk_simplifier_fn K opts rs)) fuel e ctx
                (snd (mk_simplifier_fn K opts rs))) as (H & _).
    rewrite H. reflexivity.
  - intros cfg fuel e s. destruct (frames_simplify K cfg fuel e s) as (H & _). exact H.
  - intros cfg fuel a fact proof s m_old rest Hrs.
    apply updt_rule_set_scoped; [exact Hrs | apply frames_simplify].
  - intros cfg simp e Hctx Hcast. unfold simplify_app. rewrite Hcast, Hctx. reflexivity.
Qed.

Lemma C7_witness :
  m_rule_sets (fst (simplify_public Examples.K_plain 10 Examples.F_p_p [] []
                      [Examples.rs_F])) =
  [empty_rule_set Examples.K_plain; Examples.rs_F].
Proof.
  exact (proj1 (proj2 (C7_rule_sets_restored Examples.K_plain [] [Examples.rs_F]))
           10%nat Examples.F_p_p []).
Defined.

(* ================================================================= *)
(** ** Let expressions *)

(** C8.  On a [Let] the driver, past the step count and the cache, calls
    itself on [instantiate(let_body, let_value)] and hands back the result of
    that call: same output, same proof, same flag, and the same exception
    when the call raises. *)
Theorem C8_let_is_simplified_as_its_instance (K : kernel) (cfg : config) (fuel : nat)
        (n : name) (t : option expr) (v b : expr) (s s1 : state) :
  count_step K cfg s = (s1, Ret tt) ->
  (m_memoize cfg = true -> cache_find (m_cache s1) (Let n t v b) = None) ->
  snd (simplify K cfg (S fuel) (Let n t v b) s) =
  snd (simplify K cfg fuel (instantiate K b [v]) s1).
Proof.
  intros Hcount Hmiss. simpl. unfold simplify_step, bind at 1. rewrite Hcount.
  unfold simplify_lookup, m_max_sharing, simplify_kind, save.
  simpl let_body. simpl let_value.
  destruct (m_memoize cfg) eqn:Hm.
  - unfold bind at 1, lookup_cache. rewrite (Hmiss eq_refl). unfold bind. cbv beta iota.
    cbn [let_body let_value]. unfold m_max_sharing.
    destruct (simplify K cfg fuel (instantiate K b [v]) s1) as [s2 [r | x]]; simpl.
    + destruct r; reflexivity.
    + reflexivity.
  - unfold bind. cbv beta iota. cbn [let_body let_value].
    destruct (simplify K cfg fuel (instantiate K b [v]) s1) as [s2 [r | x]]; reflexivity.
Qed.

Lemma C8_witness :
  snd (simplify Examples.K_plain (Examples.config0 Examples.K_plain [] []) 6
         Examples.let_x_1 (Examples.state0 Examples.K_plain [] [])) =
  Ret (result_out (Value 3)).
Proof.
  unfold Examples.let_x_1.
  rewrite (C8_let_is_simplified_as_its_instance Examples.K_plain
             (Examples.config0 Examples.K_plain [] []) 5 (Examples.nm "x") None (Value 1)
             (App [Toy.cst "add"; Var 0; Value 2])
             (Examples.state0 Examples.K_plain [] [])
             (set_num_steps 1 (Examples.state0 Examples.K_plain [] []))).
  - vm_compute. reflexivity.
  - vm_compute. reflexivity.
  - intros _. vm_compute. reflexivity.
Defined.

(* ================================================================= *)
(** ** Constants without an environment object *)

(** C9.  [simplify_constant] looks the constant up when [unfold] or [eval] is
    on and dereferences the object without testing it: for a constant with
    no object the evaluation path [obj->is_builtin()] is a dereference of an
    empty optional (and so is [obj->get_value()] should [should_unfold]
    accept it); only with [eval] off and the object not unfolded does the
    function go on to [rewrite].  For a declared constant the function is the
    three-way choice of the source, and when every constant names an object
    no call of the driver ends in that dereference. *)
Theorem C9_undeclared_constant_is_dereferenced (K : kernel) (cfg : config)
        (simp : expr -> M result) (n : name) (s : state) :
  (find_object K n = None ->
   simplify_constant K cfg simp (Constant n) s =
   if (m_unfold cfg && should_unfold K None) || m_eval cfg
   then (s, Err NullDeref)
   else rewrite K cfg simp (Constant n) (result_out (Constant n)) s) /\
  (forall o,
      find_object K n = Some o ->
      simplify_constant K cfg simp (Constant n) s =
      if m_unfold cfg && should_unfold K (Some o) then
        if m_single_pass cfg then (s, Ret (result_out (get_value o)))
        else simp (get_value o) s
      else if m_eval cfg && is_builtin o then (s, Ret (result_out (get_value o)))
      else rewrite K cfg simp (Constant n) (result_out (Constant n)) s) /\
  ((forall n', find_object K n' <> None) ->
   forall fuel e, snd (simplify K cfg fuel e s) <> Err NullDeref).
Proof.
  split; [| split].
  - intros Hnone. unfold simplify_constant. cbv zeta. cbn [const_name]. rewrite Hnone.
    destruct (m_unfold cfg); destruct (m_eval cfg); simpl;
      try destruct (should_unfold K None); reflexivity.
  - intros o Hsome. unfold simplify_constant. cbv zeta. cbn [const_name]. rewrite Hsome.
    destruct (m_unfold cfg); destruct (m_eval cfg); simpl;
      try destruct (should_unfold K (Some o)); simpl;
      try destruct (m_single_pass cfg); try destruct (is_builtin o); reflexivity.
  - intros Hdecl fuel e.
    pose proof (declared_simplify K cfg Hdecl fuel e s Logic.I) as Hp. unfold post in Hp.
    destruct (simplify K cfg fuel e s) as [s' [r | x]]; simpl in *; [discriminate |].
    intros Heq. inversion Heq. contradiction.
Qed.

Lemma C9_witness :
  find_object Examples.K_empty (Examples.nm "a") = None /\
  snd (simplify_constant Examples.K_empty (Examples.config0 Examples.K_empty [] [])
         (simplify Examples.K_empty (Examples.config0 Examples.K_empty [] []) 5)
         (Constant (Examples.nm "a")) (Examples.state0 Examples.K_empty [] [])) =
  Err NullDeref.
Proof.
  split; [reflexivity |].
  rewrite (proj1 (C9_undeclared_constant_is_dereferenced Examples.K_empty
                    (Examples.config0 Examples.K_empty [] [])
                    (simplify Examples.K_empty (Examples.config0 Examples.K_empty [] []) 5)
                    (Examples.nm "a") (Examples.state0 Examples.K_empty [] [])) eq_refl).
  reflexivity.
Defined.

(** With the default options the run on an undeclared constant ends in the
    dereference. *)
Example undeclared_constant_run :
  snd (simplify_public Examples.K_empty 10 (Toy.cst "a") [] [] []) = Err NullDeref.
Proof. vm_compute. reflexivity. Qed.

(* ================================================================= *)
(** ** Casts *)

(** C10.  With [cast] imported, [simplify_app] on [cast A B H a] simplifies
    [a] and returns at once: the final state is the state after that one
    call, the output is the output of that call whatever the rule sets hold,
    an exception of the call is passed on; without proofs the result is the
    result for [a], with proofs it carries a heterogeneous proof. *)
Theorem C10_cast_returns_simplified_argument (K : kernel) (cfg : config)
        (simp : expr -> M result) (e : expr) (s : state) :
  m_has_cast cfg = true ->
  is_cast K e = true ->
  match simp (arg e 4) s with
  | (s', Ret res_a) =>
      exists r,
        simplify_app K cfg simp e s = (s', Ret r) /\
        m_out r = m_out res_a /\
        (m_proofs_enabled cfg = false -> r = res_a) /\
        (m_proofs_enabled cfg = true -> m_heq_proof r = true /\ m_proof r <> None)
  | (s', Err x) => simplify_app K cfg simp e s = (s', Err x)
  end.
Proof.
  intros Hcast Hiscast. unfold simplify_app. rewrite Hcast, Hiscast. cbn [andb].
  cbv beta iota zeta.
  destruct (m_proofs_enabled cfg) eqn:Hp.
  - unfold bind. destruct (simp (arg e 4) s) as [s' [res_a | x]]; [| reflexivity].
    destruct (m_proof res_a) as [Hac |]; unfold get_ctx, ret; simpl.
    + eexists. split; [reflexivity |]. simpl.
      repeat split; try discriminate.
    + eexists. split; [reflexivity |]. simpl.
      repeat split; try discriminate.
  - destruct (simp (arg e 4) s) as [s' [res_a | x]]; [| reflexivity].
    exists res_a. repeat split; discriminate.
Qed.

Lemma C10_witness :
  m_has_cast (Examples.config0 Examples.K_cast [] [Examples.rs_cast]) = true /\
  is_cast Examples.K_cast Examples.cast_term = true /\
  exists r,
    snd (simplify_app Examples.K_cast (Examples.config0 Examples.K_cast [] [Examples.rs_cast])
           (simplify Examples.K_cast (Examples.config0 Examples.K_cast [] [Examples.rs_cast]) 5)
           Examples.cast_term
           (Examples.state0 Examples.K_cast [] [Examples.rs_cast])) = Ret r /\
    m_out r = Value 3.
Proof.
  split; [reflexivity |]. split; [reflexivity |].
  pose proof (C10_cast_returns_simplified_argument Examples.K_cast
                (Examples.config0 Examples.K_cast [] [Examples.rs_cast])
                (simplify Examples.K_cast
                   (Examples.config0 Examples.K_cast [] [Examples.rs_cast]) 5)
                Examples.cast_term
                (Examples.state0 Examples.K_cast [] [Examples.rs_cast])
                eq_refl eq_refl) as H.
  vm_compute in H. destruct H as (r & Hrun & Hout & _).
  exists r. split; [| exact Hout].
  vm_compute. apply (f_equal snd) in Hrun. exact Hrun.
Defined.

(** The rule for the cast term fires when [cast] is not imported, and is
    passed over when it is. *)
Example cast_rule_not_tried :
  snd (simplify_public Examples.K_plain 10 Examples.cast_term [] [] [Examples.rs_cast]) =
    Ret (Toy.cst "zero", Toy.cst "Hcast") /\
  match snd (simplify_public Examples.K_cast 10 Examples.cast_term [] []
               [Examples.rs_cast]) with
  | Ret (e', _) => e' = Value 3
  | Err _ => False
  end.
Proof. split; vm_compute; reflexivity. Qed.

(* ================================================================= *)
(** ** Structural equality of expressions *)

Lemma name_eqb_refl (n : name) : name_eqb n n = true.
Proof.
  induction n as [| p IH s | p IH k]; simpl.
  - reflexivity.
  - rewrite String.eqb_refl. exact IH.
  - rewrite Z.eqb_refl. exact IH.
Qed.

Lemma expr_eqb_refl : forall e, expr_eqb e e = true.
Proof.
  fix IH 1. intros [i | n | | n | v | l | n d b | n d b | n t v b]; simpl.
  - apply Nat.eqb_refl.
  - apply name_eqb_refl.
  - reflexivity.
  - apply name_eqb_refl.
  - apply Z.eqb_refl.
  - induction l as [| x l IHl]; [reflexivity |]. rewrite (IH x). exact IHl.
  - rewrite (IH d), (IH b). reflexivity.
  - rewrite (IH d), (IH b). reflexivity.
  - rewrite (IH v), (IH b). destruct t as [t' |]; [rewrite (IH t') |]; reflexivity.
Qed.

Lemma name_eqb_trans (a : name) :
  forall b c, name_eqb a b = true -> name_eqb b c = true -> name_eqb a c = true.
Proof.
  induction a as [| p IH s | p IH k]; intros [| q t | q j] [| r u | r i]; simpl;
    try discriminate; auto.
  - intros H1 H2. apply andb_true_iff in H1 as [H1 H1']. apply andb_true_iff in H2 as [H2 H2'].
    apply String.eqb_eq in H1, H2. subst. rewrite String.eqb_refl. simpl. eauto.
  - intros H1 H2. apply andb_true_iff in H1 as [H1 H1']. apply andb_true_iff in H2 as [H2 H2'].
    apply Z.eqb_eq in H1, H2. subst. rewrite Z.eqb_refl. simpl. eauto.
Qed.

Lemma expr_eqb_trans :
  forall a b c, expr_eqb a b = true -> expr_eqb b c = true -> expr_eqb a c = true.
Proof.
  fix IH 1.
  intros [i | n | | n | v | l | n d b | n d b | n t v b]
         [i2 | n2 | | n2 | v2 | l2 | n2 d2 b2 | n2 d2 b2 | n2 t2 v2 b2]; simpl;
    try discriminate;
    intros [i3 | n3 | | n3 | v3 | l3 | n3 d3 b3 | n3 d3 b3 | n3 t3 v3 b3]; simpl;
    try discriminate; auto.
  - intros H1 H2. apply Nat.eqb_eq in H1, H2. subst. apply Nat.eqb_refl.
  - apply name_eqb_trans.
  - apply name_eqb_trans.
  - intros H1 H2. apply Z.eqb_eq in H1, H2. subst. apply Z.eqb_refl.
  - revert l2 l3. induction l as [| x l IHl]; intros [| y l2] [| z l3]; try discriminate; auto.
    intros H1 H2. apply andb_true_iff in H1 as [H1 H1']. apply andb_true_iff in H2 as [H2 H2'].
    rewrite (IH x y z H1 H2). simpl. exact (IHl l2 l3 H1' H2').
  - intros H1 H2. apply andb_true_iff in H1 as [H1 H1']. apply andb_true_iff in H2 as [H2 H2'].
    rewrite (IH d d2 d3 H1 H2), (IH b b2 b3 H1' H2'). reflexivity.
  - intros H1 H2. apply andb_true_iff in H1 as [H1 H1']. apply andb_true_iff in H2 as [H2 H2'].
    rewrite (IH d d2 d3 H1 H2), (IH b b2 b3 H1' H2'). reflexivity.
  - intros H1 H2. apply andb_true_iff in H1 as [H1 H1']. apply andb_true_iff in H2 as [H2 H2'].
    apply andb_true_iff in H1 as [H1t H1v]. apply andb_true_iff in H2 as [H2t H2v].
    rewrite (IH v v2 v3 H1v H2v), (IH b b2 b3 H1' H2').
    destruct t as [t' |], t2 as [t2' |], t3 as [t3' |]; try discriminate; auto.
    rewrite (IH t' t2' t3' H1t H2t). reflexivity.
Qed.

Lemma cache_find_insert (c : cache) (e : expr) (r : result) :
  cache_find (cache_insert c e r) e =
  Some (match cache_find c e with Some old => old | None => r end).
Proof.
  unfold cache_insert. destruct (cache_find c e) as [old |] eqn:Hfind.
  - exact Hfind.
  - simpl. rewrite expr_eqb_refl. reflexivity.
Qed.


(* ================================================================= *)
(** ** The flag of heterogeneous proofs *)

(** Invariant of the driver: a result flagged as heterogeneous carries a
    proof term, and the flag is raised only when [heq] or [cast] is imported. *)

Section Flags.

Variable K : kernel.
Variable cfg : config.

Lemma flag_ok_result_out (e : expr) : flag_ok cfg (result_out e).
Proof. intros H. discriminate. Qed.

Lemma flag_ok_homogeneous (e pr : expr) : flag_ok cfg (result_pr e pr false).
Proof. intros H. discriminate. Qed.

Lemma flag_ok_retarget (r : result) (e : expr) :
  flag_ok cfg r -> flag_ok cfg (mk_result e (m_proof r) (m_heq_proof r)).
Proof. intros H. exact H. Qed.

Lemma flag_ok_mk_trans_result (ctx : context) (a : expr) (b : result) (c H : expr) :
  flag_ok cfg b -> flag_ok cfg (mk_trans_result K cfg ctx a b c H).
Proof.
  intros Hb. unfold mk_trans_result.
  destruct (m_proofs_enabled cfg); [| apply flag_ok_result_out].
  destruct (m_proof b); [| apply flag_ok_homogeneous].
  destruct (m_heq_proof b) eqn:Hh; [| apply flag_ok_homogeneous].
  intros _. split; [discriminate | apply Hb, Hh].
Qed.

Lemma flag_ok_mk_trans_result_res (ctx : context) (a : expr) (b c : result) :
  flag_ok cfg b -> flag_ok cfg c -> flag_ok cfg (mk_trans_result_res K cfg ctx a b c).
Proof.
  intros Hb Hc. unfold mk_trans_result_res.
  destruct (m_proofs_enabled cfg); [| exact Hc].
  destruct (m_proof b) as [pb |] eqn:Hpb; [| exact Hc].
  destruct (m_proof c) as [pc |] eqn:Hpc.
  - destruct (m_heq_proof b) eqn:Hhb; simpl.
    + intros _. split; [discriminate | apply Hb, Hhb].
    + destruct (m_heq_proof c) eqn:Hhc; simpl.
      * intros _. split; [discriminate | apply Hc, Hhc].
      * apply flag_ok_homogeneous.
  - intros Hh. simpl in *. split; [discriminate | apply Hb, Hh].
Qed.

Lemma extend_proof_flag (ctx : context) (e : expr) (b : app_buffers) (i : nat)
      (pr pr' : expr) (h : bool) :
  (h = true -> m_has_heq cfg = true) ->
  extend_proof K cfg ctx e b i (pr, h) = Some (pr', true) -> m_has_heq cfg = true.
Proof.
  intros Hh. unfold extend_proof.
  destruct (m_has_heq cfg); [reflexivity |].
  destruct h; [discriminate (Hh eq_refl) |].
  cbn [andb]. destruct (nth i (ab_proofs b) None); discriminate.
Qed.

Lemma extend_proofs_flag (ctx : context) (e : expr) (b : app_buffers) (idx : list nat) :
  forall pr h pr',
    (h = true -> m_has_heq cfg = true) ->
    extend_proofs K cfg ctx e b idx (pr, h) = Some (pr', true) -> m_has_heq cfg = true.
Proof.
  induction idx as [| i rest IH]; intros pr h pr' Hh; cbn [extend_proofs].
  - intros Heq. inversion Heq; subst. auto.
  - destruct (extend_proof K cfg ctx e b i (pr, h)) as [[pr1 h1] |] eqn:Hstep;
      [| discriminate].
    apply IH. intros Hh1. subst h1. eapply extend_proof_flag; eassumption.
Qed.

Lemma seed_proof_flag (ctx : context) (e : expr) (b : app_buffers) (i : nat) (pr : expr) :
  seed_proof K cfg ctx e b i = Some (pr, true) -> m_has_heq cfg = true.
Proof.
  unfold seed_proof. destruct (m_has_heq cfg); [reflexivity |].
  cbn [andb]. destruct (Nat.eqb i 0); discriminate.
Qed.

Lemma build_congr_proof_flag (ctx : context) (e : expr) (b : app_buffers) (pr : expr) :
  build_congr_proof K cfg ctx e b = Built pr true -> m_has_heq cfg = true.
Proof.
  unfold build_congr_proof.
  destruct (Nat.eqb (skip_refl (ab_proofs b) 0) (num_args e)); [discriminate |].
  destruct (seed_proof K cfg ctx e b (skip_refl (ab_proofs b) 0)) as [[pr0 h0] |] eqn:Hseed;
    [| discriminate].
  match goal with |- context [extend_proofs K cfg ctx e b ?idx ?acc] =>
    destruct (extend_proofs K cfg ctx e b idx acc) as [[pr1 h1] |] eqn:Hext
  end; [| discriminate].
  intros Heq. inversion Heq; subst.
  eapply extend_proofs_flag; [| exact Hext].
  intros Hh0. subst h0. eapply seed_proof_flag. exact Hseed.
Qed.

Lemma flag_ok_built (ctx : context) (e out pr : expr) (b : app_buffers) (h : bool) :
  build_congr_proof K cfg ctx e b = Built pr h -> flag_ok cfg (result_pr out pr h).
Proof.
  intros Hb Hh. simpl in Hh. subst h. split; [discriminate |].
  rewrite (build_congr_proof_flag _ _ _ _ Hb). reflexivity.
Qed.

Lemma cache_find_flag_ok (c : cache) (e : expr) :
  Forall (fun kv => flag_ok cfg (snd kv)) c ->
  match cache_find c e with Some r => flag_ok cfg r | None => True end.
Proof.
  induction c as [| [k r] c IH]; simpl; intros Hc; [exact Logic.I |].
  inversion Hc; subst. simpl in *.
  destruct (expr_eqb k e); [assumption | apply IH; assumption].
Qed.

Lemma fl_set_context {A : Type} (phi : A -> Prop) (c : context) (m : M A) :
  hoare (cache_flag_ok cfg) phi any_exn m -> hoare (cache_flag_ok cfg) phi any_exn (set_context c m).
Proof. apply hoare_set_context; unfold cache_flag_ok, any_exn; simpl; auto. Qed.

Lemma fl_updt_rule_set {A : Type} (phi : A -> Prop) (fact proof : expr) (m : M A) :
  hoare (cache_flag_ok cfg) phi any_exn m ->
  hoare (cache_flag_ok cfg) phi any_exn (updt_rule_set K fact proof m).
Proof. apply hoare_updt_rule_set; unfold cache_flag_ok, any_exn; simpl; auto. Qed.

Lemma fl_flet_depth {A : Type} (phi : A -> Prop) (d : Z) (m : M A) :
  hoare (cache_flag_ok cfg) phi any_exn m -> hoare (cache_flag_ok cfg) phi any_exn (flet_depth d m).
Proof. apply hoare_flet_depth; unfold cache_flag_ok, any_exn; simpl; auto. Qed.

Lemma fl_freset_cache {A : Type} (phi : A -> Prop) (m : M A) :
  hoare (cache_flag_ok cfg) phi any_exn m -> hoare (cache_flag_ok cfg) phi any_exn (freset_cache m).
Proof. apply hoare_freset_cache; unfold cache_flag_ok, any_exn; simpl; auto. Qed.

Lemma fl_get_ctx : hoare (cache_flag_ok cfg) (fun _ => True) any_exn get_ctx.
Proof. apply hoare_read. auto. Qed.

Lemma fl_get_rule_sets : hoare (cache_flag_ok cfg) (fun _ => True) any_exn get_rule_sets.
Proof. apply hoare_read. auto. Qed.

Lemma fl_get_contextual_depth :
  hoare (cache_flag_ok cfg) (fun _ => True) any_exn get_contextual_depth.
Proof. apply hoare_read. auto. Qed.

Lemma fl_lookup_cache (e : expr) :
  hoare (cache_flag_ok cfg)
    (fun o => match o with Some r => flag_ok cfg r | None => True end) any_exn
    (lookup_cache e).
Proof. apply hoare_read. intros s Hs. apply cache_find_flag_ok, Hs. Qed.

Lemma fl_save (e : expr) (r : result) :
  flag_ok cfg r -> hoare (cache_flag_ok cfg) (flag_ok cfg) any_exn (save cfg e r).
Proof.
  intros Hr. unfold save. destruct (m_memoize cfg).
  - intros s Hs. unfold post, cache_flag_ok in *. simpl. split.
    + unfold cache_insert. destruct (cache_find (m_cache s) e); auto.
    + exact Hr.
  - apply hoare_ret, Hr.
Qed.

Lemma fl_count_step : hoare (cache_flag_ok cfg) (fun _ => True) any_exn (count_step K cfg).
Proof.
  intros s Hs. unfold count_step, post.
  destruct (interrupt_requested K (m_num_steps s)); simpl; [exact Logic.I |].
  match goal with |- context [if ?b then _ else _] => destruct b end; simpl; auto.
  exact Logic.I.
Qed.

#[local] Hint Resolve flag_ok_result_out flag_ok_homogeneous flag_ok_retarget
  flag_ok_mk_trans_result flag_ok_mk_trans_result_res flag_ok_built
  fl_get_ctx fl_get_rule_sets fl_get_contextual_depth fl_lookup_cache fl_save
  fl_count_step : fl.

Ltac fl_guard :=
  first [ apply fl_set_context | apply fl_updt_rule_set
        | apply fl_flet_depth | apply fl_freset_cache ].

Ltac fl := hoare_steps fl_guard ltac:(eauto with fl); eauto with fl.

Section Driver.

Variable simp : expr -> M result.
Hypothesis Hsimp : forall e, hoare (cache_flag_ok cfg) (flag_ok cfg) any_exn (simp e).

#[local] Hint Resolve Hsimp : fl.

Lemma fl_conditional_args (subst : list (option expr)) :
  forall ceq proof_args,
    hoare (cache_flag_ok cfg) (fun _ => True) any_exn
      (conditional_args K cfg simp subst ceq proof_args).
Proof.
  induction subst as [| [v |] rest IH]; intros ceq proof_args; simpl.
  - apply hoare_ret. exact Logic.I.
  - apply IH.
  - fl.
Qed.

#[local] Hint Resolve fl_conditional_args : fl.

Lemma fl_check_rule_fn (target : expr) (rule : rewrite_rule) :
  hoare (cache_flag_ok cfg) (fun _ => True) any_exn (check_rule_fn K cfg simp target rule).
Proof. unfold check_rule_fn. fl. Qed.

#[local] Hint Resolve fl_check_rule_fn : fl.

Lemma fl_find_match {X : Type} (fn : rewrite_rule -> M (option X)) (rules : list rewrite_rule) :
  (forall rule, hoare (cache_flag_ok cfg) (fun _ => True) any_exn (fn rule)) ->
  hoare (cache_flag_ok cfg) (fun _ => True) any_exn (find_match rules fn).
Proof.
  intros Hfn. induction rules as [| rule rest IH]; simpl.
  - apply hoare_ret. exact Logic.I.
  - fl.
Qed.

Lemma fl_rewrite_rule_sets (target : expr) (rss : list rewrite_rule_set) :
  hoare (cache_flag_ok cfg) (fun _ => True) any_exn (rewrite_rule_sets K cfg simp rss target).
Proof.
  induction rss as [| rs rest IH]; simpl.
  - apply hoare_ret. exact Logic.I.
  - apply hoare_bind. eapply hoare_conseq.
    + apply fl_find_match. intros rule. apply fl_check_rule_fn.
    + intros [v |] _; [apply hoare_ret; exact Logic.I | apply IH].
Qed.

#[local] Hint Resolve fl_rewrite_rule_sets : fl.

Lemma fl_rewrite (lhs : expr) (rhs : result) :
  flag_ok cfg rhs ->
  hoare (cache_flag_ok cfg) (flag_ok cfg) any_exn (rewrite K cfg simp lhs rhs).
Proof. intros Hrhs. unfold rewrite. fl. Qed.

#[local] Hint Resolve fl_rewrite : fl.

Lemma fl_rewrite_app (lhs : expr) (rhs : result) :
  flag_ok cfg rhs ->
  hoare (cache_flag_ok cfg) (flag_ok cfg) any_exn (rewrite_app K cfg simp lhs rhs).
Proof. intros Hrhs. unfold rewrite_app. fl. Qed.

#[local] Hint Resolve fl_rewrite_app : fl.

Lemma fl_simplify_app_default_arg (a : expr) (b : app_buffers) :
  hoare (cache_flag_ok cfg) (fun _ => True) any_exn (simplify_app_default_arg K cfg simp a b).
Proof. unfold simplify_app_default_arg. fl. Qed.

#[local] Hint Resolve fl_simplify_app_default_arg : fl.

Lemma fl_simplify_app_default_args (l : list expr) :
  forall b,
    hoare (cache_flag_ok cfg) (fun _ => True) any_exn (simplify_app_default_args K cfg simp l b).
Proof.
  induction l as [| a rest IH]; intros b; simpl.
  - apply hoare_ret. exact Logic.I.
  - fl.
Qed.

#[local] Hint Resolve fl_simplify_app_default_args : fl.

Lemma fl_simplify_app_default (e : expr) :
  hoare (cache_flag_ok cfg) (flag_ok cfg) any_exn (simplify_app_default K cfg simp e).
Proof. unfold simplify_app_default. fl. Qed.

#[local] Hint Resolve fl_simplify_app_default : fl.

Lemma fl_simplify_app_congr_arg (e : expr) (info : app_arg_info) (b : congr_buffers) :
  hoare (cache_flag_ok cfg) (early_flag_ok cfg) any_exn
    (simplify_app_congr_arg K cfg simp e info b).
Proof. unfold simplify_app_congr_arg. fl; simpl; auto. Qed.

#[local] Hint Resolve fl_simplify_app_congr_arg : fl.

Lemma fl_simplify_app_congr_args (e : expr) (infos : list app_arg_info) :
  forall b,
    hoare (cache_flag_ok cfg) (early_flag_ok cfg) any_exn
      (simplify_app_congr_args K cfg simp e infos b).
Proof.
  induction infos as [| info rest IH]; intros b; simpl.
  - apply hoare_ret. exact Logic.I.
  - fl; simpl; auto.
Qed.

#[local] Hint Resolve fl_simplify_app_congr_args : fl.

Lemma fl_simplify_app_congr (e : expr) (cg_thm : congr_theorem_info) :
  hoare (cache_flag_ok cfg) (flag_ok cfg) any_exn (simplify_app_congr K cfg simp e cg_thm).
Proof. unfold simplify_app_congr. fl. Qed.

#[local] Hint Resolve fl_simplify_app_congr : fl.

Lemma fl_simplify_app (e : expr) :
  hoare (cache_flag_ok cfg) (flag_ok cfg) any_exn (simplify_app K cfg simp e).
Proof.
  unfold simplify_app.
  destruct (m_has_cast cfg && is_cast K e) eqn:Hcast.
  - apply andb_true_iff in Hcast. destruct Hcast as [Hcast _].
    fl; intros _; (split; [discriminate | rewrite Hcast; apply orb_true_r]).
  - fl.
Qed.

Lemma fl_simplify_var (e : expr) :
  hoare (cache_flag_ok cfg) (flag_ok cfg) any_exn (simplify_var cfg e).
Proof. unfold simplify_var. fl. Qed.

Lemma fl_simplify_constant (e : expr) :
  hoare (cache_flag_ok cfg) (flag_ok cfg) any_exn (simplify_constant K cfg simp e).
Proof. unfold simplify_constant. fl; apply hoare_throw; intros; exact Logic.I. Qed.

Lemma fl_rewrite_lambda (lhs : expr) (rhs : result) :
  flag_ok cfg rhs ->
  hoare (cache_flag_ok cfg) (flag_ok cfg) any_exn (rewrite_lambda K cfg simp lhs rhs).
Proof. intros Hrhs. unfold rewrite_lambda. fl. Qed.

#[local] Hint Resolve fl_rewrite_lambda : fl.

Lemma fl_simplify_lambda (e : expr) :
  hoare (cache_flag_ok cfg) (flag_ok cfg) any_exn (simplify_lambda K cfg simp e).
Proof. unfold simplify_lambda. fl. Qed.

Lemma fl_simplify_pi (e : expr) :
  hoare (cache_flag_ok cfg) (flag_ok cfg) any_exn (simplify_pi K cfg simp e).
Proof. unfold simplify_pi. fl. Qed.

#[local] Hint Resolve fl_simplify_app fl_simplify_var fl_simplify_constant
  fl_simplify_lambda fl_simplify_pi : fl.

Lemma fl_simplify_kind (e : expr) :
  hoare (cache_flag_ok cfg) (flag_ok cfg) any_exn (simplify_kind K cfg simp e).
Proof. unfold simplify_kind. fl. Qed.

#[local] Hint Resolve fl_simplify_kind : fl.

Lemma fl_simplify_step (e : expr) :
  hoare (cache_flag_ok cfg) (flag_ok cfg) any_exn (simplify_step K cfg simp e).
Proof. unfold simplify_step, simplify_lookup, m_max_sharing. fl. Qed.

End Driver.

Lemma fl_simplify (fuel : nat) :
  forall e, hoare (cache_flag_ok cfg) (flag_ok cfg) any_exn (simplify K cfg fuel e).
Proof.
  induction fuel as [| fuel IH]; intros e; simpl.
  - apply hoare_throw. intros; exact Logic.I.
  - apply fl_simplify_step, IH.
Qed.

End Flags.

(** X1.  A result of the driver whose [m_heq_proof] flag is set carries a
    proof term, provided the cache the call starts from holds such results
    only: the dereference [*rhs.m_proof] that [ensure_homogeneous] performs
    under [lean_assert(rhs.m_proof)] never meets an empty optional. *)
Theorem X1_heterogeneous_result_carries_a_proof (K : kernel) (cfg : config) (fuel : nat)
        (e : expr) (s s' : state) (r : result) :
  cache_flag_ok cfg s ->
  simplify K cfg fuel e s = (s', Ret r) ->
  m_heq_proof r = true ->
  exists pr, m_proof r = Some pr.
Proof.
  intros Hs Hrun Hflag. pose proof (fl_simplify K cfg fuel e s Hs) as H.
  unfold post in H. rewrite Hrun in H. simpl in H. destruct H as [_ H].
  destruct (H Hflag) as [Hpr _]. destruct (m_proof r) as [pr |]; [eauto | contradiction].
Qed.

Lemma X1_witness :
  m_has_heq (Examples.config0 Examples.K_cast [] [Examples.rs_cast]) = false /\
  cache_flag_ok (Examples.config0 Examples.K_cast [] [Examples.rs_cast])
    (Examples.state0 Examples.K_cast [] [Examples.rs_cast]) /\
  snd (simplify Examples.K_cast (Examples.config0 Examples.K_cast [] [Examples.rs_cast]) 5
         Examples.cast_term (Examples.state0 Examples.K_cast [] [Examples.rs_cast])) =
    Ret Runs.three_from_cast /\
  m_heq_proof Runs.three_from_cast = true /\
  exists pr, m_proof Runs.three_from_cast = Some pr.
Proof.
  assert (Hc : cache_flag_ok (Examples.config0 Examples.K_cast [] [Examples.rs_cast])
                 (Examples.state0 Examples.K_cast [] [Examples.rs_cast])).
  { constructor. }
  split; [reflexivity |]. split; [exact Hc |]. split; [vm_compute; reflexivity |].
  split; [reflexivity |].
  apply (X1_heterogeneous_result_carries_a_proof Examples.K_cast
           (Examples.config0 Examples.K_cast [] [Examples.rs_cast]) 5 Examples.cast_term
           (Examples.state0 Examples.K_cast [] [Examples.rs_cast])
           (fst (simplify Examples.K_cast
                   (Examples.config0 Examples.K_cast [] [Examples.rs_cast]) 5
                   Examples.cast_term (Examples.state0 Examples.K_cast [] [Examples.rs_cast])))
           Runs.three_from_cast Hc).
  - vm_compute. reflexivity.
  - reflexivity.
Defined.

(** X2.  When neither [heq] nor [cast] is imported every result of the
    driver is homogeneous, and so is every result the call leaves in the
    cache: [lean_assert(!res_body.m_heq_proof)] in [simplify_lambda] and
    [simplify_pi] holds in such an environment.  (With [cast] imported and
    [heq] not, the run on [cast A B H (add 1 2)] returns a flagged result.) *)
Theorem X2_results_are_homogeneous_without_heq_and_cast (K : kernel) (cfg : config)
        (fuel : nat) (e : expr) (s s' : state) (r : result) :
  m_has_heq cfg = false ->
  m_has_cast cfg = false ->
  cache_flag_ok cfg s ->
  simplify K cfg fuel e s = (s', Ret r) ->
  m_heq_proof r = false /\ cache_flag_ok cfg s'.
Proof.
  intros Hheq Hcast Hs Hrun. pose proof (fl_simplify K cfg fuel e s Hs) as H.
  unfold post in H. rewrite Hrun in H. simpl in H. destruct H as [Hs' H].
  split; [| exact Hs'].
  destruct (m_heq_proof r) eqn:Hflag; [| reflexivity].
  destruct (H Hflag) as [_ Himp]. rewrite Hheq, Hcast in Himp. discriminate.
Qed.

Lemma X2_witness :
  m_has_heq (Examples.config0 Examples.K_plain [] [Examples.rs_cond]) = false /\
  m_has_cast (Examples.config0 Examples.K_plain [] [Examples.rs_cond]) = false /\
  snd (simplify Examples.K_plain (Examples.config0 Examples.K_plain [] [Examples.rs_cond]) 10
         (Toy.cst "a") (Examples.state0 Examples.K_plain [] [Examples.rs_cond])) =
    Ret Runs.b_from_a /\
  m_heq_proof Runs.b_from_a = false /\
  cache_flag_ok (Examples.config0 Examples.K_plain [] [Examples.rs_cond])
    (fst (simplify Examples.K_plain (Examples.config0 Examples.K_plain [] [Examples.rs_cond]) 10
            (Toy.cst "a") (Examples.state0 Examples.K_plain [] [Examples.rs_cond]))).
Proof.
  split; [reflexivity |]. split; [reflexivity |]. split; [vm_compute; reflexivity |].
  apply (X2_results_are_homogeneous_without_heq_and_cast Examples.K_plain
           (Examples.config0 Examples.K_plain [] [Examples.rs_cond]) 10 (Toy.cst "a")
           (Examples.state0 Examples.K_plain [] [Examples.rs_cond])).
  - reflexivity.
  - reflexivity.
  - constructor.
  - vm_compute. reflexivity.
Defined.

(* ================================================================= *)
(** ** The step counter *)

Section Counter.

Variable K : kernel.
Variable cfg : config.
Hypothesis Hmax : m_max_steps cfg < UINT_MAX.

Lemma counter_advances (fuel : nat) :
  forall k e s,
    steps_within cfg k s ->
    match simplify K cfg fuel e s with
    | (s', Ret _) => steps_within cfg (k + 1) s'
    | (_, Err _) => True
    end.
Proof.
  induction fuel as [| fuel IH]; intros k e s (H0 & Hk & HB); [exact Logic.I |].
  assert (Hsimp : forall e', hoare (steps_within cfg (k + 1)) (fun _ => True)
                               (fun _ _ => True) (simplify K cfg fuel e')).
  { intros e' s1 Hs1. specialize (IH (k + 1) e' s1 Hs1). unfold post.
    destruct (simplify K cfg fuel e' s1) as [s2 [r | x]]; simpl; [| exact Logic.I].
    split; [| exact Logic.I]. unfold steps_within in *. lia. }
  pose proof (ex_simplify_lookup K cfg (steps_within cfg (k + 1)) (fun _ => True)) as Hrest.
  specialize (Hrest (fun c s1 H => H) (fun d s1 H => H) (fun r s1 H => H)
                    (fun c s1 H => H) (fun _ _ => Logic.I) (simplify K cfg fuel) Hsimp e).
  simpl. unfold simplify_step, bind, count_step.
  destruct (interrupt_requested K (m_num_steps s)); [exact Logic.I |].
  assert (Hw : wrap32 (m_num_steps s + 1) = m_num_steps s + 1).
  { unfold wrap32. apply Z.mod_small. unfold UINT_MAX in Hmax. lia. }
  cbn [m_num_steps set_num_steps]. rewrite Hw.
  destruct (m_max_steps cfg <? m_num_steps s + 1) eqn:Hlt; [exact Logic.I |].
  apply Z.ltb_ge in Hlt.
  specialize (Hrest (set_num_steps (m_num_steps s + 1) s)).
  unfold post, steps_within in Hrest. simpl in Hrest.
  destruct (simplify_lookup K cfg (simplify K cfg fuel) e
              (set_num_steps (m_num_steps s + 1) s)) as [s' [a | x]]; simpl in *;
    [| exact Logic.I].
  destruct Hrest as [Hs' _]; [lia | exact Hs'].
Qed.

(** X3.  Under a bound below [UINT_MAX] a call of the driver that returns
    has advanced the step counter, and the counter is still within the
    bound: the increment does not wrap, and no call returns once the bound
    is passed. *)
Theorem X3_driver_call_advances_the_counter (fuel : nat) (e : expr) (s s' : state) (r : result) :
  0 <= m_num_steps s <= m_max_steps cfg ->
  simplify K cfg fuel e s = (s', Ret r) ->
  m_num_steps s < m_num_steps s' <= m_max_steps cfg.
Proof.
  intros [H0 HB] Hrun.
  pose proof (counter_advances fuel (m_num_steps s) e s) as H.
  rewrite Hrun in H. unfold steps_within in H. lia.
Qed.

End Counter.

Lemma X3_witness :
  m_max_steps (Examples.config0 Examples.K_plain Examples.opts_max_steps_10
                 [Examples.rs_cond]) < UINT_MAX /\
  snd (simplify Examples.K_plain
         (Examples.config0 Examples.K_plain Examples.opts_max_steps_10 [Examples.rs_cond]) 10
         (Toy.cst "a")
         (Examples.state0 Examples.K_plain Examples.opts_max_steps_10 [Examples.rs_cond])) =
    Ret Runs.b_from_a /\
  m_num_steps (Examples.state0 Examples.K_plain Examples.opts_max_steps_10 [Examples.rs_cond])
  < m_num_steps
      (fst (simplify Examples.K_plain
              (Examples.config0 Examples.K_plain Examples.opts_max_steps_10
                 [Examples.rs_cond]) 10 (Toy.cst "a")
              (Examples.state0 Examples.K_plain Examples.opts_max_steps_10
                 [Examples.rs_cond])))
  <= m_max_steps (Examples.config0 Examples.K_plain Examples.opts_max_steps_10
                    [Examples.rs_cond]).
Proof.
  split; [reflexivity |]. split; [vm_compute; reflexivity |].
  apply (X3_driver_call_advances_the_counter Examples.K_plain
           (Examples.config0 Examples.K_plain Examples.opts_max_steps_10 [Examples.rs_cond])
           eq_refl 10 (Toy.cst "a")
           (Examples.state0 Examples.K_plain Examples.opts_max_steps_10 [Examples.rs_cond])
           (fst (simplify Examples.K_plain
                   (Examples.config0 Examples.K_plain Examples.opts_max_steps_10
                      [Examples.rs_cond]) 10 (Toy.cst "a")
                   (Examples.state0 Examples.K_plain Examples.opts_max_steps_10
                      [Examples.rs_cond])))
           Runs.b_from_a).
  - split; discriminate.
  - vm_compute. reflexivity.
Defined.

(* ================================================================= *)
(** ** Memoization *)

Lemma simplify_kind_saves (K : kernel) (cfg : config) (simp : expr -> M result)
      (e : expr) (s s' : state) (r : result) :
  simplify_kind K cfg simp e s = (s', Ret r) ->
  exists s2 r0, save cfg e r0 s2 = (s', Ret r).
Proof.
  unfold simplify_kind.
  destruct e; unfold bind;
    try (match goal with |- context [let (_, _) := ?m s in _] =>
           destruct (m s) as [s2 [r0 | x]]; [| discriminate]
         end);
    intros H; eauto.
Qed.

(** X4.  With [memoize] on, a call of the driver that returns leaves an
    entry for its argument in the cache, and a second call on the same
    argument from the state it left is answered by that entry: it costs one
    step and changes nothing else. *)
Theorem X4_second_call_is_answered_from_the_cache (K : kernel) (cfg : config)
        (fuel : nat) (e : expr) (s s' : state) (r : result) :
  m_memoize cfg = true ->
  simplify K cfg (S fuel) e s = (s', Ret r) ->
  exists r',
    cache_find (m_cache s') e = Some r' /\
    forall fuel',
      interrupt_requested K (m_num_steps s') = false ->
      wrap32 (m_num_steps s' + 1) <= m_max_steps cfg ->
      simplify K cfg (S fuel') e s' =
      (set_num_steps (wrap32 (m_num_steps s' + 1)) s', Ret r').
Proof.
  intros Hmemo Hrun.
  assert (Hcached : exists r', cache_find (m_cache s') e = Some r').
  { simpl in Hrun. unfold simplify_step, bind at 1 in Hrun.
    destruct (count_step K cfg s) as [s1 [[] | x]]; [| discriminate].
    unfold simplify_lookup, m_max_sharing in Hrun. rewrite Hmemo in Hrun.
    unfold bind at 1, lookup_cache in Hrun.
    destruct (cache_find (m_cache s1) e) as [r1 |] eqn:Hfind.
    - unfold ret in Hrun. inversion Hrun; subst. eauto.
    - destruct (simplify_kind_saves _ _ _ _ _ _ _ Hrun) as (s2 & r0 & Hsave).
      unfold save in Hsave. rewrite Hmemo in Hsave. inversion Hsave; subst.
      simpl. rewrite cache_find_insert. eauto. }
  destruct Hcached as (r' & Hr'). exists r'. split; [exact Hr' |].
  intros fuel' Hint Hle. rewrite simplify_entry by exact Hint.
  apply Z.ltb_ge in Hle. rewrite Hle.
  unfold simplify_lookup, m_max_sharing. rewrite Hmemo.
  unfold bind, lookup_cache. simpl. rewrite Hr'. reflexivity.
Qed.

Lemma X4_witness :
  m_memoize (Examples.config0 Examples.K_plain [] [Examples.rs_cond]) = true /\
  snd (simplify Examples.K_plain (Examples.config0 Examples.K_plain [] [Examples.rs_cond]) 10
         (Toy.cst "a") (Examples.state0 Examples.K_plain [] [Examples.rs_cond])) =
    Ret Runs.b_from_a /\
  exists r',
    cache_find
      (m_cache (fst (simplify Examples.K_plain
                       (Examples.config0 Examples.K_plain [] [Examples.rs_cond]) 10
                       (Toy.cst "a")
                       (Examples.state0 Examples.K_plain [] [Examples.rs_cond]))))
      (Toy.cst "a") = Some r' /\
    snd (simplify Examples.K_plain (Examples.config0 Examples.K_plain [] [Examples.rs_cond]) 1
           (Toy.cst "a")
           (fst (simplify Examples.K_plain
                   (Examples.config0 Examples.K_plain [] [Examples.rs_cond]) 10
                   (Toy.cst "a")
                   (Examples.state0 Examples.K_plain [] [Examples.rs_cond])))) = Ret r'.
Proof.
  split; [reflexivity |]. split; [vm_compute; reflexivity |].
  destruct (X4_second_call_is_answered_from_the_cache Examples.K_plain
              (Examples.config0 Examples.K_plain [] [Examples.rs_cond]) 9 (Toy.cst "a")
              (Examples.state0 Examples.K_plain [] [Examples.rs_cond])
              (fst (simplify Examples.K_plain
                      (Examples.config0 Examples.K_plain [] [Examples.rs_cond]) 10
                      (Toy.cst "a")
                      (Examples.state0 Examples.K_plain [] [Examples.rs_cond])))
              Runs.b_from_a) as (r' & Hfind & Hnext).
  - reflexivity.
  - vm_compute. reflexivity.
  - exists r'. split; [exact Hfind |]. rewrite (Hnext 0%nat).
    + reflexivity.
    + reflexivity.
    + apply Z.leb_le. vm_compute. reflexivity.
Defined.

(* ================================================================= *)
(** ** What a call leaves behind *)

(** X5.  However a call of the driver ends, by a result or by an
    exception, the context and the contextual depth are what they were
    before the call: every [set_context] and every [flet] on the depth has
    been undone on the way out. *)
Theorem X5_driver_restores_context_and_depth (K : kernel) (cfg : config) (fuel : nat)
        (e : expr) (s : state) :
  m_ctx (fst (simplify K cfg fuel e s)) = m_ctx s /\
  m_contextual_depth (fst (simplify K cfg fuel e s)) = m_contextual_depth s.
Proof. destruct (frames_simplify K cfg fuel e s) as (_ & H1 & H2). split; assumption. Qed.

Lemma simplifier_call_start (K : kernel) (cfg : config) (fuel : nat) (e : expr)
      (ctx : context) (s : state) :
  snd (simplifier_call K cfg fuel e ctx s) =
  snd ((r <- simplify K cfg fuel e ;;
        ctx' <- get_ctx ;;
        ret (m_out r, get_proof_of K ctx' r))
         (mk_state ctx (m_rule_sets s) [] (m_contextual_depth s) 0)).
Proof.
  unfold simplifier_call, set_context, flet_ctx, freset_cache, reset_num_steps.
  unfold bind at 1. cbv beta iota.
  change (set_num_steps 0 (set_cache [] (set_ctx ctx s))) with
    (mk_state ctx (m_rule_sets s) [] (m_contextual_depth s) 0).
  match goal with |- context [bind ?m ?k ?s1] => destruct (bind m k s1) as [s2 o] end.
  reflexivity.
Qed.

(** X6.  [operator()] leaves only the step counter changed: context, cache,
    rule sets and contextual depth are as before, whatever the outcome; and
    what a call returns does not depend on the calls made before it on the
    same simplifier (the counter starts at 0 and the cache empty in each). *)
Theorem X6_top_level_call_leaves_only_the_counter (K : kernel) (cfg : config)
        (fuel : nat) (e : expr) (ctx : context) (s : state) :
  (m_ctx (fst (simplifier_call K cfg fuel e ctx s)) = m_ctx s /\
   m_cache (fst (simplifier_call K cfg fuel e ctx s)) = m_cache s /\
   m_rule_sets (fst (simplifier_call K cfg fuel e ctx s)) = m_rule_sets s /\
   m_contextual_depth (fst (simplifier_call K cfg fuel e ctx s)) = m_contextual_depth s) /\
  (forall fuel0 e0 ctx0,
      snd (simplifier_call K cfg fuel e ctx
             (fst (simplifier_call K cfg fuel0 e0 ctx0 s))) =
      snd (simplifier_call K cfg fuel e ctx s)).
Proof.
  assert (Hkeep : forall fuel e ctx s,
             m_ctx (fst (simplifier_call K cfg fuel e ctx s)) = m_ctx s /\
             m_cache (fst (simplifier_call K cfg fuel e ctx s)) = m_cache s /\
             m_rule_sets (fst (simplifier_call K cfg fuel e ctx s)) = m_rule_sets s /\
             m_contextual_depth (fst (simplifier_call K cfg fuel e ctx s)) =
             m_contextual_depth s).
  { clear. intros fuel e ctx s.
    destruct (frames_simplifier_call K cfg fuel e ctx s) as (H1 & H2 & H3).
    repeat split; try assumption.
    unfold simplifier_call, set_context, flet_ctx, freset_cache.
    match goal with |- context [bind ?m ?k ?s1] => destruct (bind m k s1) as [s2 o] end.
    reflexivity. }
  split; [apply Hkeep |].
  intros fuel0 e0 ctx0. rewrite !simplifier_call_start.
  destruct (Hkeep fuel0 e0 ctx0 s) as (_ & _ & Hr & Hd). rewrite Hr, Hd. reflexivity.
Qed.


(* ================================================================= *)
(** ** The cache under a binder and under a hypothesis *)

Lemma keeps_cache_set_context {A : Type} (c : context) (m : M A) :
  keeps_cache (set_context c m).
Proof.
  intros s. unfold set_context, flet_ctx, freset_cache.
  destruct (m (set_cache [] (set_ctx c s))) as [s' o]. reflexivity.
Qed.

Lemma keeps_cache_freset {A : Type} (m : M A) : keeps_cache (freset_cache m).
Proof. intros s. unfold freset_cache. destruct (m (set_cache [] s)) as [s' o]. reflexivity. Qed.

Lemma keeps_cache_updt {A : Type} (K : kernel) (fact proof : expr) (m : M A) :
  keeps_cache m -> keeps_cache (updt_rule_set K fact proof m).
Proof.
  intros Hm s. unfold updt_rule_set. destruct (m_rule_sets s) as [| m_old rest]; [apply Hm |].
  match goal with |- context [m ?s1] => specialize (Hm s1); destruct (m s1) as [s' o] end.
  simpl in *. exact Hm.
Qed.

Lemma keeps_cache_flet_depth {A : Type} (d : Z) (m : M A) :
  keeps_cache m -> keeps_cache (flet_depth d m).
Proof.
  intros Hm s. unfold flet_depth. specialize (Hm (set_contextual_depth d s)).
  destruct (m (set_contextual_depth d s)) as [s' o]. simpl in *. exact Hm.
Qed.

Lemma keeps_cache_bind {A B : Type} (m : M A) (k : A -> M B) :
  keeps_cache m -> (forall a, keeps_cache (k a)) -> keeps_cache (bind m k).
Proof.
  intros Hm Hk s. unfold bind. specialize (Hm s).
  destruct (m s) as [s' [a | x]]; simpl in *.
  - rewrite Hk. exact Hm.
  - exact Hm.
Qed.

Lemma keeps_cache_ret {A : Type} (a : A) : keeps_cache (ret a).
Proof. intros s. reflexivity. Qed.

Lemma keeps_cache_read {A : Type} (f : state -> A) : keeps_cache (fun s => (s, Ret (f s))).
Proof. intros s. reflexivity. Qed.

(** X7.  [simplify_lambda] and [simplify_pi] hand the cache back as they
    found it, whatever the calls under the binder stored and however they
    ended: entries made in the extended context are dropped. *)
Theorem X7_cache_entries_under_a_binder_do_not_leak (K : kernel) (cfg : config)
        (simp : expr -> M result) (e : expr) (s : state) :
  m_cache (fst (simplify_lambda K cfg simp e s)) = m_cache s /\
  m_cache (fst (simplify_pi K cfg simp e s)) = m_cache s.
Proof.
  split.
  - unfold simplify_lambda. destruct (m_has_heq cfg); [reflexivity |].
    apply (keeps_cache_bind get_ctx); [apply keeps_cache_read |].
    intros ctx. apply keeps_cache_set_context.
  - unfold simplify_pi.
    apply (keeps_cache_bind get_ctx); [apply keeps_cache_read |].
    intros ctx. destruct (m_has_heq cfg); [apply keeps_cache_ret |].
    destruct (is_proposition K ctx e); [apply keeps_cache_set_context | apply keeps_cache_ret].
Qed.

Lemma cache_blind_freset {A : Type} (m : M A) : cache_blind (freset_cache m).
Proof. intros s outer. unfold freset_cache. simpl.
  change (set_cache [] (set_cache outer s)) with (set_cache [] s).
  destruct (m (set_cache [] s)) as [s' o]. reflexivity.
Qed.

Lemma cache_blind_updt {A : Type} (K : kernel) (fact proof : expr) (m : M A) :
  cache_blind m -> cache_blind (updt_rule_set K fact proof m).
Proof.
  intros Hm s outer. unfold updt_rule_set. simpl.
  destruct (m_rule_sets s) as [| m_old rest]; [apply Hm |].
  match goal with |- snd (let '(_, _) := m ?s1 in _) = snd (let '(_, _) := m ?s2 in _) =>
    change s1 with (set_cache outer s2); specialize (Hm s2 outer);
    destruct (m (set_cache outer s2)) as [sa oa]; destruct (m s2) as [sb ob]
  end.
  exact Hm.
Qed.

Lemma cache_blind_flet_depth {A : Type} (d : Z) (m : M A) :
  cache_blind m -> cache_blind (flet_depth d m).
Proof.
  intros Hm s outer. unfold flet_depth. simpl.
  change (set_contextual_depth d (set_cache outer s)) with
    (set_cache outer (set_contextual_depth d s)).
  specialize (Hm (set_contextual_depth d s) outer).
  destruct (m (set_cache outer (set_contextual_depth d s))) as [sa oa].
  destruct (m (set_contextual_depth d s)) as [sb ob]. exact Hm.
Qed.

Lemma cache_blind_bind_depth {A : Type} (k : Z -> M A) :
  (forall d, cache_blind (k d)) -> cache_blind (bind get_contextual_depth k).
Proof. intros Hk s outer. unfold bind, get_contextual_depth. simpl. apply Hk. Qed.

Lemma cache_blind_bind_pure {A B : Type} (m : M A) (k : A -> M B) (g : A -> B) :
  (forall a s, k a s = (s, Ret (g a))) -> cache_blind m -> cache_blind (bind m k).
Proof.
  intros Hk Hm s outer. unfold bind. specialize (Hm s outer).
  destruct (m (set_cache outer s)) as [sa [a1 | x1]];
    destruct (m s) as [sb [a2 | x2]]; simpl in Hm; try discriminate.
  - inversion Hm; subst. rewrite !Hk. reflexivity.
  - simpl. inversion Hm; subst. reflexivity.
Qed.

(** X8.  With proofs on, an argument that a congruence theorem simplifies
    under a hypothesis is simplified on a cache of its own: the outcome of
    the iteration is the same whatever the cache outside holds, and that
    cache is handed back untouched. *)
Theorem X8_outer_cache_is_not_consulted_under_hypothesis (K : kernel) (cfg : config)
        (simp : expr -> M result) (e : expr) (info : app_arg_info) (c : congr_context)
        (b : congr_buffers) (s : state) (outer : cache) :
  m_proofs_enabled cfg = true ->
  should_simplify info = true ->
  get_context info = Some c ->
  snd (simplify_app_congr_arg K cfg simp e info b (set_cache outer s)) =
  snd (simplify_app_congr_arg K cfg simp e info b s) /\
  m_cache (fst (simplify_app_congr_arg K cfg simp e info b s)) = m_cache s.
Proof.
  intros Hon Hsimplify Hctx. unfold simplify_app_congr_arg.
  rewrite Hsimplify, Hctx, Hon. cbn [negb]. cbv beta iota zeta. split.
  - apply (cache_blind_bind_pure _ _
             (fun r => match r with
                       | inl res => inl res
                       | inr b' => inr (mark_changed (get_arg_pos info)
                                          (arg e (get_arg_pos info)) b')
                       end)).
    + intros [res | b'] s0; reflexivity.
    + apply cache_blind_bind_depth. intros d. apply cache_blind_flet_depth.
      apply cache_blind_bind_depth. intros d'. apply cache_blind_updt, cache_blind_freset.
  - apply keeps_cache_bind.
    + apply (keeps_cache_bind get_contextual_depth); [apply keeps_cache_read |].
      intros d. apply keeps_cache_flet_depth.
      apply (keeps_cache_bind get_contextual_depth); [apply keeps_cache_read |].
      intros d'. apply keeps_cache_updt, keeps_cache_freset.
    + intros [res | b']; apply keeps_cache_ret.
Qed.

Lemma X8_witness :
  m_proofs_enabled (Examples.config0 Examples.K_plain [] [Examples.rs_F]) = true /\
  should_simplify Runs.info_F2 = true /\
  get_context Runs.info_F2 = Some (mk_congr_context 1 false true) /\
  snd (simplify_app_congr_arg Examples.K_plain
         (Examples.config0 Examples.K_plain [] [Examples.rs_F])
         (simplify Examples.K_plain (Examples.config0 Examples.K_plain [] [Examples.rs_F]) 5)
         Examples.F_p_p Runs.info_F2 Runs.buffers_F
         (set_cache Runs.outer_cache (Examples.state0 Examples.K_plain [] [Examples.rs_F]))) =
  snd (simplify_app_congr_arg Examples.K_plain
         (Examples.config0 Examples.K_plain [] [Examples.rs_F])
         (simplify Examples.K_plain (Examples.config0 Examples.K_plain [] [Examples.rs_F]) 5)
         Examples.F_p_p Runs.info_F2 Runs.buffers_F
         (Examples.state0 Examples.K_plain [] [Examples.rs_F])) /\
  m_cache (fst (simplify_app_congr_arg Examples.K_plain
                  (Examples.config0 Examples.K_plain [] [Examples.rs_F])
                  (simplify Examples.K_plain
                     (Examples.config0 Examples.K_plain [] [Examples.rs_F]) 5)
                  Examples.F_p_p Runs.info_F2 Runs.buffers_F
                  (Examples.state0 Examples.K_plain [] [Examples.rs_F]))) =
  m_cache (Examples.state0 Examples.K_plain [] [Examples.rs_F]).
Proof.
  split; [reflexivity |]. split; [reflexivity |]. split; [reflexivity |].
  exact (X8_outer_cache_is_not_consulted_under_hypothesis Examples.K_plain
           (Examples.config0 Examples.K_plain [] [Examples.rs_F])
           (simplify Examples.K_plain (Examples.config0 Examples.K_plain [] [Examples.rs_F]) 5)
           Examples.F_p_p Runs.info_F2 (mk_congr_context 1 false true) Runs.buffers_F
           (Examples.state0 Examples.K_plain [] [Examples.rs_F]) Runs.outer_cache
           eq_refl eq_refl eq_refl).
Defined.

(* ================================================================= *)
(** ** Normal forms *)

Section NormalForms.

Variable K : kernel.
Variable cfg : config.
Variable simp : expr -> M result.

Lemma no_matchb_sound (rss : list rewrite_rule_set) (target : expr) :
  no_matchb K rss target = true -> no_match K rss target.
Proof.
  unfold no_matchb. intros Hall rs rule Hrs Hrule.
  rewrite forallb_forall in Hall. specialize (Hall rs Hrs).
  rewrite forallb_forall in Hall. specialize (Hall rule Hrule).
  destruct (hop_match K (get_lhs rule) target (get_num_args rule)); [discriminate | reflexivity].
Qed.

Lemma find_match_no_match (target : expr) (rules : list rewrite_rule) (s : state) :
  (forall rule, In rule rules ->
                hop_match K (get_lhs rule) target (get_num_args rule) = None) ->
  find_match rules (check_rule_fn K cfg simp target) s = (s, Ret None).
Proof.
  induction rules as [| rule rest IH]; intros Hno; simpl; [reflexivity |].
  unfold bind, check_rule_fn. rewrite (Hno rule (or_introl eq_refl)).
  unfold ret. apply IH. intros r Hr. apply Hno. right. exact Hr.
Qed.

Lemma rewrite_rule_sets_no_match (target : expr) (rss : list rewrite_rule_set) (s : state) :
  no_match K rss target ->
  rewrite_rule_sets K cfg simp rss target s = (s, Ret None).
Proof.
  induction rss as [| rs rest IH]; intros Hno; simpl; [reflexivity |].
  unfold bind. rewrite find_match_no_match.
  - apply IH. intros rs' rule Hrs Hrule. apply (Hno rs' rule); [right |]; assumption.
  - intros rule Hrule. apply (Hno rs rule); [left; reflexivity | exact Hrule].
Qed.

Lemma rewrite_no_match (lhs : expr) (rhs : result) (s : state) :
  no_match K (m_rule_sets s) (m_out rhs) ->
  rewrite K cfg simp lhs rhs s =
  (if negb (m_single_pass cfg) && negb (expr_eqb lhs (m_out rhs))
   then new_rhs <- simp (m_out rhs) ;;
        ctx <- get_ctx ;;
        ret (mk_trans_result_res K cfg ctx lhs rhs new_rhs)
   else ret rhs) s.
Proof.
  intros Hno. unfold rewrite. cbv zeta. unfold bind at 1, get_rule_sets.
  unfold bind at 1. rewrite (rewrite_rule_sets_no_match _ _ _ Hno). reflexivity.
Qed.

(** X9.  When no rule of the current rule sets has a left-hand side that
    matches the target, [rewrite] hands back the result it was given and
    leaves the state alone, provided the run is single pass or the result
    is still the term the caller started from; the driver is not called. *)
Theorem X9_unmatched_term_is_left_alone (lhs : expr) (rhs : result) (s : state) :
  no_match K (m_rule_sets s) (m_out rhs) ->
  m_single_pass cfg = true \/ expr_eqb lhs (m_out rhs) = true ->
  rewrite K cfg simp lhs rhs s = (s, Ret rhs).
Proof.
  intros Hno Hstop. rewrite (rewrite_no_match _ _ _ Hno).
  destruct Hstop as [H | H]; rewrite H; [| rewrite andb_false_r]; reflexivity.
Qed.

End NormalForms.

Lemma no_match_c :
  no_match Examples.K_plain
    (m_rule_sets (Examples.state0 Examples.K_plain [] [Examples.rs_cond])) (Toy.cst "c").
Proof. apply no_matchb_sound. vm_compute. reflexivity. Qed.

Lemma X9_witness :
  no_match Examples.K_plain
    (m_rule_sets (Examples.state0 Examples.K_plain [] [Examples.rs_cond]))
    (m_out (result_out (Toy.cst "c"))) /\
  expr_eqb (Toy.cst "c") (m_out (result_out (Toy.cst "c"))) = true /\
  rewrite Examples.K_plain (Examples.config0 Examples.K_plain [] [Examples.rs_cond])
    (simplify Examples.K_plain (Examples.config0 Examples.K_plain [] [Examples.rs_cond]) 5)
    (Toy.cst "c") (result_out (Toy.cst "c"))
    (Examples.state0 Examples.K_plain [] [Examples.rs_cond]) =
  (Examples.state0 Examples.K_plain [] [Examples.rs_cond], Ret (result_out (Toy.cst "c"))).
Proof.
  split; [exact no_match_c |]. split; [reflexivity |].
  apply X9_unmatched_term_is_left_alone; [exact no_match_c | right; reflexivity].
Defined.

(** X10.  With [unfold] and [eval] off, a constant that no rule matches is a
    normal form: past the step count and a cache miss the driver returns the
    constant itself, without proof, and at most adds that entry to the
    cache. *)
Theorem X10_unmatched_constant_is_a_normal_form (K : kernel) (cfg : config) (fuel : nat)
        (n : name) (s s1 : state) :
  m_unfold cfg = false ->
  m_eval cfg = false ->
  count_step K cfg s = (s1, Ret tt) ->
  cache_find (m_cache s1) (Constant n) = None ->
  no_match K (m_rule_sets s1) (Constant n) ->
  simplify K cfg (S fuel) (Constant n) s =
  ((if m_memoize cfg
    then set_cache (cache_insert (m_cache s1) (Constant n) (result_out (Constant n))) s1
    else s1), Ret (result_out (Constant n))).
Proof.
  intros Hunfold Heval Hstep Hmiss Hno. simpl.
  unfold simplify_step, bind at 1. rewrite Hstep.
  unfold simplify_lookup, m_max_sharing, lookup_cache.
  assert (Hkind : simplify_kind K cfg (simplify K cfg fuel) (Constant n) s1 =
                  ((if m_memoize cfg
                    then set_cache (cache_insert (m_cache s1) (Constant n)
                                      (result_out (Constant n))) s1
                    else s1), Ret (result_out (Constant n)))).
  { unfold simplify_kind, simplify_constant. rewrite Hunfold, Heval. simpl.
    unfold bind. rewrite rewrite_no_match by exact Hno.
    cbn [m_out result_out]. rewrite expr_eqb_refl, andb_false_r. unfold ret.
    unfold save, m_max_sharing. destruct (m_memoize cfg); reflexivity. }
  destruct (m_memoize cfg) eqn:Hmemo; [| exact Hkind].
  unfold bind at 1. rewrite Hmiss. exact Hkind.
Qed.

Lemma X10_witness :
  m_unfold (Examples.config0 Examples.K_plain Runs.opts_eval_off [Examples.rs_cond]) = false /\
  m_eval (Examples.config0 Examples.K_plain Runs.opts_eval_off [Examples.rs_cond]) = false /\
  snd (simplify Examples.K_plain
         (Examples.config0 Examples.K_plain Runs.opts_eval_off [Examples.rs_cond]) 1
         (Constant (Examples.nm "c"))
         (Examples.state0 Examples.K_plain Runs.opts_eval_off [Examples.rs_cond])) =
  Ret (result_out (Constant (Examples.nm "c"))).
Proof.
  split; [reflexivity |]. split; [reflexivity |].
  rewrite (X10_unmatched_constant_is_a_normal_form Examples.K_plain
             (Examples.config0 Examples.K_plain Runs.opts_eval_off [Examples.rs_cond]) 0
             (Examples.nm "c")
             (Examples.state0 Examples.K_plain Runs.opts_eval_off [Examples.rs_cond])
             (set_num_steps 1
                (Examples.state0 Examples.K_plain Runs.opts_eval_off [Examples.rs_cond]))).
  - reflexivity.
  - reflexivity.
  - reflexivity.
  - vm_compute. reflexivity.
  - reflexivity.
  - exact no_match_c.
Defined.

(** X11.  Variables, [Type], metavariables and values are returned as they
    are, without proof, whatever the rule sets hold: past the step count and
    a cache miss no rule is tried on them and the driver is not called
    again. *)
Theorem X11_atoms_are_returned_unchanged (K : kernel) (cfg : config) (fuel : nat)
        (e : expr) (s s1 : state) :
  is_atom e = true ->
  count_step K cfg s = (s1, Ret tt) ->
  cache_find (m_cache s1) e = None ->
  simplify K cfg (S fuel) e s =
  ((if m_memoize cfg then set_cache (cache_insert (m_cache s1) e (result_out e)) s1 else s1),
   Ret (result_out e)).
Proof.
  intros Hatom Hstep Hmiss. simpl.
  unfold simplify_step, bind at 1. rewrite Hstep.
  unfold simplify_lookup, m_max_sharing, lookup_cache.
  assert (Hkind : simplify_kind K cfg (simplify K cfg fuel) e s1 =
                  ((if m_memoize cfg
                    then set_cache (cache_insert (m_cache s1) e (result_out e)) s1
                    else s1), Ret (result_out e))).
  { destruct e; try discriminate; unfold simplify_kind, simplify_var, bind, save, m_max_sharing;
      destruct (m_has_heq cfg), (m_memoize cfg); reflexivity. }
  destruct (m_memoize cfg) eqn:Hmemo; [| exact Hkind].
  unfold bind at 1. rewrite Hmiss. exact Hkind.
Qed.

Lemma X11_witness :
  is_atom (Var 0) = true /\
  snd (simplify Examples.K_plain (Examples.config0 Examples.K_plain [] [Examples.rs_cond]) 1
         (Var 0) (Examples.state0 Examples.K_plain [] [Examples.rs_cond])) =
  Ret (result_out (Var 0)).
Proof.
  split; [reflexivity |].
  rewrite (X11_atoms_are_returned_unchanged Examples.K_plain
             (Examples.config0 Examples.K_plain [] [Examples.rs_cond]) 0 (Var 0)
             (Examples.state0 Examples.K_plain [] [Examples.rs_cond])
             (set_num_steps 1 (Examples.state0 Examples.K_plain [] [Examples.rs_cond]))).
  - reflexivity.
  - reflexivity.
  - vm_compute. reflexivity.
  - reflexivity.
Defined.

(* ================================================================= *)
(** ** The proof of a fired rule *)

Lemma subst_resize_length (num : nat) (l : list (option expr)) :
  List.length (subst_resize num l) = num.
Proof.
  unfold subst_resize. rewrite length_firstn, length_app, repeat_length. lia.
Qed.

Lemma found_all_args_values (subst : list (option expr)) :
  forall vals, found_all_args subst = Some vals -> subst = map Some vals.
Proof.
  induction subst as [| [v |] rest IH]; simpl; intros vals H.
  - inversion H. reflexivity.
  - destruct (found_all_args rest) as [vs |]; [| discriminate].
    inversion H. simpl. rewrite (IH vs eq_refl). reflexivity.
  - discriminate.
Qed.

Section RuleArguments.

Variable K : kernel.
Variable cfg : config.
Variable simp : expr -> M result.

(** The loop of the conditional branch pushes one proof argument per entry
    of the substitution when proofs are on, and none otherwise. *)
Lemma conditional_args_proof_args (subst : list (option expr)) :
  forall ceq pa s s' ceq' pa',
    conditional_args K cfg simp subst ceq pa s = (s', Ret (Some (ceq', pa'))) ->
    if m_proofs_enabled cfg
    then exists extra, pa' = pa ++ extra /\ List.length extra = List.length subst
    else pa' = pa.
Proof.
  induction subst as [| [v |] rest IH]; intros ceq pa s s' ceq' pa' Hrun.
  - simpl in Hrun. inversion Hrun; subst.
    destruct (m_proofs_enabled cfg); [exists []; rewrite app_nil_r; auto | reflexivity].
  - simpl in Hrun. apply IH in Hrun.
    destruct (m_proofs_enabled cfg); [| exact Hrun].
    destruct Hrun as (extra & -> & Hlen). exists (v :: extra).
    rewrite <- app_assoc. simpl. auto.
  - simpl in Hrun. unfold bind at 1, get_ctx in Hrun.
    destruct (is_proposition K (m_ctx s) (abst_domain ceq)); [| discriminate].
    unfold bind at 1 in Hrun.
    destruct (simp (abst_domain ceq) s) as [s1 [d_res | x]]; [| discriminate].
    destruct (expr_eqb (m_out d_res) (True_ K)); [| discriminate].
    destruct (m_proofs_enabled cfg) eqn:Hon.
    + apply IH in Hrun.
      destruct Hrun as (extra & -> & Hlen).
      eexists (_ :: extra). rewrite <- app_assoc. simpl. split; [reflexivity | auto].
    + destruct (is_arrow K ceq); [| discriminate].
      apply IH in Hrun. exact Hrun.
Qed.

(** X12.  With proofs on, the proof of a rule that fires is the rule's proof
    applied to exactly one argument per parameter of the rule, on the fully
    matched branch (the matched values) and on the conditional branch (the
    matched values and the proofs found for the premises); a rule without
    parameters contributes its proof as it is. *)
Theorem X12_fired_rule_proof_takes_one_argument_per_parameter
        (target : expr) (rule : rewrite_rule) (s s' : state) (new_rhs new_proof : expr) :
  m_proofs_enabled cfg = true ->
  check_rule_fn K cfg simp target rule s = (s', Ret (Some (new_rhs, new_proof))) ->
  exists proof_args,
    List.length proof_args = get_num_args rule /\
    new_proof = if Nat.ltb 0 (get_num_args rule)
                then mk_app K (get_proof rule :: proof_args)
                else get_proof rule.
Proof.
  intros Hon Hrun. unfold check_rule_fn in Hrun. cbv zeta in Hrun.
  destruct (hop_match K (get_lhs rule) target (get_num_args rule)) as [subst0 |];
    [| discriminate].
  pose proof (subst_resize_length (get_num_args rule) subst0) as Hlen.
  destruct (found_all_args (subst_resize (get_num_args rule) subst0)) as [vals |] eqn:Hall.
  - apply found_all_args_values in Hall. rewrite Hall, length_map in Hlen.
    destruct (is_permutation rule && _); [discriminate |].
    inversion Hrun; subst. rewrite Hon. exists vals. split; [exact Hlen | reflexivity].
  - unfold bind at 1 in Hrun. rewrite Hon in Hrun.
    destruct (conditional_args K cfg simp _ (get_ceq rule) [get_proof rule] s)
      as [s1 [[[ceq pa] |] | x]] eqn:Hcond; try discriminate.
    apply conditional_args_proof_args in Hcond. rewrite Hon in Hcond.
    destruct Hcond as (extra & -> & Hextra).
    destruct (is_permutation rule && _); [discriminate |].
    inversion Hrun; subst. exists extra. split; [lia |].
    destruct (get_num_args rule) as [| n] eqn:Hnum.
    + destruct (subst_resize _ subst0); [discriminate Hall | discriminate Hlen].
    + reflexivity.
Qed.

End RuleArguments.

Lemma X12_witness :
  m_proofs_enabled (Examples.config0 Examples.K_plain [] [Examples.rs_cond]) = true /\
  snd (check_rule_fn Examples.K_plain (Examples.config0 Examples.K_plain [] [Examples.rs_cond])
         (simplify Examples.K_plain (Examples.config0 Examples.K_plain [] [Examples.rs_cond]) 5)
         (Toy.cst "a") Examples.rule_cond
         (Examples.state0 Examples.K_plain [] [Examples.rs_cond])) =
    Ret (Some (Toy.cst "b", Runs.Hab_proof)) /\
  exists proof_args,
    List.length proof_args = get_num_args Examples.rule_cond /\
    Runs.Hab_proof =
    if Nat.ltb 0 (get_num_args Examples.rule_cond)
    then mk_app Examples.K_plain (get_proof Examples.rule_cond :: proof_args)
    else get_proof Examples.rule_cond.
Proof.
  split; [reflexivity |]. split; [vm_compute; reflexivity |].
  apply (X12_fired_rule_proof_takes_one_argument_per_parameter Examples.K_plain
           (Examples.config0 Examples.K_plain [] [Examples.rs_cond])
           (simplify Examples.K_plain (Examples.config0 Examples.K_plain [] [Examples.rs_cond]) 5)
           (Toy.cst "a") Examples.rule_cond
           (Examples.state0 Examples.K_plain [] [Examples.rs_cond])
           (fst (check_rule_fn Examples.K_plain
                   (Examples.config0 Examples.K_plain [] [Examples.rs_cond])
                   (simplify Examples.K_plain
                      (Examples.config0 Examples.K_plain [] [Examples.rs_cond]) 5)
                   (Toy.cst "a") Examples.rule_cond
                   (Examples.state0 Examples.K_plain [] [Examples.rs_cond])))
           (Toy.cst "b")).
  - reflexivity.
  - vm_compute. reflexivity.
Defined.

(* ================================================================= *)
(** ** The buffers of [simplify_app_default] *)

Section DefaultBuffers.

Variable K : kernel.
Variable cfg : config.
Variable simp : expr -> M result.

(** One iteration: what it appends to each buffer. *)
Lemma simplify_app_default_arg_buffers (a : expr) (b b' : app_buffers) (s s' : state) :
  simplify_app_default_arg K cfg simp a b s = (s', Ret b') ->
  (exists new_a,
      ab_new_args b' = ab_new_args b ++ [new_a] /\
      ab_changed b' = ab_changed b || negb (expr_eqb new_a a)) /\
  (if m_proofs_enabled cfg
   then List.length (ab_proofs b') = S (List.length (ab_proofs b)) /\
        List.length (ab_f_types b') = S (List.length (ab_f_types b)) /\
        List.length (ab_new_f_types b') = S (List.length (ab_new_f_types b)) /\
        List.length (ab_heq_proofs b') =
        (if m_has_heq cfg then S (List.length (ab_heq_proofs b))
         else List.length (ab_heq_proofs b))
   else ab_proofs b' = ab_proofs b /\ ab_f_types b' = ab_f_types b /\
        ab_new_f_types b' = ab_new_f_types b /\ ab_heq_proofs b' = ab_heq_proofs b).
Proof.
  unfold simplify_app_default_arg, bind, get_ctx, ret. cbv beta zeta.
  set (f_type := ensure_pi K (m_ctx s) (ab_f_type b)).
  destruct (m_has_heq cfg || is_arrow K f_type).
  - destruct (simp a s) as [s1 [res_a | x]]; [| discriminate].
    destruct (m_proofs_enabled cfg).
    + destruct (is_arrow K f_type); [| destruct (is_eqp K a (m_out res_a))];
        intros H; inversion H; subst; clear H; cbn;
          (split; [exists (m_out res_a); split; [reflexivity |];
                   destruct (expr_eqb (m_out res_a) a), (ab_changed b); reflexivity |]);
          rewrite ?length_app; simpl; repeat split; try lia;
            destruct (m_has_heq cfg); rewrite ?length_app; simpl; lia.
    + intros H; inversion H; subst; clear H; cbn.
      split; [exists (m_out res_a); split; [reflexivity |];
              destruct (expr_eqb (m_out res_a) a), (ab_changed b); reflexivity |].
      repeat split.
  - destruct (m_proofs_enabled cfg).
    + destruct (is_arrow K f_type); [| destruct (is_eqp K a (m_out (result_out a)))];
        intros H; inversion H; subst; clear H; cbn;
          (split; [exists a; split; [reflexivity |];
                   rewrite expr_eqb_refl, orb_false_r; reflexivity |]);
          rewrite ?length_app; simpl; repeat split; try lia;
            destruct (m_has_heq cfg); rewrite ?length_app; simpl; lia.
    + intros H; inversion H; subst; clear H; cbn.
      split; [exists a; split; [reflexivity |];
              rewrite expr_eqb_refl, orb_false_r; reflexivity |].
      repeat split.
Qed.

(** X13.  The loop of [simplify_app_default] appends exactly one new argument
    per argument of the application, in order, so the rebuilt application
    has the arity of the original; and [changed] ends up set exactly when it
    was set before the loop or some new argument differs from the argument
    it replaces. *)
Theorem X13_default_loop_appends_one_argument_each (l : list expr) :
  forall b b' s s',
    simplify_app_default_args K cfg simp l b s = (s', Ret b') ->
    exists news,
      List.length news = List.length l /\
      ab_new_args b' = ab_new_args b ++ news /\
      ab_changed b' = ab_changed b || existsb differs (combine news l).
Proof.
  induction l as [| a rest IH]; intros b b' s s' Hrun; simpl in Hrun.
  - inversion Hrun; subst. exists []. rewrite app_nil_r, orb_false_r. auto.
  - unfold bind in Hrun.
    destruct (simplify_app_default_arg K cfg simp a b s) as [s1 [b1 | x]] eqn:Harg;
      [| discriminate].
    apply simplify_app_default_arg_buffers in Harg as [(new_a & Hargs & Hch) _].
    apply IH in Hrun as (news & Hlen & Hnews & Hchanged).
    exists (new_a :: news). simpl. rewrite Hnews, Hargs, <- app_assoc. simpl.
    repeat split; [lia |].
    rewrite Hchanged, Hch. unfold differs at 2. simpl. rewrite orb_assoc. reflexivity.
Qed.

(** X14.  With proofs on, the loop keeps the buffers [proofs], [f_types] and
    [new_f_types] (and [heq_proofs] when [heq] is imported) in step with the
    arguments: each grows by one entry per argument, so the entries
    [proofs[i]], [f_types[i-1]] and [heq_proofs[i]] that the construction of
    the congruence proof reads exist for every argument position. *)
Theorem X14_default_loop_keeps_proof_buffers_in_step (l : list expr) :
  forall b b' s s',
    m_proofs_enabled cfg = true ->
    simplify_app_default_args K cfg simp l b s = (s', Ret b') ->
    List.length (ab_proofs b') = (List.length (ab_proofs b) + List.length l)%nat /\
    List.length (ab_f_types b') = (List.length (ab_f_types b) + List.length l)%nat /\
    List.length (ab_new_f_types b') = (List.length (ab_new_f_types b) + List.length l)%nat /\
    (m_has_heq cfg = true ->
     List.length (ab_heq_proofs b') = (List.length (ab_heq_proofs b) + List.length l)%nat).
Proof.
  induction l as [| a rest IH]; intros b b' s s' Hon Hrun; simpl in Hrun.
  - inversion Hrun; subst. simpl. repeat split; lia.
  - unfold bind in Hrun.
    destruct (simplify_app_default_arg K cfg simp a b s) as [s1 [b1 | x]] eqn:Harg;
      [| discriminate].
    apply simplify_app_default_arg_buffers in Harg as [_ Harg]. rewrite Hon in Harg.
    destruct Harg as (H1 & H2 & H3 & H4).
    apply IH in Hrun as (G1 & G2 & G3 & G4); [| exact Hon].
    simpl. repeat split; try lia.
    intros Hheq. rewrite Hheq in H4. specialize (G4 Hheq). lia.
Qed.

Lemma skip_refl_spec (proofs : list (option expr)) :
  forall i,
    (skip_refl proofs i = i + List.length proofs)%nat <-> forallb is_refl proofs = true.
Proof.
  assert (Hle : forall proofs i, (skip_refl proofs i <= i + List.length proofs)%nat).
  { clear. induction proofs as [| [p |] rest IH]; intros i; simpl; try lia.
    specialize (IH (S i)). lia. }
  induction proofs as [| [p |] rest IH]; intros i; simpl.
  - split; [reflexivity | lia].
  - split; [lia | discriminate].
  - rewrite <- (IH (S i)). split; intros H; rewrite H; lia.
Qed.

(** X15.  When [proofs] has one entry per argument position, the
    construction of the congruence proof is skipped (the result is the new
    application without a proof) exactly when every entry is empty: one
    argument with a proof is enough for a proof to be attempted. *)
Theorem X15_congruence_proof_is_skipped_iff_all_reflexive (ctx : context) (e : expr)
        (b : app_buffers) :
  List.length (ab_proofs b) = num_args e ->
  (build_congr_proof K cfg ctx e b = AllRefl <-> forallb is_refl (ab_proofs b) = true).
Proof.
  intros Hlen. unfold build_congr_proof. cbv zeta.
  rewrite <- (skip_refl_spec (ab_proofs b) 0), Hlen. simpl.
  destruct (Nat.eqb (skip_refl (ab_proofs b) 0) (num_args e)) eqn:Heq.
  - apply Nat.eqb_eq in Heq. split; auto.
  - apply Nat.eqb_neq in Heq. split; [| intros H; contradiction].
    destruct (seed_proof K cfg ctx e b _) as [acc |]; [| discriminate].
    destruct (extend_proofs K cfg ctx e b _ acc) as [[pr h] |]; discriminate.
Qed.

End DefaultBuffers.

Lemma X13_witness :
  snd (simplify_app_default_args Examples.K_plain
         (Examples.config0 Examples.K_plain [] [Examples.rs_b])
         (simplify Examples.K_plain (Examples.config0 Examples.K_plain [] [Examples.rs_b]) 5)
         [Toy.cst "a"; Toy.cst "b"] Runs.buffers_f
         (Examples.state0 Examples.K_plain [] [Examples.rs_b])) = Ret Runs.buffers_f_a_b2 /\
  exists news,
    List.length news = List.length [Toy.cst "a"; Toy.cst "b"] /\
    ab_new_args Runs.buffers_f_a_b2 = ab_new_args Runs.buffers_f ++ news /\
    ab_changed Runs.buffers_f_a_b2 =
    ab_changed Runs.buffers_f || existsb differs (combine news [Toy.cst "a"; Toy.cst "b"]).
Proof.
  split; [vm_compute; reflexivity |].
  apply (X13_default_loop_appends_one_argument_each Examples.K_plain
           (Examples.config0 Examples.K_plain [] [Examples.rs_b])
           (simplify Examples.K_plain (Examples.config0 Examples.K_plain [] [Examples.rs_b]) 5)
           [Toy.cst "a"; Toy.cst "b"] Runs.buffers_f Runs.buffers_f_a_b2
           (Examples.state0 Examples.K_plain [] [Examples.rs_b])
           (fst (simplify_app_default_args Examples.K_plain
                   (Examples.config0 Examples.K_plain [] [Examples.rs_b])
                   (simplify Examples.K_plain
                      (Examples.config0 Examples.K_plain [] [Examples.rs_b]) 5)
                   [Toy.cst "a"; Toy.cst "b"] Runs.buffers_f
                   (Examples.state0 Examples.K_plain [] [Examples.rs_b])))).
  vm_compute. reflexivity.
Defined.

Lemma X14_witness :
  m_proofs_enabled (Examples.config0 Examples.K_plain [] [Examples.rs_b]) = true /\
  List.length (ab_proofs Runs.buffers_f_a_b2) = 3%nat /\
  List.length (ab_f_types Runs.buffers_f_a_b2) = 3%nat /\
  List.length (ab_new_f_types Runs.buffers_f_a_b2) = 3%nat.
Proof.
  split; [reflexivity |].
  destruct (X14_default_loop_keeps_proof_buffers_in_step Examples.K_plain
              (Examples.config0 Examples.K_plain [] [Examples.rs_b])
              (simplify Examples.K_plain (Examples.config0 Examples.K_plain [] [Examples.rs_b]) 5)
              [Toy.cst "a"; Toy.cst "b"] Runs.buffers_f Runs.buffers_f_a_b2
              (Examples.state0 Examples.K_plain [] [Examples.rs_b])
              (fst (simplify_app_default_args Examples.K_plain
                      (Examples.config0 Examples.K_plain [] [Examples.rs_b])
                      (simplify Examples.K_plain
                         (Examples.config0 Examples.K_plain [] [Examples.rs_b]) 5)
                      [Toy.cst "a"; Toy.cst "b"] Runs.buffers_f
                      (Examples.state0 Examples.K_plain [] [Examples.rs_b]))))
    as (H1 & H2 & H3 & _).
  - reflexivity.
  - vm_compute. reflexivity.
  - split; [exact H1 |]. split; [exact H2 | exact H3].
Defined.

Lemma X15_witness :
  List.length (ab_proofs Runs.buffers_f_a_b2) = num_args Examples.f_a_b /\
  (build_congr_proof Examples.K_plain (Examples.config0 Examples.K_plain [] [Examples.rs_b])
     [] Examples.f_a_b Runs.buffers_f_a_b2 = AllRefl <->
   forallb is_refl (ab_proofs Runs.buffers_f_a_b2) = true).
Proof.
  split; [reflexivity |].
  apply X15_congruence_proof_is_skipped_iff_all_reflexive. reflexivity.
Defined.

(* ================================================================= *)
(** ** The congruence theorems of a simplifier *)

Lemma find_app_none {A : Type} (p : A -> bool) (l1 l2 : list A) :
  find p l1 = None -> find p (l1 ++ l2) = find p l2.
Proof.
  induction l1 as [| x l1 IH]; simpl; [reflexivity |].
  destruct (p x); [discriminate | exact IH].
Qed.

Lemma find_app_some {A : Type} (p : A -> bool) (l1 l2 : list A) (x : A) :
  find p l1 = Some x -> find p (l1 ++ l2) = Some x.
Proof.
  induction l1 as [| y l1 IH]; simpl; [discriminate |].
  destruct (p y); auto.
Qed.

(** The lookup by head symbol sees through the collection: a theorem that
    was left out has the head of one that was kept before it. *)
Lemma collect_fold_find (f : expr) (l : list congr_theorem_info) :
  forall acc,
    find (same_head f) (fold_left collect_step l acc) =
    match find (same_head f) acc with
    | Some c => Some c
    | None => find (same_head f) l
    end.
Proof.
  induction l as [| info l IH]; intros acc; simpl.
  - destruct (find (same_head f) acc); reflexivity.
  - rewrite IH. unfold collect_step.
    destruct (forallb _ acc) eqn:Hall.
    + destruct (find (same_head f) acc) as [c |] eqn:Hacc.
      * rewrite (find_app_some _ _ _ _ Hacc). reflexivity.
      * rewrite (find_app_none _ _ _ Hacc). simpl.
        destruct (same_head f info); reflexivity.
    + destruct (find (same_head f) acc) as [c |] eqn:Hacc; [reflexivity |].
      destruct (same_head f info) eqn:Hinfo; [| reflexivity].
      exfalso.
      assert (Hex : exists info2, In info2 acc /\
                                  expr_eqb (get_fun info2) (get_fun info) = true).
      { clear - Hall. induction acc as [| a acc IHa]; simpl in Hall; [discriminate |].
        destruct (expr_eqb (get_fun a) (get_fun info)) eqn:Ha.
        - exists a. split; [left; reflexivity | exact Ha].
        - simpl in Hall. destruct (IHa Hall) as (x & Hin & Hx).
          exists x. split; [right; exact Hin | exact Hx]. }
      destruct Hex as (info2 & Hin & Heq).
      pose proof (find_none _ _ Hacc info2 Hin) as Hno. unfold same_head in Hno, Hinfo.
      rewrite (expr_eqb_trans _ _ _ Heq Hinfo) in Hno. discriminate.
Qed.

Lemma collect_fold_distinct (l : list congr_theorem_info) :
  forall acc,
    ForallOrdPairs (fun a b => expr_eqb (get_fun a) (get_fun b) = false) acc ->
    ForallOrdPairs (fun a b => expr_eqb (get_fun a) (get_fun b) = false)
      (fold_left collect_step l acc).
Proof.
  induction l as [| info l IH]; intros acc Hacc; simpl; [exact Hacc |].
  apply IH. unfold collect_step. destruct (forallb _ acc) eqn:Hall; [| exact Hacc].
  clear IH. induction Hacc as [| a acc Ha Hrest IHacc]; simpl.
  - constructor; [constructor | constructor].
  - simpl in Hall. apply andb_true_iff in Hall as [Ha' Hall].
    constructor.
    + apply Forall_app. split; [exact Ha |].
      constructor; [| constructor]. apply negb_true_iff, Ha'.
    + apply IHacc, Hall.
Qed.

Lemma collect_fold_in (l : list congr_theorem_info) :
  forall acc c, In c (fold_left collect_step l acc) -> In c acc \/ In c l.
Proof.
  induction l as [| info l IH]; intros acc c Hin; simpl in *; [left; exact Hin |].
  destruct (IH _ _ Hin) as [H | H]; [| right; right; exact H].
  unfold collect_step in H. destruct (forallb _ acc); [| left; exact H].
  apply in_app_or in H as [H | [H | []]]; [left; exact H | right; left; exact H].
Qed.

(** X16.  In a freshly constructed simplifier the lookup of a congruence
    theorem by head symbol returns the first theorem with that head in the
    order the rule sets enumerate them (the rule set for contextual
    rewriting first, then the caller's), and nothing when [contextual] is
    off: dropping the later theorems of a head loses no head. *)
Theorem X16_congruence_lookup_finds_first_declared (K : kernel) (o : options)
        (rs : list rewrite_rule_set) (f : expr) :
  find_congr_thm (fst (mk_simplifier_fn K o rs)) f =
  if get_simplifier_contextual o
  then find (fun c => expr_eqb (get_fun c) f)
         (List.concat (map rs_congr (empty_rule_set K :: rs)))
  else None.
Proof.
  unfold find_congr_thm, mk_simplifier_fn. cbn [fst m_congr_thms].
  unfold collect_congr_thms, initial_rule_sets.
  destruct (get_simplifier_contextual o); [| reflexivity].
  exact (collect_fold_find f _ []).
Qed.

(** X17.  [collect_congr_thms] keeps theorems with pairwise different head
    symbols, each taken from one of the rule sets, and keeps none when
    [contextual] is off. *)
Theorem X17_collected_congruence_theorems_have_distinct_heads
        (contextual : bool) (rule_sets : list rewrite_rule_set) :
  ForallOrdPairs (fun a b => expr_eqb (get_fun a) (get_fun b) = false)
    (collect_congr_thms contextual rule_sets) /\
  (forall c, In c (collect_congr_thms contextual rule_sets) ->
             contextual = true /\ exists rs, In rs rule_sets /\ In c (rs_congr rs)).
Proof.
  unfold collect_congr_thms. destruct contextual.
  - split.
    + apply (collect_fold_distinct _ []). constructor.
    + intros c Hin. split; [reflexivity |].
      apply (collect_fold_in _ []) in Hin as [[] | Hin].
      apply in_concat in Hin as (l & Hl & Hc).
      apply in_map_iff in Hl as (rs & <- & Hrs). eauto.
  - split; [constructor | intros c []].
Qed.

(* ================================================================= *)
(** ** A simplifier with nothing to do *)

Lemma name_eqb_sym (a : name) : forall b, name_eqb a b = name_eqb b a.
Proof.
  induction a as [| p IH s | p IH k]; intros [| q t | q j]; simpl; try reflexivity.
  - rewrite IH, String.eqb_sym. reflexivity.
  - rewrite IH, Z.eqb_sym. reflexivity.
Qed.

Lemma expr_eqb_sym : forall a b, expr_eqb a b = expr_eqb b a.
Proof.
  fix IH 1.
  intros [i | n | | n | v | l | n d b | n d b | n t v b]
         [i2 | n2 | | n2 | v2 | l2 | n2 d2 b2 | n2 d2 b2 | n2 t2 v2 b2]; simpl;
    try reflexivity.
  - apply Nat.eqb_sym.
  - apply name_eqb_sym.
  - apply name_eqb_sym.
  - apply Z.eqb_sym.
  - revert l2. induction l as [| x l IHl]; intros [| y l2]; try reflexivity.
    rewrite (IH x y), (IHl l2). reflexivity.
  - rewrite (IH d d2), (IH b b2). reflexivity.
  - rewrite (IH d d2), (IH b b2). reflexivity.
  - rewrite (IH v v2), (IH b b2).
    destruct t as [t' |], t2 as [t2' |]; try reflexivity. rewrite (IH t' t2'). reflexivity.
Qed.

Lemma let_free_args (l : list expr) :
  let_free (App l) = true -> forall a, In a l -> let_free a = true.
Proof.
  simpl. induction l as [| x l IH]; intros Hl a Ha; [destruct Ha |].
  apply andb_true_iff in Hl as [Hx Hl]. destruct Ha as [<- | Ha]; auto.
Qed.

Lemma visit_size_args (l : list expr) :
  forall a, In a l -> (visit_size a < visit_size (App l))%nat.
Proof.
  simpl. induction l as [| x l IH]; intros a Ha; [destruct Ha |].
  destruct Ha as [<- | Ha]; [lia |]. specialize (IH a Ha). lia.
Qed.

(** The pass: [simp] returns its input on the visited subterms below the
    size [n]; no exception is possible. *)
Section Idle.

Variable K : kernel.
Variable cfg : config.
Hypothesis Hint : forall k, interrupt_requested K k = false.
Hypothesis Hmax : m_max_steps cfg = UINT_MAX.
Hypothesis Heval : m_eval cfg = false.
Hypothesis Hunfold : m_unfold cfg = false.
Hypothesis Hbeta : m_beta cfg = false.
Hypothesis Heta : m_eta cfg = false.
Hypothesis Hcast : m_has_cast cfg = false.
Hypothesis Hcongr : m_congr_thms cfg = [].

Lemma idle_result_out (e : expr) : idle_result e (result_out e).
Proof. repeat split. apply expr_eqb_refl. Qed.

Lemma idle_result_eqb (e out : expr) :
  expr_eqb out e = true -> idle_result e (result_out out).
Proof. intros H. repeat split. exact H. Qed.

Lemma cache_find_idle (c : cache) (e : expr) :
  Forall (fun kv => idle_result (fst kv) (snd kv)) c ->
  match cache_find c e with Some r => idle_result e r | None => True end.
Proof.
  induction c as [| [k r] c IH]; simpl; intros Hc; [exact Logic.I |].
  inversion Hc as [| ? ? (Hp & Hh & Hk) Hrest]; subst. simpl in *.
  destruct (expr_eqb k e) eqn:Hke; [| apply IH; assumption].
  repeat split; try assumption. exact (expr_eqb_trans _ _ _ Hk Hke).
Qed.

Lemma idle_no_match (s : state) (target : expr) :
  idle_state s -> no_match K (m_rule_sets s) target.
Proof.
  intros [Hrules _] rs rule Hrs Hrule.
  rewrite Forall_forall in Hrules. rewrite (Hrules rs Hrs) in Hrule. destruct Hrule.
Qed.

Lemma id_set_context {A : Type} (phi : A -> Prop) (c : context) (m : M A) :
  hoare idle_state phi never m -> hoare idle_state phi never (set_context c m).
Proof.
  apply hoare_set_context; unfold idle_state, never; simpl; auto.
  - intros s [H _]. split; [exact H | constructor].
  - intros s0 s [_ H0] [H _]. split; assumption.
Qed.

Lemma id_get_ctx : hoare idle_state (fun _ => True) never get_ctx.
Proof. apply hoare_read. auto. Qed.

Lemma id_save (e : expr) (r : result) :
  idle_result e r -> hoare idle_state (idle_result e) never (save cfg e r).
Proof.
  intros Hr. unfold save. destruct (m_memoize cfg).
  - intros s [Hrules Hc]. unfold post, idle_state. simpl. split; [split |].
    + exact Hrules.
    + unfold cache_insert. destruct (cache_find (m_cache s) e); auto.
    + exact Hr.
  - apply hoare_ret, Hr.
Qed.

Lemma id_count_step : hoare idle_state (fun _ => True) never (count_step K cfg).
Proof.
  intros s Hs. unfold count_step, post. rewrite Hint, Hmax.
  assert (Hw : (UINT_MAX <? wrap32 (m_num_steps s + 1)) = false).
  { apply Z.ltb_ge. unfold wrap32, UINT_MAX.
    pose proof (Z.mod_pos_bound (m_num_steps s + 1) 4294967296 eq_refl). lia. }
  cbv zeta. cbn [m_num_steps set_num_steps]. rewrite Hw. simpl. split; [exact Hs | exact Logic.I].
Qed.

Section Driver.

Variable simp : expr -> M result.
Variable n : nat.
Hypothesis Hsimp :
  forall e, let_free e = true -> (visit_size e < n)%nat ->
            hoare idle_state (idle_result e) never (simp e).

Lemma id_rewrite (lhs : expr) (rhs : result) :
  idle_result lhs rhs ->
  hoare idle_state (idle_result lhs) never (rewrite K cfg simp lhs rhs).
Proof.
  intros Hrhs s Hs. rewrite rewrite_no_match by (apply idle_no_match, Hs).
  destruct Hrhs as (Hp & Hh & Heq). rewrite expr_eqb_sym, Heq, andb_false_r.
  unfold post, ret. simpl. split; [exact Hs | repeat split; assumption].
Qed.

Lemma id_rewrite_app (lhs : expr) (rhs : result) :
  idle_result lhs rhs ->
  hoare idle_state (idle_result lhs) never (rewrite_app K cfg simp lhs rhs).
Proof.
  intros Hrhs. unfold rewrite_app, evaluate_app. rewrite Heval, Hbeta. simpl.
  apply hoare_bind. eapply hoare_conseq; [apply id_get_ctx |].
  intros ctx _. apply id_rewrite, Hrhs.
Qed.

Lemma id_rewrite_lambda (lhs : expr) (rhs : result) :
  idle_result lhs rhs ->
  hoare idle_state (idle_result lhs) never (rewrite_lambda K cfg simp lhs rhs).
Proof.
  intros Hrhs. unfold rewrite_lambda. rewrite Heta. simpl.
  apply hoare_bind. eapply hoare_conseq; [apply id_get_ctx |].
  intros ctx _. apply id_rewrite, Hrhs.
Qed.

Lemma id_simplify_app_default_arg (a : expr) (b : app_buffers) :
  let_free a = true -> (visit_size a < n)%nat -> ab_changed b = false ->
  hoare idle_state (fun b' => ab_changed b' = false) never
    (simplify_app_default_arg K cfg simp a b).
Proof.
  intros Ha Hsz Hch s Hs. unfold post, simplify_app_default_arg, bind, get_ctx, ret.
  cbv beta zeta.
  set (f_type := ensure_pi K (m_ctx s) (ab_f_type b)).
  destruct (m_has_heq cfg || is_arrow K f_type).
  - pose proof (Hsimp a Ha Hsz s Hs) as Hrun. unfold post in Hrun.
    destruct (simp a s) as [s1 [res_a | x]]; simpl in Hrun; [| destruct Hrun].
    destruct Hrun as [Hs1 (Hp & Hh & Heq)]. rewrite Heq. cbn [negb].
    destruct (m_proofs_enabled cfg);
      [destruct (is_arrow K f_type); [| destruct (is_eqp K a (m_out res_a))] |];
      simpl; auto.
  - destruct (m_proofs_enabled cfg);
      [destruct (is_arrow K f_type); [| destruct (is_eqp K a (m_out (result_out a)))] |];
      simpl; auto.
Qed.

Lemma id_simplify_app_default_args (l : list expr) :
  forall b,
    (forall a, In a l -> let_free a = true /\ (visit_size a < n)%nat) ->
    ab_changed b = false ->
    hoare idle_state (fun b' => ab_changed b' = false) never
      (simplify_app_default_args K cfg simp l b).
Proof.
  induction l as [| a rest IH]; intros b Hl Hch; simpl.
  - apply hoare_ret, Hch.
  - apply hoare_bind. eapply hoare_conseq.
    + destruct (Hl a (or_introl eq_refl)) as [Ha Hsz].
      apply id_simplify_app_default_arg; assumption.
    + intros b1 Hb1. apply IH; [| exact Hb1]. intros a' Ha'. apply Hl. right. exact Ha'.
Qed.

Lemma id_simplify_app_default (l : list expr) :
  let_free (App l) = true -> (visit_size (App l) <= n)%nat ->
  hoare idle_state (idle_result (App l)) never (simplify_app_default K cfg simp (App l)).
Proof.
  intros Hfree Hsz.
  assert (Hargs : forall a, In a l -> let_free a = true /\ (visit_size a < n)%nat).
  { intros a Ha. split; [exact (let_free_args l Hfree a Ha) |].
    pose proof (visit_size_args l a Ha). lia. }
  assert (Hhead : let_free (arg (App l) 0) = true /\ (visit_size (arg (App l) 0) < n)%nat).
  { unfold arg. simpl args. destruct l as [| f l']; [simpl in *; split; [reflexivity | lia] |].
    apply Hargs. left. reflexivity. }
  unfold simplify_app_default.
  apply hoare_bind. eapply hoare_conseq; [apply id_get_ctx |]. intros ctx _.
  apply hoare_bind. eapply hoare_conseq; [apply Hsimp; apply Hhead |].
  intros res_f (Hp & Hh & Heq).
  apply hoare_bind. eapply hoare_conseq; [apply id_get_ctx |]. intros ctx' _.
  cbv zeta. apply hoare_bind. eapply hoare_conseq.
  - apply id_simplify_app_default_args.
    + intros a Ha. apply Hargs. simpl args in Ha. destruct l; [destruct Ha | right; exact Ha].
    + rewrite Heq. destruct (m_proofs_enabled cfg); reflexivity.
  - intros b Hb. rewrite Hb. simpl. apply id_rewrite_app, idle_result_out.
Qed.

Lemma id_simplify_app (l : list expr) :
  let_free (App l) = true -> (visit_size (App l) <= n)%nat ->
  hoare idle_state (idle_result (App l)) never (simplify_app K cfg simp (App l)).
Proof.
  intros Hfree Hsz. unfold simplify_app, find_congr_thm. rewrite Hcast, Hcongr. simpl.
  destruct (m_contextual cfg); apply id_simplify_app_default; assumption.
Qed.

Lemma id_simplify_lambda (x : name) (d b : expr) :
  let_free b = true -> (visit_size b < n)%nat ->
  hoare idle_state (idle_result (Lambda x d b)) never
    (simplify_lambda K cfg simp (Lambda x d b)).
Proof.
  intros Hfree Hsz. unfold simplify_lambda.
  destruct (m_has_heq cfg); [apply hoare_ret, idle_result_out |].
  apply hoare_bind. eapply hoare_conseq; [apply id_get_ctx |]. intros ctx _.
  apply id_set_context. simpl abst_body.
  apply hoare_bind. eapply hoare_conseq; [apply Hsimp; assumption |].
  intros res (Hp & Hh & Heq). cbv zeta.
  destruct (is_eqp K (m_out res) b); [apply id_rewrite_lambda, idle_result_out |].
  unfold has_proof. rewrite Hp. rewrite orb_true_r.
  apply id_rewrite_lambda, idle_result_eqb. simpl. rewrite expr_eqb_refl, Heq. reflexivity.
Qed.

Lemma id_simplify_pi (x : name) (d b : expr) :
  let_free b = true -> (visit_size b < n)%nat ->
  hoare idle_state (idle_result (Pi x d b)) never (simplify_pi K cfg simp (Pi x d b)).
Proof.
  intros Hfree Hsz. unfold simplify_pi.
  apply hoare_bind. eapply hoare_conseq; [apply id_get_ctx |]. intros ctx _.
  destruct (m_has_heq cfg); [apply hoare_ret, idle_result_out |].
  destruct (is_proposition K ctx (Pi x d b)); [| apply hoare_ret, idle_result_out].
  apply id_set_context. simpl abst_body.
  apply hoare_bind. eapply hoare_conseq; [apply Hsimp; assumption |].
  intros res (Hp & Hh & Heq). cbv zeta.
  destruct (is_eqp K (m_out res) b); [apply id_rewrite, idle_result_out |].
  unfold has_proof. rewrite Hp. rewrite orb_true_r.
  apply id_rewrite, idle_result_eqb. simpl. rewrite expr_eqb_refl, Heq. reflexivity.
Qed.

Lemma id_simplify_kind (e : expr) :
  let_free e = true -> (visit_size e <= n)%nat ->
  hoare idle_state (idle_result e) never (simplify_kind K cfg simp e).
Proof.
  intros Hfree Hsz. destruct e as [i | c | | m | v | l | x d b | x d b | x t v b];
    unfold simplify_kind.
  - apply hoare_bind. unfold simplify_var.
    destruct (m_has_heq cfg); apply hoare_ret, id_save, idle_result_out.
  - apply hoare_bind. unfold simplify_constant. rewrite Hunfold, Heval. simpl.
    eapply hoare_conseq; [apply id_rewrite, idle_result_out |].
    intros r Hr. apply id_save, Hr.
  - apply id_save, idle_result_out.
  - apply id_save, idle_result_out.
  - apply id_save, idle_result_out.
  - apply hoare_bind. eapply hoare_conseq; [apply id_simplify_app; assumption |].
    intros r Hr. apply id_save, Hr.
  - apply hoare_bind. eapply hoare_conseq.
    + apply id_simplify_lambda; [exact Hfree | simpl in Hsz; lia].
    + intros r Hr. apply id_save, Hr.
  - apply hoare_bind. eapply hoare_conseq.
    + apply id_simplify_pi; [exact Hfree | simpl in Hsz; lia].
    + intros r Hr. apply id_save, Hr.
  - discriminate.
Qed.

Lemma id_simplify_step (e : expr) :
  let_free e = true -> (visit_size e <= n)%nat ->
  hoare idle_state (idle_result e) never (simplify_step K cfg simp e).
Proof.
  intros Hfree Hsz. unfold simplify_step.
  apply hoare_bind. eapply hoare_conseq; [apply id_count_step |]. intros _ _.
  unfold simplify_lookup, m_max_sharing.
  destruct (m_memoize cfg); [| apply id_simplify_kind; assumption].
  apply hoare_bind. eapply hoare_conseq.
  - apply (hoare_read idle_state never
             (fun o => match o with Some r => idle_result e r | None => True end)).
    intros s [_ Hc]. apply cache_find_idle, Hc.
  - intros [r |] Hr; [apply hoare_ret, Hr | apply id_simplify_kind; assumption].
Qed.

End Driver.

Lemma id_simplify (fuel : nat) :
  forall e, let_free e = true -> (visit_size e < fuel)%nat ->
            hoare idle_state (idle_result e) never (simplify K cfg fuel e).
Proof.
  induction fuel as [| fuel IH]; intros e Hfree Hsz; [lia |].
  simpl. apply (id_simplify_step (simplify K cfg fuel) fuel IH); [exact Hfree | lia].
Qed.

End Idle.

(** X18.  A simplifier with nothing to do returns its input: with [eval],
    [unfold], [beta] and [eta] off, [cast] not imported, no congruence
    theorem, rule sets without rules, the default step bound and no
    interruption, the driver on a term without [Let] terminates (the fuel
    only has to exceed the size of the term), raises nothing, and returns a
    term structurally equal to its argument, without a proof and without the
    heterogeneous flag; the state it leaves is of the same kind. *)
Theorem X18_idle_simplifier_returns_its_input (K : kernel) (cfg : config) (fuel : nat)
        (e : expr) (s : state) :
  (forall k, interrupt_requested K k = false) ->
  m_max_steps cfg = UINT_MAX ->
  m_eval cfg = false -> m_unfold cfg = false -> m_beta cfg = false -> m_eta cfg = false ->
  m_has_cast cfg = false -> m_congr_thms cfg = [] ->
  idle_state s ->
  let_free e = true ->
  (visit_size e < fuel)%nat ->
  exists s' r,
    simplify K cfg fuel e s = (s', Ret r) /\
    expr_eqb (m_out r) e = true /\ m_proof r = None /\ m_heq_proof r = false /\
    idle_state s'.
Proof.
  intros Hint Hmax Heval Hunfold Hbeta Heta Hcast Hcongr Hs Hfree Hsz.
  pose proof (id_simplify K cfg Hint Hmax Heval Hunfold Hbeta Heta Hcast Hcongr
                fuel e Hfree Hsz s Hs) as H.
  unfold post in H. destruct (simplify K cfg fuel e s) as [s' [r | x]]; simpl in H.
  - destruct H as [Hs' (Hp & Hh & Heq)]. exists s', r. repeat split; auto; apply Hs'.
  - destruct H.
Qed.

Lemma X18_witness :
  (forall k, interrupt_requested Examples.K_plain k = false) /\
  m_congr_thms (Examples.config0 Examples.K_plain Runs.opts_idle []) = [] /\
  idle_state (Examples.state0 Examples.K_plain Runs.opts_idle []) /\
  let_free Runs.fun_f_x_a = true /\
  (visit_size Runs.fun_f_x_a < 10)%nat /\
  exists s' r,
    simplify Examples.K_plain (Examples.config0 Examples.K_plain Runs.opts_idle []) 10
      Runs.fun_f_x_a (Examples.state0 Examples.K_plain Runs.opts_idle []) = (s', Ret r) /\
    expr_eqb (m_out r) Runs.fun_f_x_a = true /\ m_proof r = None /\ m_heq_proof r = false /\
    idle_state s'.
Proof.
  assert (Hint : forall k, interrupt_requested Examples.K_plain k = false).
  { intros k. reflexivity. }
  assert (Hs : idle_state (Examples.state0 Examples.K_plain Runs.opts_idle [])).
  { split; repeat constructor. }
  assert (Hsz : (visit_size Runs.fun_f_x_a < 10)%nat).
  { apply Nat.ltb_lt. reflexivity. }
  split; [exact Hint |]. split; [reflexivity |]. split; [exact Hs |].
  split; [reflexivity |]. split; [exact Hsz |].
  apply (X18_idle_simplifier_returns_its_input Examples.K_plain
           (Examples.config0 Examples.K_plain Runs.opts_idle []) 10 Runs.fun_f_x_a
           (Examples.state0 Examples.K_plain Runs.opts_idle []) Hint);
    try reflexivity; assumption.
Defined.
